(** * Achievement progress tracking (src/map/achievement.cpp)

    A shallow embedding of the player-side achievement engine: the progress
    log with its incomplete/completed partition, the dependency check, the
    objective update rules, the level computation and the reward claim.

    Conventions of the embedding.
    - C [int] and [time_t] values are [Z].  Signed overflow is undefined
      behaviour in the source and is not modelled.
    - [sd->achievement_data.achievements] is a [list achievement]; the field
      [count] is the length of that list (the source reallocates the array to
      exactly [count] elements on every insertion and removal).  [count] and
      [incompleteCount] are natural numbers; the source decrements
      [incompleteCount] only where an incomplete entry was found, and on a
      partitioned log that is below the boundary.
    - Calls into other modules (client packets, scripts, the inter-server
      link) are recorded, in call order, in the [out] trace of the [world].
    - A null-pointer dereference or an out-of-bounds write in the source is
      the result [Fault]. *)

From Stdlib Require Import ZArith Lia List Bool.
From stdpp Require Import base tactics option list gmap.

Local Open Scope Z_scope.

(** ** Results of possibly failing, fuel-bounded computations *)

Inductive result (A : Type) : Type :=
| Done (a : A)
| Fault
| OutOfFuel.
Arguments Done {A} a.
Arguments Fault {A}.
Arguments OutOfFuel {A}.

#[global] Instance result_ret : MRet result := fun A a => Done a.
#[global] Instance result_bind : MBind result := fun A B k r =>
  match r with
  | Done a => k a
  | Fault => Fault
  | OutOfFuel => OutOfFuel
  end.

(** ** Data model *)

Definition MAX_ACHIEVEMENT_OBJECTIVES : nat := 10.

(** Modelled from the spec: the enumeration [e_achievement_group] is declared
    in achievement.hpp, which is not part of the sources at hand.  The
    constructors are the group names that achievement.cpp mentions, with
    [AG_NONE] the least and [AG_MAX] the greatest value. *)
Inductive e_achievement_group : Set :=
| AG_NONE
| AG_ADD_FRIEND
| AG_ADVENTURE
| AG_BABY
| AG_BATTLE
| AG_CHAT
| AG_CHAT_COUNT
| AG_CHAT_CREATE
| AG_CHAT_DYING
| AG_GET_ITEM
| AG_GET_ZENY
| AG_GOAL_ACHIEVE
| AG_GOAL_LEVEL
| AG_GOAL_STATUS
| AG_JOB_CHANGE
| AG_MARRY
| AG_PARTY
| AG_REFINE_FAIL
| AG_REFINE_SUCCESS
| AG_SPEND_ZENY
| AG_TAMING
| AG_MAX.

#[global] Instance e_achievement_group_eq_dec : EqDecision e_achievement_group.
Proof. solve_decision. Defined.

(** Modelled from the spec: the values of [e_achievement_info] (script.hpp /
    achievement.hpp).  [ACHIEVEINFO_COUNT1] is 1 because the source reads
    [count[type - 1]]; the other values follow in declaration order. *)
Definition ACHIEVEINFO_COUNT1 : Z := 1.
Definition ACHIEVEINFO_COUNT10 : Z := 10.
Definition ACHIEVEINFO_COMPLETE : Z := 11.
Definition ACHIEVEINFO_COMPLETEDATE : Z := 12.
Definition ACHIEVEINFO_GOTREWARD : Z := 13.
Definition ACHIEVEINFO_LEVEL : Z := 14.
Definition ACHIEVEINFO_SCORE : Z := 15.

(** A compiled script is opaque; it is identified by a number. *)
Definition script_code : Set := nat.

(** [struct achievement_target] *)
Record achievement_target : Set := mk_target {
  target_mob : Z;
  target_count : Z
}.

(** [s_achievement_db::ach_reward] *)
Record ach_reward : Set := mk_reward {
  nameid : Z;
  amount : Z;
  script : option script_code;
  title_id : Z
}.

(** [struct s_achievement_db], one catalog entry.  [db_targets] is the
    [std::map] from slot index to target, listed in key order. *)
Record s_achievement_db : Set := mk_adb {
  db_achievement_id : Z;
  db_group : e_achievement_group;
  db_targets : list (nat * achievement_target);
  db_dependent_ids : list Z;
  db_condition : option script_code;
  db_rewards : ach_reward;
  db_score : Z
}.

(** [struct achievement], one entry of a player's log. *)
Record achievement : Set := mk_achievement {
  achievement_id : Z;
  count : list Z;
  completed : Z;
  rewarded : Z;
  score : Z
}.

#[global] Instance achievement_eq_dec : EqDecision achievement.
Proof. solve_decision. Defined.

(** The player session, restricted to what achievement.cpp touches:
    [sd->achievement_data], [sd->titles] and the player variables ARG0,
    ARG1, ... ([regs], keyed by the number after ARG). *)
Record map_session_data : Type := mk_sd {
  achievements : list achievement;
  incompleteCount : nat;
  total_score : Z;
  level : Z;
  save : bool;
  titles : list Z;
  regs : gmap nat Z
}.

(** Modelled from the spec: the calls that leave the module.  clif.cpp,
    script.cpp and intif.cpp are not among the sources; the specification
    describes them as a client-notification sink, a script capability and an
    asynchronous request to the inter-server authority, and none of them is
    said to write to the player's achievement data.  A call is therefore
    recorded with its arguments and changes nothing else. *)
Inductive effect : Type :=
| clif_achievement_update (ach : achievement) (completed_count : Z)
| clif_achievement_reward_ack (flag : Z) (id : Z)
| clif_achievement_list_all
| run_script (code : option script_code)
| intif_request (id : Z).

(** The player together with the observable surroundings: the trace of
    outgoing calls (most recent first), the number of [time(NULL)] readings
    taken so far, and the history [created] of log insertions.  [created] is
    a ghost component: it has no counterpart in the source and no function
    reads it; [achievement_add] pushes the inserted id together with the
    player state it was inserted into. *)
Record world : Type := mk_world {
  sd : map_session_data;
  out : list effect;
  clock : nat;
  created : list (Z * map_session_data)
}.

(** Modelled from the spec: what the module is linked against.  The catalog
    and the level table are the two [TypesafeYamlDatabase] objects, read with
    [find]; the guard evaluation is the opaque capability "evaluate guard
    expression, return integer", which reads the player and changes nothing;
    [time(NULL)] is an oracle; [intif_achievement_reward] reports whether the
    request could be sent. *)
Record env : Type := mk_env {
  (** [achievement_db], in iteration order *)
  achievement_db : list s_achievement_db;
  (** [achievement_level_db]: zero-based level to points *)
  achievement_level_db : gmap Z Z;
  (** [battle_config.feature_achievement] *)
  feature_achievement : bool;
  (** the value a guard script leaves on the script stack *)
  script_value : script_code → map_session_data → Z;
  (** successive readings of [time(NULL)] *)
  time : nat → Z;
  (** [intif_achievement_reward]: could the request be sent? *)
  intif_achievement_reward : map_session_data → s_achievement_db → bool
}.

(** *** Field updates *)

Definition set_achievements (l : list achievement) (s : map_session_data) :=
  mk_sd l (incompleteCount s) (total_score s) (level s) (save s) (titles s) (regs s).
Definition set_incompleteCount (n : nat) (s : map_session_data) :=
  mk_sd (achievements s) n (total_score s) (level s) (save s) (titles s) (regs s).
Definition set_total_score (z : Z) (s : map_session_data) :=
  mk_sd (achievements s) (incompleteCount s) z (level s) (save s) (titles s) (regs s).
Definition set_level (z : Z) (s : map_session_data) :=
  mk_sd (achievements s) (incompleteCount s) (total_score s) z (save s) (titles s) (regs s).
Definition set_save (b : bool) (s : map_session_data) :=
  mk_sd (achievements s) (incompleteCount s) (total_score s) (level s) b (titles s) (regs s).
Definition set_titles (t : list Z) (s : map_session_data) :=
  mk_sd (achievements s) (incompleteCount s) (total_score s) (level s) (save s) t (regs s).
Definition set_regs (r : gmap nat Z) (s : map_session_data) :=
  mk_sd (achievements s) (incompleteCount s) (total_score s) (level s) (save s) (titles s) r.

Definition with_sd (f : map_session_data → map_session_data) (w : world) : world :=
  mk_world (f (sd w)) (out w) (clock w) (created w).
Definition emit (e : effect) (w : world) : world :=
  mk_world (sd w) (e :: out w) (clock w) (created w).
Definition tick (w : world) : world :=
  mk_world (sd w) (out w) (S (clock w)) (created w).
Definition remember (id : Z) (w : world) : world :=
  mk_world (sd w) (out w) (clock w) ((id, sd w) :: created w).

Definition set_completed (t : Z) (a : achievement) : achievement :=
  mk_achievement (achievement_id a) (count a) t (rewarded a) (score a).
Definition set_rewarded (t : Z) (a : achievement) : achievement :=
  mk_achievement (achievement_id a) (count a) (completed a) t (score a).
Definition set_count (c : list Z) (a : achievement) : achievement :=
  mk_achievement (achievement_id a) c (completed a) (rewarded a) (score a).

(** [memset(&ach, 0, sizeof ach)] *)
Definition zero_achievement : achievement :=
  mk_achievement 0 (replicate MAX_ACHIEVEMENT_OBJECTIVES 0) 0 0 0.

(** ** Catalog access *)

(** [achievement_db.find(id)] *)
Definition db_find (db : list s_achievement_db) (id : Z) : option s_achievement_db :=
  List.find (fun ad => db_achievement_id ad =? id) db.

(** [achievement_db.exists(id)] *)
Definition db_exists (db : list s_achievement_db) (id : Z) : bool :=
  match db_find db id with Some _ => true | None => false end.

(** ** ARR_FIND *)

(** [ARR_FIND(start, end, var, cmp)]: [var] runs from [start] and stops at the
    first index below [end] whose element satisfies [cmp]; it is [end] when
    there is none.  [n] counts the indices still to visit. *)
Fixpoint arr_find_from (n : nat) (var : nat) (cmp : achievement → bool)
    (l : list achievement) : nat :=
  match n with
  | O => var
  | S n' =>
      match l !! var with
      | Some a => if cmp a then var else arr_find_from n' (S var) cmp l
      | None => arr_find_from n' (S var) cmp l
      end
  end.

Definition ARR_FIND (start end_ : nat) (cmp : achievement → bool)
    (l : list achievement) : nat :=
  arr_find_from (end_ - start) start cmp l.

Definition has_id (id : Z) (a : achievement) : bool := achievement_id a =? id.

(** ** The progress log *)

(** [achievement_add]: the index of the new entry, or [None] for NULL.  The
    [memmove] shifts the completed block up by one; with
    [incompleteCount <= count] the new entry lands between the two blocks. *)
Definition achievement_add (E : env) (id : Z) (w : world) : option nat * world :=
  match db_find (achievement_db E) id with
  | None => (None, w)
  | Some adb =>
      let s := sd w in
      let i := ARR_FIND 0 (length (achievements s)) (has_id id) (achievements s) in
      if decide (i < length (achievements s))%nat then (None, w)
      else
        let index := incompleteCount s in
        let fresh := mk_achievement id (count zero_achievement) 0 0 (db_score adb) in
        let l' := take index (achievements s) ++ fresh :: drop index (achievements s) in
        let s' := set_save true
                    (set_achievements l' (set_incompleteCount (S index) s)) in
        let w' := remember id w in
        let w' := with_sd (fun _ => s') w' in
        let w' := emit (clif_achievement_update fresh
                          (Z.of_nat (length l') - Z.of_nat (S index))) w' in
        (Some index, w')
  end.

(** [achievement_remove] *)
Definition achievement_remove (E : env) (id : Z) (w : world) : bool * world :=
  if negb (db_exists (achievement_db E) id) then (false, w)
  else
    let s := sd w in
    let i := ARR_FIND 0 (length (achievements s)) (has_id id) (achievements s) in
    match achievements s !! i with
    | None => (false, w)
    | Some a =>
        let inc := if completed a =? 0 then pred (incompleteCount s)
                   else incompleteCount s in
        let l' := delete i (achievements s) in
        let s' := set_save true (set_achievements l' (set_incompleteCount inc s)) in
        let dummy := mk_achievement id (count zero_achievement) 0 0 0 in
        let w' := with_sd (fun _ => s') w in
        (true, emit (clif_achievement_update dummy
                       (Z.of_nat (length l') - Z.of_nat inc)) w')
    end.

(** [achievement_done] *)
Definition achievement_done (s : map_session_data) (id : Z) : bool :=
  existsb (fun a => (achievement_id a =? id) && (completed a >? 0)) (achievements s).

(** [achievement_check_dependent] *)
Definition achievement_check_dependent (E : env) (s : map_session_data) (id : Z) : bool :=
  match db_find (achievement_db E) id with
  | None => false
  | Some adb => forallb (achievement_done s) (db_dependent_ids adb)
  end.

(** [achievement_check_condition]: run the guard script and test the value it
    leaves behind. *)
Definition achievement_check_condition (E : env) (code : script_code)
    (s : map_session_data) : bool :=
  negb (script_value E code s =? 0).

(** ** Rewards, titles, queries *)

(** [achievement_get_reward] *)
Definition achievement_get_reward (E : env) (id : Z) (rewarded_at : Z) (w : world) : world :=
  match db_find (achievement_db E) id with
  | None => w
  | Some adb =>
      if rewarded_at =? 0 then emit (clif_achievement_reward_ack 0 id) w
      else
        let s := sd w in
        let i := ARR_FIND 0 (length (achievements s)) (has_id id) (achievements s) in
        match achievements s !! i with
        | None => w
        | Some a =>
            let a' := set_rewarded rewarded_at a in
            let w1 := with_sd (fun s =>
                        set_save true (set_achievements (<[i:=a']> (achievements s)) s)) w in
            let w2 := emit (run_script (script (db_rewards adb))) w1 in
            if negb (title_id (db_rewards adb) =? 0) then
              let w3 := with_sd (fun s =>
                          set_titles (titles s ++ [title_id (db_rewards adb)]) s) w2 in
              emit clif_achievement_list_all w3
            else
              let w3 := emit (clif_achievement_reward_ack 1 id) w2 in
              emit (clif_achievement_update a'
                      (Z.of_nat (length (achievements (sd w3)))
                       - Z.of_nat (incompleteCount (sd w3)))) w3
        end
  end.

(** [achievement_check_reward] *)
Definition achievement_check_reward (E : env) (id : Z) (w : world) : world :=
  match db_find (achievement_db E) id with
  | None => emit (clif_achievement_reward_ack 0 id) w
  | Some adb =>
      let s := sd w in
      let i := ARR_FIND 0 (length (achievements s)) (has_id id) (achievements s) in
      match achievements s !! i with
      | None => emit (clif_achievement_reward_ack 0 id) w
      | Some a =>
          if (rewarded a >? 0) || (completed a =? 0) then
            emit (clif_achievement_reward_ack 0 id) w
          else if negb (intif_achievement_reward E s adb) then
            emit (clif_achievement_reward_ack 0 id) w
          else emit (intif_request id) w
      end
  end.

(** [achievement_get_titles], for a player that is online *)
Definition achievement_get_titles (E : env) (w : world) : world :=
  let earned :=
    omap (fun a =>
            match db_find (achievement_db E) (achievement_id a) with
            | Some adb =>
                if negb (title_id (db_rewards adb) =? 0) && (completed a >? 0)
                then Some (title_id (db_rewards adb)) else None
            | None => None
            end) (achievements (sd w)) in
  with_sd (set_titles earned) w.

(** [achievement_free] *)
Definition achievement_free (w : world) : world :=
  match achievements (sd w) with
  | [] => w
  | _ :: _ => with_sd (fun s => set_achievements [] (set_incompleteCount 0%nat s)) w
  end.

(** [(int)t] for a [time_t]: the conversion of a 64-bit time to the 32-bit
    [int], which keeps the low 32 bits as a two's complement number. *)
Definition int_of_time (t : Z) : Z := (t + 2 ^ 31) mod 2 ^ 32 - 2 ^ 31.

(** [achievement_check_progress] *)
Definition achievement_check_progress (s : map_session_data) (id : Z) (type : Z) : Z :=
  if type =? ACHIEVEINFO_LEVEL then level s
  else if type =? ACHIEVEINFO_SCORE then total_score s
  else
    let i := ARR_FIND 0 (length (achievements s)) (has_id id) (achievements s) in
    match achievements s !! i with
    | None => -1
    | Some a =>
        if (ACHIEVEINFO_COUNT1 <=? type) && (type <=? ACHIEVEINFO_COUNT10) then
          default 0 (count a !! Z.to_nat (type - 1))
        else if type =? ACHIEVEINFO_COMPLETE then
          (if completed a >? 0 then 1 else 0)
        else if type =? ACHIEVEINFO_COMPLETEDATE then int_of_time (completed a)
        else if type =? ACHIEVEINFO_GOTREWARD then
          (if rewarded a >? 0 then 1 else 0)
        else -2
    end.

(** ** Level computation *)

(** The first loop of [achievement_level]: recount the total score. *)
Definition recount_score (l : list achievement) : Z :=
  fold_left (fun acc a => if completed a >? 0 then acc + score a else acc) l 0.

(** The second loop of [achievement_level], started at level [lv]: the level
    reached and the pair (left_score, right_score).  [n] bounds the number of
    iterations. *)
Fixpoint level_loop (n : nat) (db : gmap Z Z) (total : Z) (lv : Z)
    : result (Z * (Z * Z)) :=
  match n with
  | O => OutOfFuel
  | S n' =>
      match db !! lv with
      | None => Fault
      | Some points =>
          if total >? points then
            match db !! (lv + 1) with
            | None => Done (lv + 1, (total - points, 0))
            | Some _ => level_loop n' db total (lv + 1)
            end
          else if lv =? 0 then Done (lv, (total, points))
          else
            match db !! (lv - 1) with
            | None => Fault
            | Some previous => Done (lv, (total - previous, points - previous))
            end
      end
  end.

(** ** Objective rules *)

(** [arr[k]] on a counter array *)
Definition at_slot (arr : list Z) (k : nat) : Z := default 0 (arr !! k).

(** The [std::find_if] tests of the objective rules: no target is left whose
    counter is below its required count. *)
Definition all_targets_met (targets : list (nat * achievement_target))
    (current_count : list Z) : bool :=
  forallb (fun kt => negb (at_slot current_count kt.1 <? target_count kt.2)) targets.

(** The accumulation loop of [AG_SPEND_ZENY]. *)
Definition accumulate (targets : list (nat * achievement_target))
    (update_count current_count : list Z) : list Z :=
  fold_left (fun cur kt =>
               if at_slot cur kt.1 <? target_count kt.2
               then <[kt.1 := at_slot cur kt.1 + at_slot update_count kt.1]> cur
               else cur) targets current_count.

(** The counting loop of [AG_BATTLE] and [AG_TAMING]: the counters and the
    [changed] flag. *)
Definition count_kills (targets : list (nat * achievement_target))
    (mob : Z) (current_count : list Z) : list Z * bool :=
  fold_left (fun st kt =>
               if (target_mob kt.2 =? mob) && (at_slot st.1 kt.1 <? target_count kt.2)
               then (<[kt.1 := at_slot st.1 kt.1 + 1]> st.1, true)
               else st) targets (current_count, false).

(** The [switch (group)] of [achievement_update_objectives].  [None] is an
    early [return false]; otherwise the flags [changed] and [complete] and the
    new local counter array. *)
Definition objectives_switch (E : env) (ad : s_achievement_db)
    (group : e_achievement_group) (update_count current_count : list Z)
    (s : map_session_data) : option (bool * bool * list Z) :=
  match group with
  | AG_ADD_FRIEND | AG_BABY | AG_CHAT_COUNT | AG_CHAT_CREATE | AG_CHAT_DYING
  | AG_GET_ITEM | AG_GET_ZENY | AG_GOAL_LEVEL | AG_GOAL_STATUS | AG_JOB_CHANGE
  | AG_MARRY | AG_PARTY | AG_REFINE_FAIL | AG_REFINE_SUCCESS =>
      match db_condition ad with
      | None => None
      | Some code =>
          if achievement_check_condition E code s
          then Some (true, true, current_count) else None
      end
  | AG_SPEND_ZENY =>
      match db_targets ad, db_condition ad with
      | [], _ | _, None => None
      | _ :: _, Some code =>
          let cur := accumulate (db_targets ad) update_count current_count in
          if achievement_check_condition E code s
          then Some (true, all_targets_met (db_targets ad) cur, cur) else None
      end
  | AG_BATTLE | AG_TAMING =>
      match db_targets ad with
      | [] => None
      | _ :: _ =>
          let '(cur, changed) :=
            count_kills (db_targets ad) (at_slot update_count 0) current_count in
          if changed then Some (true, all_targets_met (db_targets ad) cur, cur)
          else None
      end
  | _ => Some (false, false, current_count)
  end.

(** Modelled from the spec: [pc_setglobalreg(sd, "ARG<i>", v)] of pc.cpp, which
    sets a transient player variable; a variable set to 0 is an absent
    variable. *)
Definition pc_setglobalreg (i : nat) (v : Z) (s : map_session_data) : map_session_data :=
  set_regs (if v =? 0 then delete i (regs s) else <[i:=v]> (regs s)) s.

(** Run [f] on every element in order, threading the world. *)
Fixpoint for_each {A : Type} (f : A → world → result world) (l : list A) (w : world)
    : result world :=
  match l with
  | [] => Done w
  | a :: l' => w' ← f a w; for_each f l' w'
  end.

(** The completion block of [achievement_update_achievement] up to the
    partition swap: fill the slots, stamp the time, move the entry to the
    completed block. *)
Definition fill_targets (targets : list (nat * achievement_target)) (c : list Z) : list Z :=
  fold_left (fun c kt => <[kt.1 := target_count kt.2]> c) targets c.

Definition mark_completed (E : env) (adb : s_achievement_db) (i : nat) (a : achievement)
    (w : world) : result world :=
  let a' := set_completed (time E (clock w))
              (set_count (fill_targets (db_targets adb) (count a)) a) in
  let w := tick w in
  let s := sd w in
  let l1 := <[i:=a']> (achievements s) in
  let inc := pred (incompleteCount s) in
  if decide (i < inc)%nat then
    match l1 !! inc with
    | Some b =>
        Done (with_sd (fun s => set_achievements (<[inc:=a']> (<[i:=b]> l1))
                                  (set_incompleteCount inc s)) w)
    | None => Fault
    end
  else Done (with_sd (fun s => set_achievements l1 (set_incompleteCount inc s)) w).

(** [clif_achievement_update(sd, &achievements[i], count - incompleteCount)]
    followed by [save = true]. *)
Definition notify_update (a : achievement) (w : world) : world :=
  let s := sd w in
  with_sd (set_save true)
    (emit (clif_achievement_update a
             (Z.of_nat (length (achievements s)) - Z.of_nat (incompleteCount s))) w).

(** The zero-filled [std::array] of [achievement_update_objective] with the
    event arguments in front. *)
Definition event_counts (args : list Z) : list Z :=
  args ++ replicate (MAX_ACHIEVEMENT_OBJECTIVES - length args) 0.

Definition set_arg_regs (args : list Z) (s : map_session_data) : map_session_data :=
  fold_left (fun s iv => pc_setglobalreg iv.1 iv.2 s) (imap (fun i v => (i, v)) args) s.

Definition clear_arg_regs (args : list Z) (s : map_session_data) : map_session_data :=
  fold_left (fun s iv => pc_setglobalreg iv.1 0 s) (imap (fun i v => (i, v)) args) s.

(** ** The mutually recursive core

    [achievement_level] may raise an [AG_GOAL_ACHIEVE] event, an event scans
    the catalog with [achievement_update_objectives], which completes entries
    through [achievement_update_achievement], which recomputes the level and
    runs [achievement_check_groups] on the whole catalog, which completes
    further entries.  Each function body is written once, over the functions
    it calls ([call_...]); the fixpoint below ties them together, with [fuel]
    bounding the depth of the calls. *)

Section bodies.
Context (E : env).
Context (call_update_objective : e_achievement_group → list Z → world → result world).
Context (call_update_objectives :
           s_achievement_db → e_achievement_group → list Z → world → result (bool * world)).
Context (call_update_achievement : Z → bool → world → result (bool * world)).
Context (call_level : bool → world → result ((Z * Z) * world)).
Context (call_check_groups : s_achievement_db → world → result (Z * world)).

(** [achievement_level] *)
Definition achievement_level_body (flag : bool) (w : world) : result ((Z * Z) * world) :=
  let total := recount_score (achievements (sd w)) in
  let old_level := level (sd w) in
  '(lv, info) ← level_loop (S (size (achievement_level_db E)))
                           (achievement_level_db E) total 0;
  let w1 := with_sd (fun s => set_level lv (set_total_score total s)) w in
  if flag && negb (old_level =? lv) then
    w2 ← call_update_objective AG_GOAL_ACHIEVE [] w1;
    Done (info, w2)
  else Done (info, w1).

(** [achievement_update_objective] *)
Definition achievement_update_objective_body (group : e_achievement_group)
    (args : list Z) (w : world) : result world :=
  if negb (feature_achievement E) then Done w
  else if decide (length args ≤ MAX_ACHIEVEMENT_OBJECTIVES)%nat then
    let update_count := event_counts args in
    let w1 := with_sd (set_arg_regs args) w in
    w2 ← match group with
         | AG_CHAT => Done w1
         | _ =>
             for_each (fun ad w =>
                         '(_, w') ← call_update_objectives ad group update_count w;
                         Done w')
                      (achievement_db E) w1
         end;
    Done (with_sd (clear_arg_regs args) w2)
  else Fault.

(** [memcpy(entry->count, current_count.data(), sizeof(current_count))] *)
Definition store_counts (index : nat) (current_count : list Z) (w : world) : world :=
  with_sd (fun s =>
             set_achievements (alter (set_count current_count) index (achievements s)) s) w.

(** [achievement_update_objectives] *)
Definition achievement_update_objectives_body (ad : s_achievement_db)
    (group : e_achievement_group) (update_count : list Z) (w : world)
    : result (bool * world) :=
  if decide (group = AG_NONE ∨ group = AG_MAX) then Done (false, w)
  else if decide (group ≠ db_group ad) then Done (false, w)
  else
    let s := sd w in
    let id := db_achievement_id ad in
    let i := ARR_FIND 0 (length (achievements s)) (has_id id) (achievements s) in
    (* [entry] (absent when [isNew]) and [current_count] after the lookup *)
    let located :=
      match achievements s !! i with
      | None =>
          if negb (achievement_check_dependent E s id) then None
          else Some (None, replicate MAX_ACHIEVEMENT_OBJECTIVES 0)
      | Some entry =>
          if completed entry >? 0 then None
          else Some (Some i, count entry)
      end in
    match located with
    | None => Done (false, w)
    | Some (entry, current_count) =>
        match objectives_switch E ad group update_count current_count s with
        | None => Done (false, w)
        | Some (changed, complete, current_count) =>
            let apply_changes (index : nat) (w : world) :=
              '(_, w2) ← call_update_achievement id complete
                           (store_counts index current_count w);
              Done (true, w2) in
            match entry with
            | Some index =>
                if changed then apply_changes index w else Done (true, w)
            | None =>
                let hasCounter :=
                  complete || existsb (fun c => negb (c =? 0)) current_count in
                if hasCounter then
                  match achievement_add E id w with
                  | (None, w1) => Done (false, w1)
                  | (Some index, w1) =>
                      if changed then apply_changes index w1 else Done (true, w1)
                  end
                else Done (true, w)
            end
        end
    end.

(** [achievement_update_achievement] *)
Definition achievement_update_achievement_body (id : Z) (complete : bool) (w : world)
    : result (bool * world) :=
  match db_find (achievement_db E) id with
  | None => Done (false, w)
  | Some adb =>
      let s := sd w in
      let i := ARR_FIND 0 (incompleteCount s) (has_id id) (achievements s) in
      if decide (i = incompleteCount s) then Done (false, w)
      else
        match achievements s !! i with
        | None => Fault
        | Some a =>
            if completed a >? 0 then Done (false, w)
            else if complete then
              w1 ← mark_completed E adb i a w;
              '(_, w2) ← call_level true w1;
              w3 ← for_each (fun ach w =>
                               '(_, w') ← call_check_groups ach w;
                               Done w')
                            (achievement_db E) w2;
              let s3 := sd w3 in
              let j := ARR_FIND (incompleteCount s3) (length (achievements s3))
                                (has_id id) (achievements s3) in
              match achievements s3 !! j with
              | None => Fault
              | Some a' => Done (true, notify_update a' w3)
              end
            else Done (true, notify_update a w)
        end
  end.

(** [achievement_check_groups] *)
Definition achievement_check_groups_body (ad : s_achievement_db) (w : world)
    : result (Z * world) :=
  if negb (bool_decide (db_group ad = AG_BATTLE ∨ db_group ad = AG_TAMING
                        ∨ db_group ad = AG_ADVENTURE))
  then Done (0, w)
  else if bool_decide (db_dependent_ids ad = []) || bool_decide (is_Some (db_condition ad))
  then Done (0, w)
  else
    let s := sd w in
    let id := db_achievement_id ad in
    let i := ARR_FIND 0 (length (achievements s)) (has_id id) (achievements s) in
    if decide (i = length (achievements s)) then
      if achievement_check_dependent E s id then
        let '(_, w1) := achievement_add E id w in
        '(_, w2) ← call_update_achievement id true w1;
        Done (1, w2)
      else Done (1, w)
    else Done (1, w).

End bodies.

Fixpoint achievement_level (E : env) (fuel : nat) {struct fuel}
    : bool → world → result ((Z * Z) * world) :=
  match fuel with
  | O => fun _ _ => OutOfFuel
  | S f => achievement_level_body E (achievement_update_objective E f)
  end

with achievement_update_objective (E : env) (fuel : nat) {struct fuel}
    : e_achievement_group → list Z → world → result world :=
  match fuel with
  | O => fun _ _ _ => OutOfFuel
  | S f => achievement_update_objective_body E (achievement_update_objectives E f)
  end

with achievement_update_objectives (E : env) (fuel : nat) {struct fuel}
    : s_achievement_db → e_achievement_group → list Z → world → result (bool * world) :=
  match fuel with
  | O => fun _ _ _ _ => OutOfFuel
  | S f => achievement_update_objectives_body E (achievement_update_achievement E f)
  end

with achievement_update_achievement (E : env) (fuel : nat) {struct fuel}
    : Z → bool → world → result (bool * world) :=
  match fuel with
  | O => fun _ _ _ => OutOfFuel
  | S f => achievement_update_achievement_body E (achievement_level E f)
             (achievement_check_groups E f)
  end

with achievement_check_groups (E : env) (fuel : nat) {struct fuel}
    : s_achievement_db → world → result (Z * world) :=
  match fuel with
  | O => fun _ _ => OutOfFuel
  | S f => achievement_check_groups_body E (achievement_update_achievement E f)
  end.

(** * Specification vocabulary *)

(** The entry a full-range [ARR_FIND] lands on: the first one with the id. *)
Definition log_lookup (s : map_session_data) (id : Z) : option achievement :=
  List.find (has_id id) (achievements s).


(** The outcome of the level walk, read off the table: the walk stops at a
    defined level whose threshold the total does not exceed ... *)
Definition stops_at (db : gmap Z Z) (total lv left right : Z) : Prop :=
  ∃ points, db !! lv = Some points ∧ total ≤ points ∧
    if lv =? 0 then left = total ∧ right = points
    else ∃ previous, db !! (lv - 1) = Some previous
                     ∧ left = total - previous ∧ right = points - previous.

(** ... or it runs off the table, one past the last defined level. *)
Definition runs_off (db : gmap Z Z) (total lv left right : Z) : Prop :=
  db !! lv = None ∧
  ∃ last, db !! (lv - 1) = Some last ∧ last < total
          ∧ left = total - last ∧ right = 0.

(** Every level below [lv] was passed because the total exceeds its
    threshold. *)
Definition passed_below (db : gmap Z Z) (total lv : Z) : Prop :=
  ∀ l, 0 ≤ l < lv → ∃ points, db !! l = Some points ∧ points < total.

(** The level walk of [achievement_level] as a function of the total score. *)
Definition level_of (db : gmap Z Z) (total : Z) : result (Z * (Z * Z)) :=
  level_loop (S (size db)) db total 0.

(** The full scan behind [achievement_level] pays three calls: the event, the
    catalog scan, and one entry's update. *)
Definition level_fuel : nat := 3.

(** What [achievement_level] comes down to: recount the score, walk the
    table, store both results. *)
Definition level_update (E : env) (w : world) : result ((Z * Z) * world) :=
  let total := recount_score (achievements (sd w)) in
  '(lv, info) ← level_of (achievement_level_db E) total;
  Done (info, with_sd (fun s => set_level lv (set_total_score total s)) w).


(** What the level gauge shows: within a defined level the progress does not
    exceed the span of the level and fills it exactly when the total sits on
    the level's threshold; past the last defined level the span is 0 and the
    progress is positive. *)
Definition gauge (db : gmap Z Z) (total lv left right : Z) : Prop :=
  match db !! lv with
  | Some points => left ≤ right ∧ (left = right ↔ total = points)
  | None => right = 0 ∧ 0 < left
  end.

(** The gauge reading "strictly below the span, or both zero". *)
Definition strict_gauge (left right : Z) : Prop :=
  left < right ∨ (left = 0 ∧ right = 0).

(** ** Sample data *)

Definition no_reward : ach_reward := mk_reward 0 0 None 0.

(** Level 0 needs 100 points, level 1 needs 300. *)
Definition two_levels : gmap Z Z := {[ 0 := 100; 1 := 300 ]}.

Definition sample_env (db : list s_achievement_db) : env :=
  mk_env db two_levels true (fun _ _ => 1) (fun n => 1000 + Z.of_nat n) (fun _ _ => true).

Definition new_player : world := mk_world (mk_sd [] 0 0 0 false [] ∅) [] 0 [].

Definition player_with (l : list achievement) (incomplete : nat) (total lv : Z) : world :=
  mk_world (mk_sd l incomplete total lv false [] ∅) [] 0 [].

Definition zeros : list Z := replicate MAX_ACHIEVEMENT_OBJECTIVES 0.

(** The four grounds for refusing a reward claim: unknown achievement, no log
    entry, completion time 0, reward already claimed, which the code reads off
    a positive reward time. *)
Definition claim_refused (E : env) (s : map_session_data) (id : Z) : Prop :=
  db_find (achievement_db E) id = None
  ∨ log_lookup s id = None
  ∨ ∃ a, log_lookup s id = Some a ∧ (completed a = 0 ∨ 0 < rewarded a).

(** The request to the inter-server authority could not be sent. *)
Definition request_unsent (E : env) (s : map_session_data) (id : Z) : Prop :=
  ∃ adb, db_find (achievement_db E) id = Some adb
         ∧ intif_achievement_reward E s adb = false.

(** The world after a denial: one [clif_achievement_reward_ack(fd, 0, id)]. *)
Definition denied (id : Z) (w : world) : world :=
  emit (clif_achievement_reward_ack 0 id) w.

Definition kill_1002 : s_achievement_db :=
  mk_adb 7 AG_BATTLE [(0%nat, mk_target 1002 3)] [] None no_reward 10.

(** [sample_env] with the inter-server link down. *)
Definition offline_env (db : list s_achievement_db) : env :=
  mk_env db two_levels true (fun _ _ => 1) (fun n => 1000 + Z.of_nat n) (fun _ _ => false).

(** ** Well-formed logs *)

(** Entries below the boundary are not completed, entries from the boundary
    on carry a completion time. *)
Definition partitioned (s : map_session_data) : Prop :=
  ∀ j a, achievements s !! j = Some a →
    ((j < incompleteCount s)%nat → completed a = 0)
    ∧ ((incompleteCount s ≤ j)%nat → 0 < completed a).

(** The invariant of a player's log as the operations maintain it. *)
Definition log_ok (s : map_session_data) : Prop :=
  (incompleteCount s ≤ length (achievements s))%nat
  ∧ partitioned s
  ∧ NoDup (achievement_id <$> achievements s).

(** The partition invariant in the words of the specification: the entries
    at [[0, incompleteCount)] are exactly those with completion time 0, the
    entries at [[incompleteCount, count)] exactly those with a nonzero one,
    and no id occurs twice. *)
Definition partition_invariant (s : map_session_data) : Prop :=
  (incompleteCount s ≤ length (achievements s))%nat
  ∧ (∀ j a, achievements s !! j = Some a →
       ((j < incompleteCount s)%nat ↔ completed a = 0)
       ∧ ((incompleteCount s ≤ j)%nat ↔ completed a ≠ 0))
  ∧ NoDup (achievement_id <$> achievements s).

(** Every reading of the clock is a positive time. *)
Definition clock_positive (E : env) : Prop := ∀ n, 0 < time E n.

(** The number of catalog entries the player has no log entry for.  Every
    nested completion inserts one of them, which bounds the depth of the
    calls. *)
Definition absent (E : env) (s : map_session_data) : nat :=
  length (filter (fun ad => log_lookup s (db_achievement_id ad) = None) (achievement_db E)).

(** Fuel that suffices for any call of the core. *)
Definition core_fuel (E : env) : nat := 2 * length (achievement_db E) + 6.

(** ** Sequences of operations on a player *)

Inductive operation : Type :=
| op_add (id : Z)
| op_remove (id : Z)
| op_update (id : Z) (complete : bool)
| op_event (group : e_achievement_group) (args : list Z).

Definition run_operation (E : env) (fuel : nat) (op : operation) (w : world)
    : result world :=
  match op with
  | op_add id => Done (achievement_add E id w).2
  | op_remove id => Done (achievement_remove E id w).2
  | op_update id complete =>
      '(_, w') ← achievement_update_achievement E fuel id complete w; Done w'
  | op_event group args => achievement_update_objective E fuel group args w
  end.

Fixpoint run_operations (E : env) (fuel : nat) (ops : list operation) (w : world)
    : result world :=
  match ops with
  | [] => Done w
  | op :: ops' => w' ← run_operation E fuel op w; run_operations E fuel ops' w'
  end.

(** An event carries at most [MAX_ACHIEVEMENT_OBJECTIVES] arguments. *)
Definition admissible (op : operation) : Prop :=
  match op with
  | op_event _ args => (length args ≤ MAX_ACHIEVEMENT_OBJECTIVES)%nat
  | _ => True
  end.

(** A dependent achievement with nothing else to do. *)
Definition after_kill : s_achievement_db :=
  mk_adb 8 AG_ADVENTURE [] [7] None no_reward 20.

(** ** Dependency gating *)

(** An entry of the [created] history is gated: when the id was inserted the
    player had no entry for it and [achievement_check_dependent] held. *)
Definition gated (E : env) (entry : Z * map_session_data) : Prop :=
  log_lookup entry.2 entry.1 = None
  ∧ achievement_check_dependent E entry.2 entry.1 = true.

(** Every prerequisite of [id] has an entry with a nonzero completion time. *)
Definition dependents_completed (E : env) (s : map_session_data) (id : Z) : Prop :=
  ∃ adb, db_find (achievement_db E) id = Some adb
    ∧ ∀ dep, dep ∈ db_dependent_ids adb →
        ∃ a, a ∈ achievements s ∧ achievement_id a = dep ∧ completed a ≠ 0.

(** ** Score consistency *)

(** What one entry contributes to the total score. *)
Definition gain (a : achievement) : Z := if completed a >? 0 then score a else 0.

(** The cached total is the recounted one. *)
Definition score_consistent (s : map_session_data) : Prop :=
  total_score s = recount_score (achievements s).

(** The sum of the scores of the entries with a nonzero completion time. *)
Definition completed_score (l : list achievement) : Z :=
  foldr Z.add 0 (score <$> filter (fun a => completed a ≠ 0) l).

(** The insertions made since [w0] are all gated, and they account for every
    id that was not in the log of [w0]. *)
Definition gated_since (E : env) (w0 w : world) : Prop :=
  ∃ new, created w = new ++ created w0
    ∧ Forall (gated E) new
    ∧ ∀ id, id ∈ achievement_id <$> achievements (sd w) →
            id ∈ achievement_id <$> achievements (sd w0) ∨ id ∈ new.*1.

(** ** The effect of an objective update on the entry of its achievement *)

(** The entry [achievement_add] creates for a catalog entry. *)
Definition fresh_entry (ad : s_achievement_db) : achievement :=
  mk_achievement (db_achievement_id ad) zeros 0 0 (db_score ad).

(** The entry an update starts from: the player's, or a fresh one. *)
Definition current_entry (ad : s_achievement_db) (s : map_session_data) : achievement :=
  match log_lookup s (db_achievement_id ad) with
  | Some e => e
  | None => fresh_entry ad
  end.

(** The update goes ahead: the entry is not completed, or there is none and
    the dependents are complete. *)
Definition open_for (E : env) (ad : s_achievement_db) (s : map_session_data) : Prop :=
  match log_lookup s (db_achievement_id ad) with
  | Some e => completed e = 0
  | None => achievement_check_dependent E s (db_achievement_id ad) = true
  end.

(** The entry once the counters [cur] are stored and, if [complete], the
    achievement is completed at the next clock reading of [w]. *)
Definition entry_after (E : env) (ad : s_achievement_db) (w : world) (e : achievement)
    (cur : list Z) (complete : bool) : achievement :=
  if complete
  then set_completed (time E (clock w))
         (set_count (fill_targets (db_targets ad) cur) e)
  else set_count cur e.

(** Slot indices are those of the counter array and occur once. *)
Definition targets_ok (targets : list (nat * achievement_target)) : Prop :=
  NoDup targets.*1 ∧ Forall (fun kt => (kt.1 < MAX_ACHIEVEMENT_OBJECTIVES)%nat) targets.

(** The shape shared by the loops over the targets: visit the targets in
    order; where [hit] holds of the target and its counter, replace the
    counter by [new] and raise the flag. *)
Definition slot_fold (hit : achievement_target → Z → bool)
    (new : nat → achievement_target → Z → Z)
    (targets : list (nat * achievement_target)) (st : list Z * bool) : list Z * bool :=
  fold_left (fun st kt =>
               if hit kt.2 (at_slot st.1 kt.1)
               then (<[kt.1 := new kt.1 kt.2 (at_slot st.1 kt.1)]> st.1, true)
               else st) targets st.

(** A kill or taming of [mob] counts for a target: it is the target's monster
    and the counter [c] is below the required count. *)
Definition counts_for (mob : Z) (t : achievement_target) (c : Z) : Prop :=
  target_mob t = mob ∧ c < target_count t.

#[global] Instance counts_for_dec mob t c : Decision (counts_for mob t c).
Proof. unfold counts_for. apply _. Defined.

(** Spend 1000 zeny in all; the guard is script 0. *)
Definition spend_1000 : s_achievement_db :=
  mk_adb 9 AG_SPEND_ZENY [(0%nat, mk_target 0 1000)] [] (Some 0%nat) no_reward 5.

(** * Further code of achievement.cpp *)

(** The number the client is told with every update: the size of the
    completed block, [count - incompleteCount]. *)
Definition completed_count (s : map_session_data) : Z :=
  Z.of_nat (length (achievements s)) - Z.of_nat (incompleteCount s).

(** What [achievement_check_groups] looks for: an achievement of a battle,
    taming or adventure group with prerequisites and without a guard, that the
    player has no entry for and whose prerequisites are all complete. *)
Definition unlockable (E : env) (ad : s_achievement_db) (s : map_session_data) : Prop :=
  (db_group ad = AG_BATTLE ∨ db_group ad = AG_TAMING ∨ db_group ad = AG_ADVENTURE)
  ∧ db_dependent_ids ad ≠ []
  ∧ db_condition ad = None
  ∧ log_lookup s (db_achievement_id ad) = None
  ∧ achievement_check_dependent E s (db_achievement_id ad) = true.

(** An approval is acted on: the id is in the catalog, the reward time is
    nonzero and the player has an entry. *)
Definition grant_applies (E : env) (s : map_session_data) (id t : Z) : Prop :=
  is_Some (db_find (achievement_db E) id) ∧ t ≠ 0 ∧ is_Some (log_lookup s id).

(** The reward scripts run so far, most recent first: the [run_script] calls
    of [achievement_get_reward].  The evaluation of a guard is the reading
    [script_value] and leaves no trace. *)
Definition scripts_run (w : world) : list (option script_code) :=
  omap (fun e => match e with run_script c => Some c | _ => None end) (out w).

(** The title a reward carries, if any. *)
Definition reward_title (adb : s_achievement_db) : list Z :=
  if title_id (db_rewards adb) =? 0 then [] else [title_id (db_rewards adb)].

(** The title an entry entitles to: the achievement is in the catalog, its
    reward has a title and the entry is completed. *)
Definition earned_title (E : env) (a : achievement) (t : Z) : Prop :=
  ∃ adb, db_find (achievement_db E) (achievement_id a) = Some adb
         ∧ title_id (db_rewards adb) = t ∧ t ≠ 0 ∧ 0 < completed a.

(** The groups whose rule is the guard alone. *)
Definition condition_only (g : e_achievement_group) : bool :=
  match g with
  | AG_ADD_FRIEND | AG_BABY | AG_CHAT_COUNT | AG_CHAT_CREATE | AG_CHAT_DYING
  | AG_GET_ITEM | AG_GET_ZENY | AG_GOAL_LEVEL | AG_GOAL_STATUS | AG_JOB_CHANGE
  | AG_MARRY | AG_PARTY | AG_REFINE_FAIL | AG_REFINE_SUCCESS => true
  | _ => false
  end.

(** The achievement has a guard and it evaluates to a nonzero value. *)
Definition guard_holds (E : env) (ad : s_achievement_db) (s : map_session_data) : Prop :=
  ∃ code, db_condition ad = Some code ∧ script_value E code s ≠ 0.

(** The groups for which [achievement_update_objectives] has no case, and
    the two bounds of the enumeration. *)
Definition without_rule (g : e_achievement_group) : bool :=
  match g with
  | AG_NONE | AG_MAX | AG_CHAT | AG_ADVENTURE | AG_GOAL_ACHIEVE => true
  | _ => false
  end.

(** Get married; the guard is script 0. *)
Definition marry_once : s_achievement_db :=
  mk_adb 11 AG_MARRY [] [] (Some 0%nat) no_reward 10.

(** The one message the core sends: an achievement update. *)
Definition is_update (e : effect) : Prop :=
  match e with clif_achievement_update _ _ => True | _ => False end.

(** Since [w0] only achievement updates were sent. *)
Definition only_updates_since (w0 w : world) : Prop :=
  ∃ new, out w = new ++ out w0 ∧ Forall is_update new.

(** No reward time was changed since the log [l0]: every entry of [l0] is
    still there with its reward time, and an entry of [l] carries the reward
    time an entry of its achievement had in [l0], or it is new, of an
    achievement without an entry in [l0], and its reward time is 0. *)
Definition rewards_as_in (l0 l : list achievement) : Prop :=
  (∀ a0, a0 ∈ l0 →
     ∃ a, a ∈ l ∧ achievement_id a = achievement_id a0 ∧ rewarded a = rewarded a0)
  ∧ (∀ a, a ∈ l →
       (∃ a0, a0 ∈ l0 ∧ achievement_id a0 = achievement_id a ∧ rewarded a0 = rewarded a)
       ∨ (rewarded a = 0 ∧ achievement_id a ∉ achievement_id <$> l0)).

(** What the core leaves alone, from [w0] on: the titles, the reward times,
    and every channel but the achievement update. *)
Definition nothing_granted_since (w0 w : world) : Prop :=
  titles (sd w) = titles (sd w0)
  ∧ only_updates_since w0 w
  ∧ rewards_as_in (achievements (sd w0)) (achievements (sd w)).

(** ** Reading the catalog *)

(** The inner loop of [achievement_read_db],
    [for (i = 0; i < ids.size(); i++) if (!exists(ids[i])) ids.erase(begin + i)],
    from index [i] on: an erase shifts the rest down by one and the index
    still moves on.  [n] bounds the iterations left. *)
Fixpoint erase_unknown_from (n : nat) (known : Z → bool) (i : nat) (ids : list Z)
    : list Z :=
  match n with
  | O => ids
  | S n' =>
      match ids !! i with
      | None => ids
      | Some d => erase_unknown_from n' known (S i) (if known d then ids else delete i ids)
      end
  end.

(** The whole loop; the index passes the end after at most [length ids]
    iterations. *)
Definition erase_unknown (known : Z → bool) (ids : list Z) : list Z :=
  erase_unknown_from (length ids) known 0 ids.

(** [achievement_read_db] on the catalog that [achievement_db.load()] has
    produced: the dependent ids of every achievement go through the loop,
    tested against the ids of the loaded catalog. *)
Definition achievement_read_db (loaded : list s_achievement_db) : list s_achievement_db :=
  (fun ach =>
     mk_adb (db_achievement_id ach) (db_group ach) (db_targets ach)
       (erase_unknown (db_exists loaded) (db_dependent_ids ach))
       (db_condition ach) (db_rewards ach) (db_score ach)) <$> loaded.

(** What the loop keeps: a known id, and whatever follows an erased id. *)
Fixpoint kept_ids (known : Z → bool) (ids : list Z) : list Z :=
  match ids with
  | [] => []
  | d :: rest =>
      if known d then d :: kept_ids known rest
      else match rest with
           | [] => []
           | d' :: rest' => d' :: kept_ids known rest'
           end
  end.

(** No unknown id directly follows another one. *)
Definition unknown_apart (known : Z → bool) (ids : list Z) : Prop :=
  ∀ i d d', ids !! i = Some d → ids !! S i = Some d' →
            known d = true ∨ known d' = true.

(** Every entry of the log belongs to an achievement of the catalog. *)
Definition log_within_catalog (E : env) (s : map_session_data) : Prop :=
  ∀ a, a ∈ achievements s → is_Some (db_find (achievement_db E) (achievement_id a)).

(** An achievement that depends on ids 98 and 99, neither of which exists. *)
Definition dangling : s_achievement_db :=
  mk_adb 12 AG_BATTLE [(0%nat, mk_target 1002 1)] [98; 99] None no_reward 10.

(** The cached level is the level of the cached total. *)
Definition level_consistent (E : env) (s : map_session_data) : Prop :=
  ∃ info, level_of (achievement_level_db E) (total_score s) = Done (level s, info).

(** [r'] is [r] with possibly more fuel: where [r] has an outcome, [r'] has
    the same one. *)
Definition settles_as {A : Type} (r r' : result A) : Prop := r = OutOfFuel ∨ r' = r.
(** * Properties *)

(** ** Searching the log *)

Section arr_find.
Context (cmp : achievement → bool).

Lemma arr_find_from_spec l n var :
  let r := arr_find_from n var cmp l in
  (var ≤ r ≤ var + n)%nat
  ∧ (∀ j a, (var ≤ j < r)%nat → l !! j = Some a → cmp a = false)
  ∧ ((r < var + n)%nat → ∃ a, l !! r = Some a ∧ cmp a = true).
Proof.
  revert var. induction n as [|n IH]; intros var; simpl.
  - split; [lia|]. split; intros; lia.
  - destruct (IH (S var)) as (Hr & Hbefore & Hat).
    assert (∀ j b, (var ≤ j < arr_find_from n (S var) cmp l)%nat →
                   (∀ a, l !! var = Some a → cmp a = false) →
                   l !! j = Some b → cmp b = false) as Hskip.
    { intros j b Hj Hvar Hb. destruct (decide (j = var)) as [->|]; [eauto|].
      apply (Hbefore j); [lia | done]. }
    destruct (l !! var) as [a|] eqn:Hv; [destruct (cmp a) eqn:Hc|].
    + split; [lia|]. split; [intros; lia | eauto].
    + split; [lia|]. split; [|intros; apply Hat; lia].
      intros j b Hj Hb. eapply Hskip; eauto. congruence.
    + split; [lia|]. split; [|intros; apply Hat; lia].
      intros j b Hj Hb. eapply Hskip; eauto. congruence.
Qed.

Lemma ARR_FIND_spec l start end_ :
  (start ≤ end_)%nat →
  let r := ARR_FIND start end_ cmp l in
  (start ≤ r ≤ end_)%nat
  ∧ (∀ j a, (start ≤ j < r)%nat → l !! j = Some a → cmp a = false)
  ∧ ((r < end_)%nat → ∃ a, l !! r = Some a ∧ cmp a = true).
Proof.
  intros Hle. unfold ARR_FIND.
  destruct (arr_find_from_spec l (end_ - start) start) as (H1 & H2 & H3).
  simpl. split; [lia|]. split; [done|]. intros. apply H3. lia.
Qed.

Lemma arr_find_from_cons a l n var :
  arr_find_from n (S var) cmp (a :: l) = S (arr_find_from n var cmp l).
Proof.
  revert var. induction n as [|n IH]; intros var; simpl; [done|].
  destruct (l !! var) as [b|]; [destruct (cmp b)|]; auto.
Qed.

Lemma ARR_FIND_find l : l !! ARR_FIND 0 (length l) cmp l = List.find cmp l.
Proof.
  unfold ARR_FIND. rewrite Nat.sub_0_r.
  induction l as [|a l IH]; simpl; [done|].
  destruct (cmp a); [done|]. by rewrite arr_find_from_cons.
Qed.

Lemma ARR_FIND_full_le l : (ARR_FIND 0 (length l) cmp l ≤ length l)%nat.
Proof. destruct (ARR_FIND_spec l 0 (length l)) as [? _]; lia. Qed.

(** The search misses exactly when no entry passes the test. *)
Lemma ARR_FIND_miss l :
  ARR_FIND 0 (length l) cmp l = length l ↔ List.find cmp l = None.
Proof.
  rewrite <- ARR_FIND_find. split.
  - intros ->. apply lookup_ge_None. lia.
  - intros H%lookup_ge_None. pose proof (ARR_FIND_full_le l). lia.
Qed.

(** An entry passing the test somewhere in [[start, end_)] makes the search
    stop inside the range. *)
Lemma ARR_FIND_hit l start end_ j a :
  (start ≤ j < end_)%nat → l !! j = Some a → cmp a = true →
  ∃ b, l !! ARR_FIND start end_ cmp l = Some b ∧ cmp b = true
       ∧ (ARR_FIND start end_ cmp l < end_)%nat.
Proof.
  intros Hj Ha Hc.
  destruct (ARR_FIND_spec l start end_) as (Hr & Hbefore & Hat); [lia|].
  destruct (decide (ARR_FIND start end_ cmp l < end_)%nat) as [Hlt|Hge].
  - destruct (Hat Hlt) as (b & ? & ?). eauto.
  - rewrite (Hbefore j a) in Hc; [done| lia | done].
Qed.
End arr_find.

Lemma find_has_id id l a :
  List.find (has_id id) l = Some a → a ∈ l ∧ achievement_id a = id.
Proof.
  intros H. apply find_some in H as [Hin Hid].
  split; [by apply list_elem_of_In | by apply Z.eqb_eq].
Qed.

Lemma find_has_id_None id l :
  List.find (has_id id) l = None ↔ id ∉ achievement_id <$> l.
Proof.
  split.
  - intros H Hin. apply list_elem_of_fmap in Hin as (a & -> & Ha).
    apply list_elem_of_In in Ha.
    pose proof (find_none _ _ H a Ha) as Hf. unfold has_id in Hf. lia.
  - intros Hn. destruct (List.find (has_id id) l) as [a|] eqn:Hf; [|done].
    apply find_has_id in Hf as [Hin <-]. exfalso. apply Hn.
    apply list_elem_of_fmap. eauto.
Qed.

(** With pairwise distinct ids, the entry found for an id is the entry with
    that id. *)
Lemma find_has_id_unique l a :
  NoDup (achievement_id <$> l) → a ∈ l →
  List.find (has_id (achievement_id a)) l = Some a.
Proof.
  induction l as [|b l IH]; intros Hnd Hin; [by apply elem_of_nil in Hin|].
  rewrite fmap_cons in Hnd. apply NoDup_cons in Hnd as [Hb Hnd].
  simpl. unfold has_id at 1. destruct (Z.eqb_spec (achievement_id b) (achievement_id a)) as [Heq|Hne].
  - apply elem_of_cons in Hin as [->|Hin]; [done|].
    exfalso. apply Hb. rewrite Heq. apply list_elem_of_fmap. eauto.
  - apply elem_of_cons in Hin as [->|Hin]; [done|]. by apply IH.
Qed.

(** ** The level walk *)

Section level_walk.
Context (db : gmap Z Z) (total : Z).

Lemma level_loop_sound n lv0 lv left right :
  level_loop n db total lv0 = Done (lv, (left, right)) →
  lv0 ≤ lv
  ∧ (∀ l, lv0 ≤ l < lv → ∃ points, db !! l = Some points ∧ points < total)
  ∧ (stops_at db total lv left right ∨ runs_off db total lv left right).
Proof.
  revert lv0. induction n as [|n IH]; intros lv0; simpl; [done|].
  destruct (db !! lv0) as [points|] eqn:Hlv; [|done].
  destruct (Z.gtb_spec total points) as [Hgt|Hle].
  - destruct (db !! (lv0 + 1)) as [next|] eqn:Hnext.
    + intros H. apply IH in H as (Hge & Hpassed & Hend).
      split; [lia|]. split; [|done].
      intros l Hl. destruct (decide (l = lv0)) as [->|]; [eauto with lia|].
      apply Hpassed. lia.
    + intros [= <- <- <-]. split; [lia|]. split.
      * intros l Hl. assert (l = lv0) as -> by lia. eauto with lia.
      * right. split; [done|]. exists points.
        replace (lv0 + 1 - 1) with lv0 by lia. auto with lia.
  - destruct (Z.eqb_spec lv0 0) as [->|Hnz].
    + intros [= <- <- <-]. split; [lia|]. split; [intros; lia|].
      left. exists points. simpl. auto.
    + destruct (db !! (lv0 - 1)) as [previous|] eqn:Hprev; [|done].
      intros [= <- <- <-]. split; [lia|]. split; [intros; lia|].
      left. exists points. split; [done|]. split; [done|].
      destruct (Z.eqb_spec lv0 0); [done|]. eauto.
Qed.

(** A table defined on all of [0..lv] has more than [lv] entries. *)
Lemma dense_prefix_size lv :
  0 ≤ lv → (∀ l, 0 ≤ l ≤ lv → is_Some (db !! l)) → (Z.to_nat lv < size db)%nat.
Proof.
  intros Hlv Hdense.
  assert (list_to_set (seqZ 0 (lv + 1)) ⊆ dom db) as Hsub.
  { intros l Hl. apply elem_of_list_to_set, elem_of_seqZ in Hl.
    apply elem_of_dom, Hdense. lia. }
  apply subseteq_size in Hsub.
  rewrite size_list_to_set in Hsub by apply NoDup_seqZ.
  rewrite length_seqZ, size_dom in Hsub. lia.
Qed.

Lemma level_loop_total n lv0 :
  0 ≤ lv0 → (∀ l, 0 ≤ l ≤ lv0 → is_Some (db !! l)) →
  (size db < n + Z.to_nat lv0)%nat →
  ∃ r, level_loop n db total lv0 = Done r.
Proof.
  revert lv0. induction n as [|n IH]; intros lv0 Hlv0 Hdense Hn.
  - pose proof (dense_prefix_size lv0 Hlv0 Hdense). lia.
  - simpl. destruct (Hdense lv0) as [points ->]; [lia|].
    destruct (total >? points).
    + destruct (db !! (lv0 + 1)) as [next|] eqn:Hnext; [|eauto].
      apply IH; [lia| |lia].
      intros l Hl. destruct (decide (l = lv0 + 1)) as [->|]; [eauto|].
      apply Hdense. lia.
    + destruct (Z.eqb_spec lv0 0); [eauto|].
      destruct (Hdense (lv0 - 1)) as [previous ->]; [lia|]. eauto.
Qed.

Lemma level_of_total :
  is_Some (db !! 0) → ∃ r, level_of db total = Done r.
Proof.
  intros H0. apply level_loop_total; [lia| |lia].
  intros l Hl. by assert (l = 0) as -> by lia.
Qed.

Lemma level_of_sound lv left right :
  level_of db total = Done (lv, (left, right)) →
  0 ≤ lv ∧ passed_below db total lv
  ∧ (stops_at db total lv left right ∨ runs_off db total lv left right).
Proof. apply level_loop_sound. Qed.

End level_walk.

Lemma level_of_mono db s1 s2 lv1 lv2 i1 i2 :
  s1 ≤ s2 → level_of db s1 = Done (lv1, i1) → level_of db s2 = Done (lv2, i2) →
  lv1 ≤ lv2.
Proof.
  intros Hs H1 H2. destruct i1 as [l1 r1], i2 as [l2 r2].
  apply level_of_sound in H1 as (Hlv1 & Hp1 & _).
  apply level_of_sound in H2 as (Hlv2 & _ & Hend2).
  destruct (decide (lv1 ≤ lv2)) as [|Hlt]; [done|]. exfalso.
  destruct (Hp1 lv2) as (points & Hpt & Hlt1); [lia|].
  destruct Hend2 as [(p & Hp & Hle & _)|[Hnone _]]; simplify_eq; lia.
Qed.

(** ** Plumbing *)

Lemma bind_Done {A B} (m : result A) (k : A → result B) r :
  m ≫= k = Done r → ∃ a, m = Done a ∧ k a = Done r.
Proof. destruct m; simpl; eauto; done. Qed.

Ltac inv_bind H :=
  let a := fresh "a" in
  let Hm := fresh "Hm" in
  apply bind_Done in H; destruct H as (a & Hm & H).

Lemma with_sd_same w : with_sd (fun s => s) w = w.
Proof. by destruct w. Qed.

Lemma set_regs_same s : set_regs (regs s) s = s.
Proof. by destruct s. Qed.

Lemma set_arg_regs_only args s :
  set_arg_regs args s = set_regs (regs (set_arg_regs args s)) s.
Proof.
  unfold set_arg_regs. generalize (imap (λ (i : nat) (v : Z), (i, v)) args).
  intros l. revert s. induction l as [|[i v] l IH]; intros s; simpl.
  - by rewrite set_regs_same.
  - rewrite IH at 1. by destruct s.
Qed.

Lemma clear_arg_regs_only args s :
  clear_arg_regs args s = set_regs (regs (clear_arg_regs args s)) s.
Proof.
  unfold clear_arg_regs. generalize (imap (λ (i : nat) (v : Z), (i, v)) args).
  intros l. revert s. induction l as [|[i v] l IH]; intros s; simpl.
  - by rewrite set_regs_same.
  - rewrite IH at 1. by destruct s.
Qed.

Lemma for_each_inv {A} (P : world → Prop) (f : A → world → result world) l :
  (∀ a w w', P w → f a w = Done w' → P w') →
  ∀ w w', P w → for_each f l w = Done w' → P w'.
Proof.
  intros Hf. induction l as [|a l IH]; intros w w' HP H; simpl in H.
  - by injection H as <-.
  - inv_bind H. eauto.
Qed.

(** What a successful [achievement_add] did. *)
Lemma achievement_add_Some E id w i w' :
  achievement_add E id w = (Some i, w') →
  ∃ adb, db_find (achievement_db E) id = Some adb
    ∧ log_lookup (sd w) id = None
    ∧ i = incompleteCount (sd w)
    ∧ let fresh := mk_achievement id (count zero_achievement) 0 0 (db_score adb) in
      let l' := take i (achievements (sd w)) ++ fresh :: drop i (achievements (sd w)) in
      sd w' = set_save true (set_achievements l' (set_incompleteCount (S i) (sd w)))
      ∧ out w' = clif_achievement_update fresh
                   (Z.of_nat (length l') - Z.of_nat (S i)) :: out w
      ∧ clock w' = clock w
      ∧ created w' = (id, sd w) :: created w.
Proof.
  unfold achievement_add, log_lookup.
  destruct (db_find _ id) as [adb|]; [|done].
  case_decide as Hi; [done|]. intros [= <- <-]. exists adb.
  split; [done|]. split; [|done].
  apply ARR_FIND_miss. pose proof (ARR_FIND_full_le (has_id id) (achievements (sd w))). lia.
Qed.

Lemma achievement_add_None E id w w' :
  achievement_add E id w = (None, w') → w' = w.
Proof.
  unfold achievement_add. destruct (db_find _ id); [|by intros [= <-]].
  case_decide; [by intros [= <-] | done].
Qed.

(** An absent id with a catalog entry is always inserted. *)
Lemma achievement_add_fresh E id w adb :
  db_find (achievement_db E) id = Some adb → log_lookup (sd w) id = None →
  ∃ w', achievement_add E id w = (Some (incompleteCount (sd w)), w').
Proof.
  intros Hdb Hl. unfold achievement_add. rewrite Hdb.
  apply ARR_FIND_miss in Hl. rewrite Hl. case_decide; [lia | eauto].
Qed.

(** ** One step of each function *)

Lemma achievement_level_S E f :
  achievement_level E (S f)
  = achievement_level_body E (achievement_update_objective E f).
Proof. reflexivity. Qed.

Lemma achievement_update_objective_S E f :
  achievement_update_objective E (S f)
  = achievement_update_objective_body E (achievement_update_objectives E f).
Proof. reflexivity. Qed.

Lemma achievement_update_objectives_S E f :
  achievement_update_objectives E (S f)
  = achievement_update_objectives_body E (achievement_update_achievement E f).
Proof. reflexivity. Qed.

Lemma achievement_update_achievement_S E f :
  achievement_update_achievement E (S f)
  = achievement_update_achievement_body E (achievement_level E f)
      (achievement_check_groups E f).
Proof. reflexivity. Qed.

Lemma achievement_check_groups_S E f :
  achievement_check_groups E (S f)
  = achievement_check_groups_body E (achievement_update_achievement E f).
Proof. reflexivity. Qed.

#[global] Arguments achievement_level : simpl never.
#[global] Arguments achievement_update_objective : simpl never.
#[global] Arguments achievement_update_objectives : simpl never.
#[global] Arguments achievement_update_achievement : simpl never.
#[global] Arguments achievement_check_groups : simpl never.

(** ** The [AG_GOAL_ACHIEVE] event raised by the level computation

    No rule of [achievement_update_objectives] handles [AG_GOAL_ACHIEVE]: the
    event scans the catalog and leaves the world as it is. *)

Lemma update_objectives_goal_achieve E call ad update_count w :
  ∃ b, achievement_update_objectives_body E call ad AG_GOAL_ACHIEVE update_count w
       = Done (b, w).
Proof.
  unfold achievement_update_objectives_body.
  repeat case_decide; eauto.
  destruct (achievements (sd w) !! _) as [entry|].
  - destruct (completed entry >? 0); simpl; eauto.
  - destruct (negb _); simpl; eauto.
Qed.

Lemma goal_achieve_scan E call c l w :
  for_each (fun ad w => '(_, w') ← achievement_update_objectives_body E call ad
                                     AG_GOAL_ACHIEVE c w;
                        Done w') l w = Done w.
Proof.
  induction l as [|ad l IH]; simpl; [done|].
  destruct (update_objectives_goal_achieve E call ad c w) as [b ->]. simpl. apply IH.
Qed.

Lemma goal_achieve_event E f w :
  achievement_update_objective E (S (S f)) AG_GOAL_ACHIEVE [] w = Done w.
Proof.
  rewrite achievement_update_objective_S, achievement_update_objectives_S.
  unfold achievement_update_objective_body.
  destruct (feature_achievement E); simpl; [|done].
  unfold set_arg_regs, clear_arg_regs. simpl. rewrite with_sd_same.
  rewrite goal_achieve_scan. simpl. by rewrite with_sd_same.
Qed.

Lemma goal_achieve_event_Done E fuel w w' :
  achievement_update_objective E fuel AG_GOAL_ACHIEVE [] w = Done w' → w' = w.
Proof.
  destruct fuel as [|[|f]]; [done| |rewrite goal_achieve_event; congruence].
  rewrite achievement_update_objective_S.
  unfold achievement_update_objective_body.
  destruct (feature_achievement E); simpl; [|congruence].
  destruct (achievement_db E); simpl; [|done].
  unfold set_arg_regs, clear_arg_regs. simpl. rewrite !with_sd_same. congruence.
Qed.

Lemma achievement_level_Done E fuel flag w r :
  achievement_level E fuel flag w = Done r → level_update E w = Done r.
Proof.
  destruct fuel as [|f]; [done|]. rewrite achievement_level_S.
  unfold achievement_level_body, level_update, level_of.
  destruct (level_loop _ _ _ _) as [[lv info]| |]; simpl; [|done..].
  destruct (flag && _); [|done].
  intros H. inv_bind H. apply goal_achieve_event_Done in Hm as ->. done.
Qed.

Lemma achievement_level_enough E fuel flag w :
  (level_fuel ≤ fuel)%nat → achievement_level E fuel flag w = level_update E w.
Proof.
  unfold level_fuel. intros Hf. destruct fuel as [|[|[|f]]]; [lia..|].
  rewrite achievement_level_S.
  unfold achievement_level_body, level_update, level_of.
  destruct (level_loop _ _ _ _) as [[lv info]| |]; simpl; [|done..].
  destruct (flag && _); [|done]. by rewrite goal_achieve_event.
Qed.

Lemma level_update_total E w :
  is_Some (achievement_level_db E !! 0) →
  ∃ lv left right,
    level_of (achievement_level_db E) (recount_score (achievements (sd w)))
      = Done (lv, (left, right))
    ∧ level_update E w
      = Done ((left, right),
              with_sd (fun s => set_level lv
                         (set_total_score (recount_score (achievements (sd w))) s)) w).
Proof.
  intros H0. unfold level_update.
  destruct (level_of_total (achievement_level_db E)
              (recount_score (achievements (sd w))) H0) as [[lv [left right]] Hr].
  exists lv, left, right. by rewrite Hr.
Qed.

Lemma walk_gauge db total lv left right :
  passed_below db total lv → 0 ≤ lv →
  stops_at db total lv left right ∨ runs_off db total lv left right →
  gauge db total lv left right.
Proof.
  intros Hpassed Hlv [(points & Hp & Hle & Hval)|(Hnone & last & Hlast & Hlt & -> & ->)];
    unfold gauge.
  - rewrite Hp. destruct (Z.eqb_spec lv 0) as [->|Hnz].
    + destruct Hval as [-> ->]. lia.
    + destruct Hval as (previous & Hprev & -> & ->). lia.
  - rewrite Hnone. lia.
Qed.

(** C3.  With the table [0 -> 100, 1 -> 300], a player whose completed
    records sum to 250 gets level 1 with progress 150 of 200.  In general the
    level reached is one whose every lower level has a threshold strictly
    below the total, and when the walk stops at a defined level above 0 both
    numbers are differences to the previous level's threshold. *)
Theorem level_walk_scenario E fuel flag w :
  achievement_level_db E = two_levels →
  recount_score (achievements (sd w)) = 250 →
  (level_fuel ≤ fuel)%nat →
  (∃ w', achievement_level E fuel flag w = Done ((150, 200), w')
         ∧ level (sd w') = 1 ∧ total_score (sd w') = 250
         ∧ achievements (sd w') = achievements (sd w))
  ∧ passed_below two_levels 250 1
  ∧ stops_at two_levels 250 1 150 200
  ∧ ∀ db total lv left right,
      level_of db total = Done (lv, (left, right)) →
      passed_below db total lv
      ∧ (stops_at db total lv left right ∨ runs_off db total lv left right).
Proof.
  intros Hdb Htotal Hfuel. split; [|split; [|split]].
  - rewrite achievement_level_enough by done.
    unfold level_update. rewrite Hdb, Htotal.
    eexists. split; [vm_compute; reflexivity|]. by destruct w as [[]].
  - intros l Hl. assert (l = 0) as -> by lia. exists 100. split; [done|lia].
  - exists 300. split; [done|]. split; [lia|]. simpl. exists 100. split; [done|lia].
  - intros db total lv left right H.
    apply level_of_sound in H as (_ & ? & ?). done.
Qed.

Lemma level_walk_scenario_witness :
  ∃ w', achievement_level (sample_env []) 3 true
          (player_with [mk_achievement 1 zeros 1000 0 100;
                        mk_achievement 2 zeros 0 0 70;
                        mk_achievement 3 zeros 1001 0 150] 1 0 0)
        = Done ((150, 200), w') ∧ level (sd w') = 1.
Proof.
  destruct (level_walk_scenario (sample_env []) 3 true
              (player_with [mk_achievement 1 zeros 1000 0 100;
                            mk_achievement 2 zeros 0 0 70;
                            mk_achievement 3 zeros 1001 0 150] 1 0 0))
    as [(w' & Hrun & Hlv & _) _]; [reflexivity | reflexivity | unfold level_fuel; lia |].
  exists w'. split; assumption.
Defined.

(** C2, as the code has it.  For a table that defines level 0 the level
    recompute always answers; the level is monotone in the total score; the
    gauge satisfies [left <= right] at a defined level, with equality exactly
    on the threshold, and shows a positive progress over a span of 0 past the
    last defined level. *)
Theorem level_monotone E fuel flag1 flag2 w1 w2 :
  is_Some (achievement_level_db E !! 0) →
  (level_fuel ≤ fuel)%nat →
  recount_score (achievements (sd w1)) ≤ recount_score (achievements (sd w2)) →
  ∃ left1 right1 w1' left2 right2 w2',
    achievement_level E fuel flag1 w1 = Done ((left1, right1), w1')
    ∧ achievement_level E fuel flag2 w2 = Done ((left2, right2), w2')
    ∧ level (sd w1') ≤ level (sd w2')
    ∧ gauge (achievement_level_db E) (total_score (sd w1')) (level (sd w1')) left1 right1
    ∧ gauge (achievement_level_db E) (total_score (sd w2')) (level (sd w2')) left2 right2.
Proof.
  intros H0 Hfuel Hle. rewrite !achievement_level_enough by done.
  destruct (level_update_total E w1 H0) as (lv1 & l1 & r1 & Hw1 & ->).
  destruct (level_update_total E w2 H0) as (lv2 & l2 & r2 & Hw2 & ->).
  do 6 eexists. split; [done|]. split; [done|]. simpl.
  split; [eapply level_of_mono; eauto|].
  apply level_of_sound in Hw1 as (? & ? & ?), Hw2 as (? & ? & ?).
  split; by apply walk_gauge.
Qed.

Lemma level_monotone_witness :
  ∃ w1' w2',
    achievement_level (sample_env []) 3 true
      (player_with [mk_achievement 1 zeros 1000 0 100] 0 0 0) = Done ((100, 100), w1')
    ∧ achievement_level (sample_env []) 3 true
      (player_with [mk_achievement 1 zeros 1000 0 400] 0 0 0) = Done ((100, 0), w2')
    ∧ level (sd w1') ≤ level (sd w2').
Proof.
  destruct (level_monotone (sample_env []) 3 true true
              (player_with [mk_achievement 1 zeros 1000 0 100] 0 0 0)
              (player_with [mk_achievement 1 zeros 1000 0 400] 0 0 0))
    as (l1 & r1 & w1' & l2 & r2 & w2' & H1 & H2 & Hle & _);
    [by eexists | unfold level_fuel; lia | vm_compute; discriminate |].
  exists w1', w2'. vm_compute in H1, H2.
  injection H1 as <- <- <-. injection H2 as <- <- <-.
  split; [vm_compute; reflexivity|]. split; [vm_compute; reflexivity|]. exact Hle.
Defined.

(** C2 as stated fails: on the threshold itself the progress equals the span
    of the level. *)
Lemma level_gauge_not_strict :
  ∃ w', achievement_level (sample_env []) 3 true
          (player_with [mk_achievement 1 zeros 1000 0 100] 0 0 0)
        = Done ((100, 100), w')
      ∧ level (sd w') = 0
      ∧ achievement_level_db (sample_env []) !! 1 = Some 300
      ∧ ¬ strict_gauge 100 100.
Proof.
  eexists. split; [vm_compute; reflexivity|]. split; [reflexivity|].
  split; [reflexivity|]. unfold strict_gauge. lia.
Qed.

(** ** The progress query *)

(** C10.  The level and the total score are answered from the cached fields
    whatever the achievement id is; the answer -1 belongs to the lookup of the
    remaining types only, where it stands for an id without a log entry (or is
    the value of a counter that holds -1, or of a completion time whose
    conversion to [int] is -1). *)
Theorem check_progress_cached s id :
  achievement_check_progress s id ACHIEVEINFO_LEVEL = level s
  ∧ achievement_check_progress s id ACHIEVEINFO_SCORE = total_score s
  ∧ ∀ type, type ≠ ACHIEVEINFO_LEVEL → type ≠ ACHIEVEINFO_SCORE →
      (log_lookup s id = None → achievement_check_progress s id type = -1)
      ∧ (achievement_check_progress s id type = -1 →
         log_lookup s id = None
         ∨ ∃ a, log_lookup s id = Some a
                ∧ ((ACHIEVEINFO_COUNT1 ≤ type ≤ ACHIEVEINFO_COUNT10
                    ∧ default 0 (count a !! Z.to_nat (type - 1)) = -1)
                   ∨ (type = ACHIEVEINFO_COMPLETEDATE
                      ∧ int_of_time (completed a) = -1))).
Proof.
  split; [done|]. split; [done|]. intros type Hl Hs.
  unfold achievement_check_progress, log_lookup.
  destruct (Z.eqb_spec type ACHIEVEINFO_LEVEL); [done|].
  destruct (Z.eqb_spec type ACHIEVEINFO_SCORE); [done|].
  rewrite ARR_FIND_find. split; [by intros ->|].
  destruct (List.find _ _) as [a|]; [|by left].
  intros H. right. exists a. split; [done|].
  destruct (Z.leb_spec ACHIEVEINFO_COUNT1 type), (Z.leb_spec type ACHIEVEINFO_COUNT10);
    simpl in H; [by left| | |].
  all: destruct (Z.eqb_spec type ACHIEVEINFO_COMPLETE);
         [by destruct (completed a >? 0)|].
  all: destruct (Z.eqb_spec type ACHIEVEINFO_COMPLETEDATE); [by right|].
  all: destruct (Z.eqb_spec type ACHIEVEINFO_GOTREWARD);
         [by destruct (rewarded a >? 0) | done].
Qed.

(** ** Claiming a reward *)

(** C9, as the code has it.  [achievement_check_reward] never changes the
    player.  It answers with a denial exactly when one of the four grounds
    holds, the last one being a reward time that is positive, or the request
    to the inter-server authority cannot be sent; otherwise it sends that
    request and nothing else.  So a claim on an entry whose reward was claimed
    before is denied, and no script call is added to the trace. *)
Theorem check_reward_denial E id w :
  let w' := achievement_check_reward E id w in
  sd w' = sd w ∧ clock w' = clock w ∧ created w' = created w
  ∧ (w' = denied id w ∨ w' = emit (intif_request id) w)
  ∧ (w' = denied id w ↔ claim_refused E (sd w) id ∨ request_unsent E (sd w) id)
  ∧ (∀ a, log_lookup (sd w) id = Some a → 0 < rewarded a → w' = denied id w)
  ∧ (∀ code, run_script code ∈ out w' → run_script code ∈ out w).
Proof.
  intros w'.
  assert (∀ w0, claim_refused E (sd w) id ∨ request_unsent E (sd w) id →
          w0 = denied id w →
          sd w0 = sd w ∧ clock w0 = clock w ∧ created w0 = created w
          ∧ (w0 = denied id w ∨ w0 = emit (intif_request id) w)
          ∧ (w0 = denied id w ↔ claim_refused E (sd w) id ∨ request_unsent E (sd w) id)
          ∧ (∀ a, log_lookup (sd w) id = Some a → 0 < rewarded a → w0 = denied id w)
          ∧ (∀ code, run_script code ∈ out w0 → run_script code ∈ out w)) as Hdenied.
  { intros w0 Hwhy ->. repeat split; auto.
    intros code Hin. simpl in Hin. by apply elem_of_cons in Hin as [?|?]. }
  subst w'. unfold achievement_check_reward.
  unfold claim_refused, request_unsent, log_lookup in *. rewrite ARR_FIND_find.
  destruct (db_find (achievement_db E) id) as [adb|] eqn:Hdb; [|by apply Hdenied; auto].
  destruct (List.find (has_id id) (achievements (sd w))) as [a|] eqn:Hfind;
    [|by apply Hdenied; auto].
  destruct (Z.gtb_spec (rewarded a) 0) as [Hr|Hr]; cbn [orb negb].
  { apply Hdenied; [|done]. left. right. right. exists a. split; [done|]. by right. }
  destruct (Z.eqb_spec (completed a) 0) as [Hc|Hc]; cbn [orb negb].
  { apply Hdenied; [|done]. left. right. right. exists a. auto. }
  destruct (intif_achievement_reward E (sd w) adb) eqn:Hintif; cbn [orb negb].
  - split; [done|]. split; [done|]. split; [done|]. split; [by right|].
    split; [|split].
    + split; [done|].
      intros [[?|[?|(b & [= <-] & [?|?])]]|(adb' & [= <-] & ?)]; try done; try lia.
      congruence.
    + intros b [= <-] ?. lia.
    + intros code Hin. simpl in Hin. by apply elem_of_cons in Hin as [?|?].
  - apply Hdenied; [|done]. right. eauto.
Qed.

Lemma check_reward_denial_witness :
  achievement_check_reward (sample_env [kill_1002]) 7
    (player_with [mk_achievement 7 zeros 1000 1001 10] 0 10 0)
  = denied 7 (player_with [mk_achievement 7 zeros 1000 1001 10] 0 10 0).
Proof.
  destruct (check_reward_denial (sample_env [kill_1002]) 7
              (player_with [mk_achievement 7 zeros 1000 1001 10] 0 10 0))
    as (_ & _ & _ & _ & _ & Hclaimed & _).
  apply (Hclaimed (mk_achievement 7 zeros 1000 1001 10)); [reflexivity | simpl; lia].
Defined.

(** C9 as stated fails in both directions.  A completed, unclaimed entry of a
    known achievement is denied when the request cannot be sent, although
    none of the four cases holds; and a completed entry whose reward time is
    nonzero but negative is not denied: the request is sent. *)
Lemma check_reward_not_as_claimed :
  (achievement_check_reward (offline_env [kill_1002]) 7
     (player_with [mk_achievement 7 zeros 1000 0 10] 0 10 0)
   = denied 7 (player_with [mk_achievement 7 zeros 1000 0 10] 0 10 0)
   ∧ db_find (achievement_db (offline_env [kill_1002])) 7 ≠ None
   ∧ ∃ a, log_lookup (sd (player_with [mk_achievement 7 zeros 1000 0 10] 0 10 0)) 7
          = Some a
          ∧ completed a ≠ 0 ∧ rewarded a = 0)
  ∧ (achievement_check_reward (sample_env [kill_1002]) 7
       (player_with [mk_achievement 7 zeros 1000 (-7) 10] 0 10 0)
     = emit (intif_request 7) (player_with [mk_achievement 7 zeros 1000 (-7) 10] 0 10 0)
     ∧ ∃ a, log_lookup (sd (player_with [mk_achievement 7 zeros 1000 (-7) 10] 0 10 0)) 7
            = Some a
            ∧ rewarded a ≠ 0).
Proof.
  split.
  - split; [reflexivity|]. split; [done|].
    exists (mk_achievement 7 zeros 1000 0 10). split; [reflexivity|]. simpl. lia.
  - split; [reflexivity|].
    exists (mk_achievement 7 zeros 1000 (-7) 10). split; [reflexivity|]. simpl. lia.
Qed.

(** ** Facts about insertion and storing *)

Lemma alter_absent {A} (f : A → A) (l : list A) i : l !! i = None → alter f i l = l.
Proof.
  intros Hi. apply list_eq. intros j.
  destruct (decide (i = j)) as [<-|Hne].
  - by rewrite list_lookup_alter_eq, Hi.
  - by rewrite list_lookup_alter_ne.
Qed.

Lemma store_counts_absent i c w :
  achievements (sd w) !! i = None → store_counts i c w = w.
Proof.
  intros Hi. unfold store_counts, with_sd. rewrite (alter_absent _ _ _ Hi).
  by destruct w as [[]].
Qed.

(** Where the entries sit after an insertion at the boundary [i]. *)
Lemma lookup_inserted (l : list achievement) i fresh j :
  (i ≤ length l)%nat →
  (take i l ++ fresh :: drop i l) !! j
  = if decide (j < i)%nat then l !! j
    else if decide (j = i) then Some fresh else l !! pred j.
Proof.
  intros Hi. repeat case_decide.
  - rewrite lookup_app_l by (rewrite length_take; lia). by apply lookup_take_lt.
  - subst. rewrite list_lookup_middle; [done|]. rewrite length_take; lia.
  - rewrite lookup_app_r by (rewrite length_take; lia).
    rewrite length_take, Nat.min_l by lia.
    destruct (j - i)%nat as [|k] eqn:Hk; [lia|]. simpl.
    rewrite lookup_drop. f_equal. lia.
Qed.

(** The slot returned by [achievement_add] holds an entry that is not
    completed. *)
Lemma achievement_add_entry E id w i w' a :
  achievement_add E id w = (Some i, w') →
  achievements (sd w') !! i = Some a →
  achievement_id a = id ∧ completed a = 0 ∧ count a = zeros.
Proof.
  intros Hadd Ha. apply achievement_add_Some in Hadd as (adb & _ & _ & -> & Hsd & _).
  rewrite Hsd in Ha. simpl in Ha.
  destruct (decide (incompleteCount (sd w) ≤ length (achievements (sd w)))%nat) as [Hle|Hgt].
  - rewrite lookup_inserted in Ha by done.
    case_decide; [lia|]. case_decide; [|lia]. by injection Ha as <-.
  - rewrite take_ge, drop_ge in Ha by lia.
    apply lookup_lt_Some in Ha. rewrite length_app in Ha. simpl in Ha. lia.
Qed.

(** ** Invariants of the mutually recursive core

    A property of the world that survives the five elementary changes made by
    the core survives every function of the core.  Insertions are only ever
    made for an id whose dependents are complete; completion is followed at
    once by the level recomputation, and the two are one change here. *)

Section invariant.
Context (E : env) (P : world → Prop).
Hypothesis P_regs : ∀ w r, P w → P (with_sd (set_regs r) w).
Hypothesis P_add : ∀ w id i w',
  P w → achievement_check_dependent E (sd w) id = true →
  achievement_add E id w = (Some i, w') → P w'.
Hypothesis P_store : ∀ w i a c,
  P w → achievements (sd w) !! i = Some a → completed a ≤ 0 →
  P (store_counts i c w).
Hypothesis P_complete : ∀ w id adb i a w1 info w2,
  P w → db_find (achievement_db E) id = Some adb →
  achievements (sd w) !! i = Some a → achievement_id a = id →
  (i < incompleteCount (sd w))%nat → completed a ≤ 0 →
  mark_completed E adb i a w = Done w1 →
  level_update E w1 = Done (info, w2) → P w2.
Hypothesis P_notify : ∀ w a, P w → P (notify_update a w).

Lemma update_objective_body_inv call group args w w' :
  (∀ ad g c w b w', P w → call ad g c w = Done (b, w') → P w') →
  P w → achievement_update_objective_body E call group args w = Done w' → P w'.
Proof.
  intros Hcall HP H. unfold achievement_update_objective_body in H.
  destruct (feature_achievement E); simpl in H; [|by injection H as <-].
  case_decide; [|done]. inv_bind H. injection H as <-.
  unfold with_sd at 1. rewrite clear_arg_regs_only. apply (P_regs a).
  assert (P (with_sd (set_arg_regs args) w)) as HP1.
  { unfold with_sd. rewrite set_arg_regs_only. by apply (P_regs w). }
  assert (for_each (fun ad w => '(_, w') ← call ad group (event_counts args) w; Done w')
            (achievement_db E) (with_sd (set_arg_regs args) w) = Done a → P a) as Hscan.
  { apply for_each_inv; [|done]. intros ad w0 w0' HP0 Hrun.
    inv_bind Hrun. destruct a0 as [b w1]. injection Hrun as <-. eauto. }
  destruct group; try (by apply Hscan). by injection Hm as <-.
Qed.

Lemma update_objectives_body_inv call ad group update_count w b w' :
  (∀ id c w b w', P w → call id c w = Done (b, w') → P w') →
  P w → achievement_update_objectives_body E call ad group update_count w = Done (b, w') →
  P w'.
Proof.
  intros Hcall HP H. unfold achievement_update_objectives_body in H.
  case_decide; [by injection H as <- <-|].
  case_decide; [by injection H as <- <-|].
  set (i := ARR_FIND _ _ _ _) in H.
  assert (∀ index cur complete w0 r,
            P w0 → (∀ a, achievements (sd w0) !! index = Some a → completed a ≤ 0) →
            ('(_, w2) ← call (db_achievement_id ad) complete (store_counts index cur w0);
             Done (true, w2)) = Done r → P r.2) as Happly.
  { intros index cur complete w0 r HP0 Hentry Hrun. inv_bind Hrun.
    destruct a as [b0 w2]. injection Hrun as <-. simpl.
    eapply Hcall; [|done].
    destruct (achievements (sd w0) !! index) as [a|] eqn:Ha.
    - eapply P_store; eauto.
    - by rewrite store_counts_absent. }
  destruct (achievements (sd w) !! i) as [entry|] eqn:Hentry.
  - destruct (Z.gtb_spec (completed entry) 0) as [|Hc]; [by injection H as <- <-|].
    destruct (objectives_switch _ _ _ _ _ _) as [[[changed complete] cur]|];
      [|by injection H as <- <-].
    destruct changed; [|by injection H as <- <-].
    apply Happly in H; [done..|]. intros a Ha. by simplify_eq.
  - destruct (achievement_check_dependent E (sd w) (db_achievement_id ad)) eqn:Hdep;
      simpl in H; [|by injection H as <- <-].
    destruct (objectives_switch _ _ _ _ _ _) as [[[changed complete] cur]|];
      [|by injection H as <- <-].
    destruct (complete || _); [|by injection H as <- <-].
    destruct (achievement_add E (db_achievement_id ad) w) as [[index|] w1] eqn:Hadd.
    + assert (P w1) as HP1 by eauto.
      destruct changed; [|by injection H as <- <-].
      apply Happly in H; [done..|].
      intros a Ha. eapply achievement_add_entry in Ha as (_ & -> & _); [done|done].
    + apply achievement_add_None in Hadd as ->. by injection H as <- <-.
Qed.

Lemma update_achievement_body_inv call_level call_groups id complete w b w' :
  (∀ flag w r, call_level flag w = Done r → level_update E w = Done r) →
  (∀ ad w z w', P w → call_groups ad w = Done (z, w') → P w') →
  P w →
  achievement_update_achievement_body E call_level call_groups id complete w
    = Done (b, w') →
  P w'.
Proof.
  intros Hlevel Hgroups HP H. unfold achievement_update_achievement_body in H.
  destruct (db_find (achievement_db E) id) as [adb|] eqn:Hdb; [|by injection H as <- <-].
  set (i := ARR_FIND _ _ _ _) in H.
  destruct (ARR_FIND_spec (has_id id) (achievements (sd w)) 0 (incompleteCount (sd w)))
    as (Hi & _ & Hat); [lia|]. fold i in Hi, Hat.
  case_decide as Hne; [by injection H as <- <-|].
  destruct Hat as (a & Ha & Hid); [lia|]. rewrite Ha in H.
  destruct (Z.gtb_spec (completed a) 0) as [|Hc]; [by injection H as <- <-|].
  destruct complete; [|injection H as <- <-; by apply P_notify].
  inv_bind H. inv_bind H. destruct a1 as [info w2].
  apply Hlevel in Hm0. inv_bind H.
  destruct (achievements (sd a1) !! _) as [a'|]; [|done]. injection H as <- <-.
  apply P_notify.
  assert (P w2) as HP2.
  { eapply P_complete; eauto; [by apply Z.eqb_eq in Hid | lia]. }
  revert Hm1. apply for_each_inv; [|done].
  intros ad w0 w0' HP0 Hrun. inv_bind Hrun. destruct a2 as [z w3].
  injection Hrun as <-. eauto.
Qed.

Lemma check_groups_body_inv call ad w z w' :
  (∀ id c w b w', P w → call id c w = Done (b, w') → P w') →
  P w → achievement_check_groups_body E call ad w = Done (z, w') → P w'.
Proof.
  intros Hcall HP H. unfold achievement_check_groups_body in H.
  destruct (negb _); [by injection H as <- <-|].
  destruct (_ || _); [by injection H as <- <-|].
  case_decide; [|by injection H as <- <-].
  destruct (achievement_check_dependent E (sd w) (db_achievement_id ad)) eqn:Hdep;
    [|by injection H as <- <-].
  destruct (achievement_add E (db_achievement_id ad) w) as [[index|] w1] eqn:Hadd.
  - inv_bind H. destruct a as [b w2]. injection H as <- <-. eauto.
  - apply achievement_add_None in Hadd as ->.
    inv_bind H. destruct a as [b w2]. injection H as <- <-. eauto.
Qed.

(** The invariant holds after every call of the core that returns. *)
Theorem core_invariant fuel :
  (∀ g args w w', P w → achievement_update_objective E fuel g args w = Done w' → P w')
  ∧ (∀ ad g c w b w',
       P w → achievement_update_objectives E fuel ad g c w = Done (b, w') → P w')
  ∧ (∀ id c w b w',
       P w → achievement_update_achievement E fuel id c w = Done (b, w') → P w')
  ∧ (∀ ad w z w', P w → achievement_check_groups E fuel ad w = Done (z, w') → P w').
Proof.
  induction fuel as [|f (IHU & IHO & IHA & IHG)]; [done|].
  rewrite achievement_update_objective_S, achievement_update_objectives_S,
    achievement_update_achievement_S, achievement_check_groups_S.
  split; [|split; [|split]].
  - intros *. by apply update_objective_body_inv.
  - intros *. by apply update_objectives_body_inv.
  - intros *. apply update_achievement_body_inv; [|done].
    intros *. apply achievement_level_Done.
  - intros *. by apply check_groups_body_inv.
Qed.

End invariant.

(** ** The partition invariant *)

Lemma log_ok_partition_invariant s : log_ok s → partition_invariant s.
Proof.
  intros (Hle & Hpart & Hnd). split; [done|]. split; [|done].
  intros j a Ha. destruct (Hpart j a Ha) as [Hlo Hhi].
  destruct (decide (j < incompleteCount s)%nat).
  - specialize (Hlo ltac:(done)). split; split; intros; lia || done.
  - specialize (Hhi ltac:(lia)). split; split; intros; lia.
Qed.

Lemma ids_distinct (l : list achievement) :
  NoDup (achievement_id <$> l) ↔
  ∀ j k a b, l !! j = Some a → l !! k = Some b →
             achievement_id a = achievement_id b → j = k.
Proof.
  rewrite NoDup_alt. split.
  - intros H j k a b Ha Hb Hid. apply (H j k (achievement_id a)).
    + by rewrite list_lookup_fmap, Ha.
    + by rewrite list_lookup_fmap, Hb, Hid.
  - intros H j k x Hj Hk. rewrite list_lookup_fmap in Hj, Hk.
    destruct (l !! j) as [a|] eqn:Ha; [|done].
    destruct (l !! k) as [b|] eqn:Hb; [|done].
    simpl in *. apply (H j k a b); congruence.
Qed.

Lemma fmap_alter_same {A B} (f : A → B) (g : A → A) (l : list A) i :
  (∀ x, f (g x) = f x) → f <$> alter g i l = f <$> l.
Proof.
  intros Hfg. apply list_eq. intros j. rewrite !list_lookup_fmap.
  destruct (decide (i = j)) as [<-|Hne].
  - rewrite list_lookup_alter_eq. destruct (l !! i); simpl; [by rewrite Hfg | done].
  - by rewrite list_lookup_alter_ne.
Qed.

(** What a completed [mark_completed] did to the log. *)
Lemma mark_completed_Done E adb i a w w1 :
  mark_completed E adb i a w = Done w1 →
  achievements (sd w) !! i = Some a → (i < incompleteCount (sd w))%nat →
  let a' := set_completed (time E (clock w))
              (set_count (fill_targets (db_targets adb) (count a)) a) in
  let inc := pred (incompleteCount (sd w)) in
  incompleteCount (sd w1) = inc
  ∧ length (achievements (sd w1)) = length (achievements (sd w))
  ∧ (∀ j, achievements (sd w1) !! j
          = if decide (j = inc) then Some a'
            else if decide (j = i) then achievements (sd w) !! inc
            else achievements (sd w) !! j)
  ∧ total_score (sd w1) = total_score (sd w) ∧ level (sd w1) = level (sd w)
  ∧ save (sd w1) = save (sd w) ∧ titles (sd w1) = titles (sd w)
  ∧ regs (sd w1) = regs (sd w)
  ∧ out w1 = out w ∧ clock w1 = S (clock w) ∧ created w1 = created w.
Proof.
  intros H Ha Hi. unfold mark_completed in H. simpl in H.
  pose proof (lookup_lt_Some _ _ _ Ha) as Hlen.
  case_decide as Hlt.
  - destruct (_ !! pred _) as [b|] eqn:Hb; [|done]. injection H as <-. simpl.
    rewrite list_lookup_insert_ne in Hb by lia.
    pose proof (lookup_lt_Some _ _ _ Hb) as Hlenb.
    split; [done|]. split; [by rewrite !length_insert|]. split; [|done].
    intros j. repeat case_decide; subst.
    + rewrite list_lookup_insert_eq; [done|]. by rewrite !length_insert.
    + rewrite list_lookup_insert_ne by done.
      rewrite list_lookup_insert_eq; [done|]. by rewrite length_insert.
    + by rewrite !list_lookup_insert_ne.
  - injection H as <-. simpl. split; [done|]. split; [by rewrite length_insert|].
    split; [|done]. intros j. assert (pred (incompleteCount (sd w)) = i) as -> by lia.
    destruct (decide (j = i)) as [->|Hne].
    + rewrite list_lookup_insert_eq; [done|lia].
    + rewrite list_lookup_insert_ne; [done|lia].
Qed.

Lemma level_update_Done E w info w' :
  level_update E w = Done (info, w') →
  ∃ lv, level_of (achievement_level_db E) (recount_score (achievements (sd w)))
        = Done (lv, info)
      ∧ w' = with_sd (fun s => set_level lv
                        (set_total_score (recount_score (achievements (sd w))) s)) w.
Proof.
  unfold level_update. intros H. inv_bind H. destruct a as [lv i].
  injection H as <- <-. eauto.
Qed.

Lemma achievement_add_log_ok E id w :
  log_ok (sd w) → log_ok (sd (achievement_add E id w).2).
Proof.
  intros Hok. destruct (achievement_add E id w) as [[i|] w'] eqn:Hadd;
    [|by apply achievement_add_None in Hadd as ->].
  apply achievement_add_Some in Hadd as (adb & _ & Hnew & -> & Hsd & _).
  simpl. rewrite Hsd. destruct Hok as (Hle & Hpart & Hnd).
  unfold log_ok, partitioned. simpl. split; [|split].
  - rewrite length_app, length_take. simpl. rewrite length_drop. lia.
  - intros j a. rewrite lookup_inserted by done. repeat case_decide.
    + intros Ha. destruct (Hpart j a Ha). split; [auto|lia].
    + intros [= <-]. simpl. split; [done|lia].
    + intros Ha. destruct (Hpart (pred j) a Ha) as [_ Hhi]. split; [lia|].
      intros _. apply Hhi. lia.
  - rewrite fmap_app, fmap_cons. simpl.
    rewrite <- Permutation_middle, <- fmap_app, take_drop.
    apply NoDup_cons. split; [by apply find_has_id_None | done].
Qed.

Section log_ok_core.
Context (E : env) (Hclock : clock_positive E).

Lemma mark_completed_log_ok id adb i a w w1 info w2 :
  log_ok (sd w) → achievements (sd w) !! i = Some a → achievement_id a = id →
  (i < incompleteCount (sd w))%nat →
  mark_completed E adb i a w = Done w1 →
  level_update E w1 = Done (info, w2) → log_ok (sd w2).
Proof.
  intros (Hle & Hpart & Hnd) Ha Hid Hi Hmark Hlevel.
  apply level_update_Done in Hlevel as (lv & _ & ->).
  eapply mark_completed_Done in Hmark as (Hinc & Hlen & Hlook & _); [|done..].
  unfold log_ok, partitioned. simpl. rewrite Hinc, Hlen. split; [lia|]. split.
  - intros j b. rewrite Hlook. repeat case_decide; subst.
    + intros [= <-]. simpl. split; [lia|]. intros _. apply Hclock.
    + intros Hb. destruct (Hpart _ _ Hb) as [Hlo _]. split; [intros _; apply Hlo; lia | lia].
    + intros Hb. destruct (Hpart _ _ Hb) as [Hlo Hhi]. split; intros; [apply Hlo | apply Hhi]; lia.
  - apply ids_distinct. rewrite ids_distinct in Hnd.
    intros j k b c. rewrite !Hlook.
    set (inc := pred (incompleteCount (sd w))).
    set (a' := set_completed _ _).
    assert (∀ j b, (if decide (j = inc) then Some a'
                    else if decide (j = i) then achievements (sd w) !! inc
                    else achievements (sd w) !! j) = Some b →
                   ∃ j' b', achievements (sd w) !! j' = Some b'
                            ∧ achievement_id b' = achievement_id b
                            ∧ j' = (if decide (j = inc) then i
                                    else if decide (j = i) then inc else j)) as Hsrc.
    { intros j0 b0 H0. repeat case_decide; simplify_eq; eauto. }
    intros Hb Hc Heq.
    destruct (Hsrc _ _ Hb) as (j' & b' & Hb' & Hidb & Hj').
    destruct (Hsrc _ _ Hc) as (k' & c' & Hc' & Hidc & Hk').
    assert (j' = k') as Hjk by (apply (Hnd j' k' b' c'); congruence).
    repeat case_decide; lia.
Qed.

Lemma store_counts_log_ok i c w : log_ok (sd w) → log_ok (sd (store_counts i c w)).
Proof.
  intros (Hle & Hpart & Hnd). unfold log_ok, partitioned. simpl.
  rewrite length_alter. split; [done|]. split.
  - intros j a. destruct (decide (i = j)) as [<-|Hne].
    + rewrite list_lookup_alter_eq.
      destruct (achievements (sd w) !! i) as [b|] eqn:Hb; [|done].
      intros [= <-]. apply (Hpart i b Hb).
    + rewrite list_lookup_alter_ne by done. apply Hpart.
  - by rewrite fmap_alter_same.
Qed.

(** Every function of the core keeps the log well formed. *)
Lemma core_log_ok fuel :
  (∀ g args w w', log_ok (sd w) →
     achievement_update_objective E fuel g args w = Done w' → log_ok (sd w'))
  ∧ (∀ ad g c w b w', log_ok (sd w) →
       achievement_update_objectives E fuel ad g c w = Done (b, w') → log_ok (sd w'))
  ∧ (∀ id c w b w', log_ok (sd w) →
       achievement_update_achievement E fuel id c w = Done (b, w') → log_ok (sd w'))
  ∧ (∀ ad w z w', log_ok (sd w) →
       achievement_check_groups E fuel ad w = Done (z, w') → log_ok (sd w')).
Proof.
  apply (core_invariant E (fun w => log_ok (sd w))).
  - done.
  - intros w id i w' Hok _ Hadd. pose proof (achievement_add_log_ok E id w Hok) as H.
    by rewrite Hadd in H.
  - intros w i a c Hok _ _. by apply store_counts_log_ok.
  - intros w id adb i a w1 info w2 Hok _ Ha Hid Hi _ Hmark Hlevel.
    eapply mark_completed_log_ok; eauto.
  - done.
Qed.

End log_ok_core.

(** ** Entries that stay *)

Lemma mark_completed_moves E adb i a w w1 :
  mark_completed E adb i a w = Done w1 →
  achievements (sd w) !! i = Some a → (i < incompleteCount (sd w))%nat →
  (∀ j b, achievements (sd w) !! j = Some b → j ≠ i →
          achievements (sd w1)
            !! (if decide (j = pred (incompleteCount (sd w))) then i else j) = Some b)
  ∧ ∃ a', achievements (sd w1) !! pred (incompleteCount (sd w)) = Some a'
          ∧ achievement_id a' = achievement_id a
          ∧ completed a' = time E (clock w).
Proof.
  intros Hmark Ha Hi.
  eapply mark_completed_Done in Hmark as (_ & _ & Hlook & _); [|done..]. split.
  - intros j b Hb Hne. rewrite Hlook. repeat case_decide; subst; done.
  - eexists. rewrite Hlook. case_decide; [|done]. done.
Qed.

Section persistence.
Context (E : env).

(** A completed entry stays in the log, as it is. *)
Lemma core_keeps_completed a0 fuel :
  0 < completed a0 →
  (∀ g args w w', a0 ∈ achievements (sd w) →
     achievement_update_objective E fuel g args w = Done w' → a0 ∈ achievements (sd w'))
  ∧ (∀ ad g c w b w', a0 ∈ achievements (sd w) →
       achievement_update_objectives E fuel ad g c w = Done (b, w') →
       a0 ∈ achievements (sd w'))
  ∧ (∀ id c w b w', a0 ∈ achievements (sd w) →
       achievement_update_achievement E fuel id c w = Done (b, w') →
       a0 ∈ achievements (sd w'))
  ∧ (∀ ad w z w', a0 ∈ achievements (sd w) →
       achievement_check_groups E fuel ad w = Done (z, w') → a0 ∈ achievements (sd w')).
Proof.
  intros Hdone. apply (core_invariant E (fun w => a0 ∈ achievements (sd w))).
  - done.
  - intros w id i w' Hin _ Hadd.
    apply achievement_add_Some in Hadd as (adb & _ & _ & -> & -> & _). simpl.
    rewrite <- (take_drop (incompleteCount (sd w)) (achievements (sd w))) in Hin.
    apply elem_of_app in Hin as [Hin|Hin]; apply elem_of_app; [by left|right].
    apply elem_of_cons. by right.
  - intros w i a c Hin Ha Hc. simpl.
    apply list_elem_of_lookup in Hin as [j Hj]. apply list_elem_of_lookup. exists j.
    rewrite list_lookup_alter_ne; [done|]. intros ->. simplify_eq. lia.
  - intros w id adb i a w1 info w2 Hin _ Ha _ Hi Hc Hmark Hlevel.
    apply level_update_Done in Hlevel as (lv & _ & ->). simpl.
    eapply mark_completed_moves in Hmark as [Hmove _]; [|done..].
    apply list_elem_of_lookup in Hin as [j Hj]. apply list_elem_of_lookup.
    eexists. apply (Hmove j); [done|]. intros ->. simplify_eq. lia.
  - done.
Qed.

(** An id that has a log entry keeps having one. *)
Lemma core_keeps_ids id0 fuel :
  let has w := id0 ∈ achievement_id <$> achievements (sd w) in
  (∀ g args w w', has w →
     achievement_update_objective E fuel g args w = Done w' → has w')
  ∧ (∀ ad g c w b w', has w →
       achievement_update_objectives E fuel ad g c w = Done (b, w') → has w')
  ∧ (∀ id c w b w', has w →
       achievement_update_achievement E fuel id c w = Done (b, w') → has w')
  ∧ (∀ ad w z w', has w →
       achievement_check_groups E fuel ad w = Done (z, w') → has w').
Proof.
  intros has. apply (core_invariant E has); unfold has.
  - done.
  - intros w id i w' Hin _ Hadd.
    apply achievement_add_Some in Hadd as (adb & _ & _ & -> & -> & _). simpl.
    rewrite <- (take_drop (incompleteCount (sd w)) (achievements (sd w))) in Hin.
    rewrite fmap_app in Hin. rewrite fmap_app, fmap_cons.
    apply elem_of_app in Hin as [Hin|Hin]; apply elem_of_app; [by left|right].
    apply elem_of_cons. by right.
  - intros w i a c Hin _ _. simpl. by rewrite fmap_alter_same.
  - intros w id adb i a w1 info w2 Hin _ Ha _ Hi Hc Hmark Hlevel.
    apply level_update_Done in Hlevel as (lv & _ & ->). simpl.
    eapply mark_completed_moves in Hmark as [Hmove (a' & Ha' & Hid' & _)]; [|done..].
    apply list_elem_of_fmap in Hin as (b & -> & Hb).
    apply list_elem_of_lookup in Hb as [j Hj].
    apply list_elem_of_fmap.
    destruct (decide (j = i)) as [->|Hne].
    + exists a'. simplify_eq. split; [done|]. apply list_elem_of_lookup. eauto.
    + exists b. split; [done|]. apply list_elem_of_lookup. eauto.
  - done.
Qed.

End persistence.

(** ** Termination: enough fuel *)

Lemma filter_length_le {A} (P Q : A → Prop) `{∀ x, Decision (P x), ∀ x, Decision (Q x)}
    (l : list A) :
  (∀ x, x ∈ l → P x → Q x) → (length (filter P l) ≤ length (filter Q l))%nat.
Proof.
  induction l as [|x l IH]; intros HPQ; [done|].
  rewrite !filter_cons.
  assert (length (filter P l) ≤ length (filter Q l))%nat as Hl.
  { apply IH. intros y Hy. apply HPQ. by apply elem_of_cons; right. }
  destruct (decide (P x)) as [HP|]; destruct (decide (Q x)) as [|HQ]; simpl; try lia.
  destruct HQ. apply HPQ; [by apply elem_of_cons; left | done].
Qed.

Lemma filter_length_lt {A} (P Q : A → Prop) `{∀ x, Decision (P x), ∀ x, Decision (Q x)}
    (l : list A) x0 :
  (∀ x, x ∈ l → P x → Q x) → x0 ∈ l → Q x0 → ¬ P x0 →
  (length (filter P l) < length (filter Q l))%nat.
Proof.
  induction l as [|x l IH]; intros HPQ Hin HQ0 HP0; [by apply elem_of_nil in Hin|].
  rewrite !filter_cons.
  assert (∀ y, y ∈ l → P y → Q y) as HPQ'.
  { intros y Hy. apply HPQ. by apply elem_of_cons; right. }
  pose proof (filter_length_le P Q l HPQ') as Hle.
  apply elem_of_cons in Hin as [<-|Hin].
  - destruct (decide (P x0)); [done|]. destruct (decide (Q x0)); [simpl; lia | done].
  - specialize (IH HPQ' Hin HQ0 HP0).
    destruct (decide (P x)) as [HP|]; destruct (decide (Q x)) as [|HQ]; simpl; try lia.
    destruct HQ. apply HPQ; [by apply elem_of_cons; left | done].
Qed.

Lemma log_lookup_None s id :
  log_lookup s id = None ↔ id ∉ achievement_id <$> achievements s.
Proof. apply find_has_id_None. Qed.

Lemma absent_mono E s s' :
  (∀ id, id ∈ achievement_id <$> achievements s →
         id ∈ achievement_id <$> achievements s') →
  (absent E s' ≤ absent E s)%nat.
Proof.
  intros Hsub. apply filter_length_le. intros ad _.
  rewrite !log_lookup_None. auto.
Qed.

Lemma absent_bound E s : (absent E s ≤ length (achievement_db E))%nat.
Proof. apply length_filter. Qed.

Lemma db_find_Some db id adb :
  db_find db id = Some adb → adb ∈ db ∧ db_achievement_id adb = id.
Proof.
  intros H. apply find_some in H as [Hin Hid].
  split; [by apply list_elem_of_In | by apply Z.eqb_eq].
Qed.

Lemma achievement_add_ids E id w i w' id0 :
  achievement_add E id w = (Some i, w') →
  id0 ∈ achievement_id <$> achievements (sd w') ↔
  id0 = id ∨ id0 ∈ achievement_id <$> achievements (sd w).
Proof.
  intros Hadd. apply achievement_add_Some in Hadd as (adb & _ & _ & -> & -> & _).
  simpl. rewrite fmap_app, fmap_cons. simpl.
  rewrite <- (take_drop (incompleteCount (sd w)) (achievements (sd w))) at 3.
  rewrite fmap_app, !elem_of_app, elem_of_cons. tauto.
Qed.

Lemma absent_add E id w i w' :
  achievement_add E id w = (Some i, w') →
  (absent E (sd w') < absent E (sd w))%nat.
Proof.
  intros Hadd. pose proof (achievement_add_ids E id w i w') as Hids.
  apply achievement_add_Some in Hadd as Hwhat.
  destruct Hwhat as (adb & Hdb & Hnew & _).
  apply db_find_Some in Hdb as [Hin Hid].
  apply (filter_length_lt _ _ _ adb); [|done|by rewrite Hid|].
  - intros ad _. rewrite !log_lookup_None, (Hids _ Hadd). tauto.
  - rewrite log_lookup_None, (Hids _ Hadd), Hid. tauto.
Qed.

Lemma for_each_total {A} (Q : world → Prop) (f : A → world → result world) l :
  (∀ a w, Q w → ∃ w', f a w = Done w' ∧ Q w') →
  ∀ w, Q w → ∃ w', for_each f l w = Done w' ∧ Q w'.
Proof.
  intros Hf. induction l as [|a l IH]; intros w HQ; simpl; [eauto|].
  destruct (Hf a w HQ) as (w1 & -> & HQ1). simpl. by apply IH.
Qed.

Lemma mark_completed_total E adb i a w :
  log_ok (sd w) → achievements (sd w) !! i = Some a →
  (i < incompleteCount (sd w))%nat → ∃ w1, mark_completed E adb i a w = Done w1.
Proof.
  intros (Hle & _) Ha Hi. unfold mark_completed. simpl.
  case_decide; [|eauto].
  destruct (lookup_lt_is_Some_2 (<[i:=set_completed (time E (clock w))
                (set_count (fill_targets (db_targets adb) (count a)) a)]>
              (achievements (sd w))) (pred (incompleteCount (sd w)))) as [b ->];
    [rewrite length_insert; lia | eauto].
Qed.

Section termination.
Context (E : env).
Context (Hclock : clock_positive E) (Hlevel0 : is_Some (achievement_level_db E !! 0)).

(** The calls of the core never increase [absent]. *)
Lemma core_absent fuel :
  (∀ g args w w', achievement_update_objective E fuel g args w = Done w' →
     (absent E (sd w') ≤ absent E (sd w))%nat)
  ∧ (∀ ad g c w b w', achievement_update_objectives E fuel ad g c w = Done (b, w') →
       (absent E (sd w') ≤ absent E (sd w))%nat)
  ∧ (∀ id c w b w', achievement_update_achievement E fuel id c w = Done (b, w') →
       (absent E (sd w') ≤ absent E (sd w))%nat)
  ∧ (∀ ad w z w', achievement_check_groups E fuel ad w = Done (z, w') →
       (absent E (sd w') ≤ absent E (sd w))%nat).
Proof.
  split; [|split; [|split]]; intros; apply absent_mono; intros id0 Hid0;
    pose proof (core_keeps_ids E id0 fuel) as (HU & HO & HA & HG); eauto.
Qed.

Lemma update_achievement_enough f id complete w :
  (∀ ad w, log_ok (sd w) → (2 * absent E (sd w) + 3 ≤ f)%nat →
           ∃ r, achievement_check_groups E f ad w = Done r) →
  log_ok (sd w) → (2 * absent E (sd w) + 4 ≤ S f)%nat →
  ∃ r, achievement_update_achievement E (S f) id complete w = Done r.
Proof.
  intros IHG Hok Hfuel. rewrite achievement_update_achievement_S.
  unfold achievement_update_achievement_body.
  destruct (db_find (achievement_db E) id) as [adb|] eqn:Hdb; [|eauto].
  destruct (ARR_FIND_spec (has_id id) (achievements (sd w)) 0 (incompleteCount (sd w)))
    as (Hi & _ & Hat); [lia|].
  case_decide as Hne; [eauto|].
  destruct Hat as (a & Ha & Hid); [lia|]. rewrite Ha.
  destruct (Z.gtb_spec (completed a) 0) as [|Hc]; [eauto|].
  destruct complete; [|eauto].
  destruct (mark_completed_total E adb _ a w Hok Ha) as [w1 Hmark]; [lia|].
  rewrite Hmark. simpl.
  rewrite achievement_level_enough by (unfold level_fuel; lia).
  destruct (level_update_total E w1 Hlevel0) as (lv & left & right & Hlv & Hupd).
  rewrite Hupd. simpl.
  set (w2 := with_sd _ w1).
  assert (log_ok (sd w2)) as Hok2.
  { eapply mark_completed_log_ok; eauto. lia. }
  eapply mark_completed_moves in Hmark as Hmoves; [|done|lia].
  destruct Hmoves as [Hmove (a' & Ha' & Hida' & Hdone')].
  assert (absent E (sd w2) ≤ absent E (sd w))%nat as Habs2.
  { apply absent_mono. intros id0 Hin.
    apply list_elem_of_fmap in Hin as (b & -> & Hb).
    apply list_elem_of_lookup in Hb as [j Hj]. apply list_elem_of_fmap.
    destruct (decide (j = ARR_FIND 0 (incompleteCount (sd w)) (has_id id)
                             (achievements (sd w)))) as [->|Hj'].
    - exists a'. simplify_eq. split; [done|]. apply list_elem_of_lookup. eauto.
    - exists b. split; [done|]. apply list_elem_of_lookup. eauto. }
  assert (0 < completed a') as Hpos by (rewrite Hdone'; apply Hclock).
  assert (a' ∈ achievements (sd w2)) as Hin2 by (apply list_elem_of_lookup; eauto).
  destruct (for_each_total
              (fun w => log_ok (sd w) ∧ (absent E (sd w) ≤ absent E (sd w2))%nat
                        ∧ a' ∈ achievements (sd w))
              (fun ach w => '(_, w') ← achievement_check_groups E f ach w; Done w')
              (achievement_db E)) with (w := w2) as (w3 & -> & Hok3 & _ & Hin3).
  { intros ad w0 (Hok0 & Habs0 & Hin0).
    destruct (IHG ad w0 Hok0) as [[z w0'] Hrun]; [lia|].
    rewrite Hrun. simpl. eexists. split; [done|].
    destruct (core_log_ok E Hclock f) as (_ & _ & _ & HG).
    destruct (core_absent f) as (_ & _ & _ & HGa).
    destruct (core_keeps_completed E a' f Hpos) as (_ & _ & _ & HGk).
    split; [eauto|]. split; [|eauto].
    etrans; [eapply HGa|]; eauto. }
  { done. }
  simpl. apply list_elem_of_lookup in Hin3 as [j Hj].
  destruct Hok3 as (Hle3 & Hpart3 & _).
  destruct (Hpart3 j a' Hj) as [Hlo _].
  destruct (ARR_FIND_hit (has_id id) (achievements (sd w3)) (incompleteCount (sd w3))
              (length (achievements (sd w3))) j a') as (b & -> & _).
  - split; [|by eapply lookup_lt_Some].
    destruct (decide (incompleteCount (sd w3) ≤ j)%nat); [done|].
    specialize (Hlo ltac:(lia)). lia.
  - done.
  - unfold has_id. rewrite Hida'. unfold has_id in Hid. done.
  - eauto.
Qed.

Lemma check_groups_enough f ad w :
  (∀ id c w, log_ok (sd w) → (2 * absent E (sd w) + 4 ≤ f)%nat →
             ∃ r, achievement_update_achievement E f id c w = Done r) →
  log_ok (sd w) → (2 * absent E (sd w) + 3 ≤ S f)%nat →
  ∃ r, achievement_check_groups E (S f) ad w = Done r.
Proof.
  intros IHA Hok Hfuel. rewrite achievement_check_groups_S.
  unfold achievement_check_groups_body.
  destruct (negb _); [eauto|]. destruct (_ || _); [eauto|].
  case_decide as Hmiss; [|eauto].
  destruct (achievement_check_dependent E (sd w) (db_achievement_id ad)) eqn:Hdep;
    [|eauto].
  unfold achievement_check_dependent in Hdep.
  destruct (db_find (achievement_db E) (db_achievement_id ad)) as [adb|] eqn:Hdb; [|done].
  apply ARR_FIND_miss in Hmiss.
  destruct (achievement_add_fresh E _ w adb Hdb Hmiss) as [w1 Hadd]. rewrite Hadd.
  pose proof (absent_add E _ w _ w1 Hadd) as Habs.
  pose proof (achievement_add_log_ok E (db_achievement_id ad) w Hok) as Hok1.
  rewrite Hadd in Hok1. simpl in Hok1.
  destruct (IHA (db_achievement_id ad) true w1 Hok1) as [[b w2] ->]; [lia|].
  simpl. eauto.
Qed.

Lemma update_objectives_enough f ad group update_count w :
  (∀ id c w, log_ok (sd w) → (2 * absent E (sd w) + 4 ≤ f)%nat →
             ∃ r, achievement_update_achievement E f id c w = Done r) →
  log_ok (sd w) → (2 * absent E (sd w) + 5 ≤ S f)%nat →
  ∃ r, achievement_update_objectives E (S f) ad group update_count w = Done r.
Proof.
  intros IHA Hok Hfuel. rewrite achievement_update_objectives_S.
  unfold achievement_update_objectives_body.
  case_decide; [eauto|]. case_decide; [eauto|].
  assert (∀ index cur complete w0,
            log_ok (sd w0) → (absent E (sd w0) ≤ absent E (sd w))%nat →
            ∃ r, ('(_, w2) ← achievement_update_achievement E f (db_achievement_id ad)
                               complete (store_counts index cur w0);
                  Done (true, w2)) = Done r) as Happly.
  { intros index cur complete w0 Hok0 Habs0.
    destruct (IHA (db_achievement_id ad) complete (store_counts index cur w0))
      as [[b w2] ->]; [by apply store_counts_log_ok| |simpl; eauto].
    assert (absent E (sd (store_counts index cur w0)) ≤ absent E (sd w0))%nat; [|lia].
    apply absent_mono. intros id0. simpl. by rewrite fmap_alter_same. }
  destruct (achievements (sd w) !! _) as [entry|].
  - destruct (completed entry >? 0); [eauto|].
    destruct (objectives_switch _ _ _ _ _ _) as [[[changed complete] cur]|]; [|eauto].
    destruct changed; [|eauto]. by apply Happly.
  - destruct (negb _); [eauto|].
    destruct (objectives_switch _ _ _ _ _ _) as [[[changed complete] cur]|]; [|eauto].
    destruct (complete || _); [|eauto].
    destruct (achievement_add E (db_achievement_id ad) w) as [[index|] w1] eqn:Hadd;
      [|eauto].
    destruct changed; [|eauto]. apply Happly.
    + pose proof (achievement_add_log_ok E (db_achievement_id ad) w Hok) as Hok1.
      by rewrite Hadd in Hok1.
    + pose proof (absent_add E _ w _ w1 Hadd). lia.
Qed.

Lemma update_objective_enough f group args w :
  (∀ ad g c w, log_ok (sd w) → (2 * absent E (sd w) + 5 ≤ f)%nat →
               ∃ r, achievement_update_objectives E f ad g c w = Done r) →
  log_ok (sd w) → (length args ≤ MAX_ACHIEVEMENT_OBJECTIVES)%nat →
  (2 * absent E (sd w) + 6 ≤ S f)%nat →
  ∃ w', achievement_update_objective E (S f) group args w = Done w'.
Proof.
  intros IHO Hok Hargs Hfuel. rewrite achievement_update_objective_S.
  unfold achievement_update_objective_body.
  destruct (negb _); [eauto|]. case_decide; [|done].
  assert (∃ w2, for_each (fun ad w0 =>
                   '(_, w') ← achievement_update_objectives E f ad group
                                (event_counts args) w0; Done w')
                  (achievement_db E) (with_sd (set_arg_regs args) w) = Done w2)
    as [w2 Hscan].
  { destruct (for_each_total
                (fun w0 => log_ok (sd w0) ∧ (absent E (sd w0) ≤ absent E (sd w))%nat)
                (fun ad w0 => '(_, w') ← achievement_update_objectives E f ad group
                                           (event_counts args) w0; Done w')
                (achievement_db E)) with (w := with_sd (set_arg_regs args) w)
      as (w2 & Hw2 & _); [| |eauto].
    - intros ad w0 [Hok0 Habs0].
      destruct (IHO ad group (event_counts args) w0 Hok0) as [[b w0'] Hrun]; [lia|].
      rewrite Hrun. simpl. eexists. split; [done|].
      destruct (core_log_ok E Hclock f) as (_ & HO & _).
      destruct (core_absent f) as (_ & HOa & _).
      split; [eauto|]. etrans; [eapply HOa|]; eauto.
    - simpl. rewrite set_arg_regs_only. split; [done|].
      apply absent_mono. by intros id0. }
  destruct group; try (rewrite Hscan; simpl; eauto); simpl; eauto.
Qed.

(** Every call of the core on a well-formed log returns, given fuel
    proportional to the number of catalog entries without a log entry. *)
Theorem core_total fuel :
  (∀ g args w, log_ok (sd w) → (length args ≤ MAX_ACHIEVEMENT_OBJECTIVES)%nat →
     (2 * absent E (sd w) + 6 ≤ fuel)%nat →
     ∃ w', achievement_update_objective E fuel g args w = Done w')
  ∧ (∀ ad g c w, log_ok (sd w) → (2 * absent E (sd w) + 5 ≤ fuel)%nat →
       ∃ r, achievement_update_objectives E fuel ad g c w = Done r)
  ∧ (∀ id c w, log_ok (sd w) → (2 * absent E (sd w) + 4 ≤ fuel)%nat →
       ∃ r, achievement_update_achievement E fuel id c w = Done r)
  ∧ (∀ ad w, log_ok (sd w) → (2 * absent E (sd w) + 3 ≤ fuel)%nat →
       ∃ r, achievement_check_groups E fuel ad w = Done r).
Proof.
  induction fuel as [|f (IHU & IHO & IHA & IHG)].
  - repeat split; intros; lia.
  - split; [|split; [|split]]; intros.
    + by apply update_objective_enough.
    + by apply update_objectives_enough.
    + by apply update_achievement_enough.
    + by apply check_groups_enough.
Qed.

End termination.

(** ** Removal *)

Lemma achievement_remove_log_ok E id w :
  log_ok (sd w) → log_ok (sd (achievement_remove E id w).2).
Proof.
  intros Hok. unfold achievement_remove.
  destruct (negb _); [done|].
  set (i := ARR_FIND _ _ _ _).
  destruct (achievements (sd w) !! i) as [a|] eqn:Ha; [|done]. simpl.
  destruct Hok as (Hle & Hpart & Hnd).
  pose proof (lookup_lt_Some _ _ _ Ha) as Hlen.
  destruct (Hpart i a Ha) as [Hlo Hhi].
  assert (completed a = 0 ↔ (i < incompleteCount (sd w))%nat) as Hside.
  { split; [|done]. intros H0.
    destruct (decide (i < incompleteCount (sd w))%nat); [done|].
    specialize (Hhi ltac:(lia)). lia. }
  unfold log_ok, partitioned. simpl.
  rewrite length_delete by eauto. split; [|split].
  - destruct (Z.eqb_spec (completed a) 0) as [H0|H0]; [lia|].
    assert (¬ (i < incompleteCount (sd w))%nat) by tauto. lia.
  - intros j b. rewrite list_lookup_delete. intros Hb.
    destruct (Hpart _ _ Hb) as [Hlo' Hhi'].
    destruct (Z.eqb_spec (completed a) 0) as [H0|H0].
    + apply Hside in H0. case_decide; split; intros; (apply Hlo' || apply Hhi'); lia.
    + assert (¬ (i < incompleteCount (sd w))%nat) by tauto.
      case_decide; split; intros; (apply Hlo' || apply Hhi'); lia.
  - rewrite list_fmap_delete. eapply sublist_NoDup; [done|]. apply sublist_delete.
Qed.

(** ** C4: the partition invariant *)

Lemma run_operation_log_ok E fuel op w w' :
  clock_positive E → log_ok (sd w) →
  run_operation E fuel op w = Done w' → log_ok (sd w').
Proof.
  intros Hclock Hok H.
  destruct (core_log_ok E Hclock fuel) as (HU & _ & HA & _).
  destruct op as [id|id|id complete|group args]; simpl in H.
  - injection H as <-. by apply achievement_add_log_ok.
  - injection H as <-. by apply achievement_remove_log_ok.
  - inv_bind H. destruct a as [b w1]. injection H as <-. eauto.
  - eauto.
Qed.

Lemma run_operation_total E fuel op w :
  clock_positive E → is_Some (achievement_level_db E !! 0) →
  admissible op → log_ok (sd w) → (core_fuel E ≤ fuel)%nat →
  ∃ w', run_operation E fuel op w = Done w'.
Proof.
  intros Hclock Hlevel0 Hop Hok Hfuel.
  destruct (core_total E Hclock Hlevel0 fuel) as (HU & _ & HA & _).
  pose proof (absent_bound E (sd w)). unfold core_fuel in Hfuel.
  destruct op as [id|id|id complete|group args]; simpl; [eauto..| |].
  - destruct (HA id complete w Hok) as [[b w'] ->]; [lia|]. simpl. eauto.
  - apply HU; [done|done|lia].
Qed.

(** C4.  Whatever sequence of insertions, removals, updates and events is
    applied to a player with a well-formed log, every operation returns and
    the log is partitioned exactly at [incompleteCount], without an id
    occurring twice. *)
Theorem partition_invariant_maintained E ops fuel w :
  clock_positive E → is_Some (achievement_level_db E !! 0) →
  Forall admissible ops → log_ok (sd w) → (core_fuel E ≤ fuel)%nat →
  ∃ w', run_operations E fuel ops w = Done w' ∧ partition_invariant (sd w').
Proof.
  intros Hclock Hlevel0 Hops Hok Hfuel.
  cut (∃ w', run_operations E fuel ops w = Done w' ∧ log_ok (sd w')).
  { intros (w' & ? & ?). eauto using log_ok_partition_invariant. }
  revert w Hok. induction Hops as [|op ops Hop Hops IH]; intros w Hok; simpl; [eauto|].
  destruct (run_operation_total E fuel op w) as [w1 Hrun]; [done..|].
  rewrite Hrun. simpl. apply IH. by eapply run_operation_log_ok.
Qed.

Lemma new_player_log_ok : log_ok (sd new_player).
Proof.
  split; [done|]. split; [|constructor].
  intros j a Ha. simpl in Ha. by rewrite lookup_nil in Ha.
Qed.

Lemma sample_clock_positive db : clock_positive (sample_env db).
Proof. intros n. simpl. lia. Qed.

Lemma partition_invariant_maintained_witness :
  ∃ w', run_operations (sample_env [kill_1002; after_kill]) 10
          [op_event AG_BATTLE [1002]; op_add 8; op_event AG_BATTLE [1002];
           op_event AG_BATTLE [1002]; op_remove 7; op_update 8 true] new_player
        = Done w'
      ∧ partition_invariant (sd w').
Proof.
  apply partition_invariant_maintained.
  - apply sample_clock_positive.
  - by eexists.
  - repeat constructor; simpl; lia.
  - apply new_player_log_ok.
  - vm_compute. lia.
Defined.

(** ** C6: dependency gating *)

Lemma achievement_done_spec s id :
  achievement_done s id = true ↔
  ∃ a, a ∈ achievements s ∧ achievement_id a = id ∧ 0 < completed a.
Proof.
  unfold achievement_done. rewrite existsb_exists. split.
  - intros (a & Hin & Ha). apply andb_true_iff in Ha as [Hid Hc].
    exists a. split; [by apply list_elem_of_In|]. lia.
  - intros (a & Hin & Hid & Hc). exists a. split; [by apply list_elem_of_In|].
    apply andb_true_iff. lia.
Qed.

Lemma check_dependent_completed E s id :
  achievement_check_dependent E s id = true → dependents_completed E s id.
Proof.
  unfold achievement_check_dependent, dependents_completed.
  destruct (db_find (achievement_db E) id) as [adb|]; [|done].
  intros H. exists adb. split; [done|]. intros dep Hdep.
  rewrite forallb_forall in H. apply list_elem_of_In, H in Hdep.
  apply achievement_done_spec in Hdep as (a & ? & ? & ?).
  exists a. split; [done|]. split; [done|lia].
Qed.

Lemma mark_completed_ids_back E adb i a w w1 id0 :
  mark_completed E adb i a w = Done w1 →
  achievements (sd w) !! i = Some a → (i < incompleteCount (sd w))%nat →
  id0 ∈ achievement_id <$> achievements (sd w1) →
  id0 ∈ achievement_id <$> achievements (sd w).
Proof.
  intros Hmark Ha Hi Hin.
  eapply mark_completed_Done in Hmark as (_ & _ & Hlook & _); [|done..].
  apply list_elem_of_fmap in Hin as (b & -> & Hb).
  apply list_elem_of_lookup in Hb as [j Hj]. rewrite Hlook in Hj.
  apply list_elem_of_fmap.
  repeat case_decide; simplify_eq.
  - exists a. split; [done|]. apply list_elem_of_lookup. eauto.
  - exists b. split; [done|]. apply list_elem_of_lookup. eauto.
  - exists b. split; [done|]. apply list_elem_of_lookup. eauto.
Qed.

Section gating.
Context (E : env) (w0 : world).

Lemma core_gated fuel :
  (∀ g args w w', gated_since E w0 w →
     achievement_update_objective E fuel g args w = Done w' → gated_since E w0 w')
  ∧ (∀ ad g c w b w', gated_since E w0 w →
       achievement_update_objectives E fuel ad g c w = Done (b, w') → gated_since E w0 w')
  ∧ (∀ id c w b w', gated_since E w0 w →
       achievement_update_achievement E fuel id c w = Done (b, w') → gated_since E w0 w')
  ∧ (∀ ad w z w', gated_since E w0 w →
       achievement_check_groups E fuel ad w = Done (z, w') → gated_since E w0 w').
Proof.
  apply (core_invariant E (gated_since E w0)).
  - done.
  - intros w id i w' (new & Hnew & Hgated & Hids) Hdep Hadd.
    pose proof (achievement_add_ids E id w i w') as Hids'.
    apply achievement_add_Some in Hadd as Hwhat.
    destruct Hwhat as (adb & _ & Hfresh & _ & _ & _ & _ & Hcreated).
    exists ((id, sd w) :: new). split; [by rewrite Hcreated, Hnew|].
    split; [by constructor|].
    intros id0 Hin. apply (Hids' _ Hadd) in Hin as [->|Hin].
    + right. rewrite fmap_cons. by apply elem_of_cons; left.
    + destruct (Hids id0 Hin); [by left|right].
      rewrite fmap_cons. by apply elem_of_cons; right.
  - intros w i a c (new & Hnew & Hgated & Hids) _ _.
    exists new. split; [done|]. split; [done|]. simpl. by rewrite fmap_alter_same.
  - intros w id adb i a w1 info w2 (new & Hnew & Hgated & Hids) _ Ha _ Hi _ Hmark Hlevel.
    apply level_update_Done in Hlevel as (lv & _ & ->).
    exists new. simpl.
    eapply mark_completed_Done in Hmark as Hwhat; [|done..].
    destruct Hwhat as (_ & _ & _ & _ & _ & _ & _ & _ & _ & _ & ->).
    split; [done|]. split; [done|].
    intros id0 Hin. apply Hids. by eapply mark_completed_ids_back.
  - done.
Qed.

End gating.

(** C6.  An objective-update event on a well-formed log returns, and every
    log entry it created, directly or through the dependents-only scan, was
    inserted while all prerequisites of its achievement had an entry with a
    nonzero completion time ([achievement_check_dependent] held at that
    moment). *)
Theorem creation_is_gated E fuel group args w :
  clock_positive E → is_Some (achievement_level_db E !! 0) →
  log_ok (sd w) → (length args ≤ MAX_ACHIEVEMENT_OBJECTIVES)%nat →
  (core_fuel E ≤ fuel)%nat →
  ∃ w' new,
    achievement_update_objective E fuel group args w = Done w'
    ∧ created w' = new ++ created w
    ∧ (∀ id, id ∈ achievement_id <$> achievements (sd w') →
             id ∈ achievement_id <$> achievements (sd w) ∨ id ∈ new.*1)
    ∧ Forall (fun entry =>
                log_lookup entry.2 entry.1 = None
                ∧ achievement_check_dependent E entry.2 entry.1 = true
                ∧ dependents_completed E entry.2 entry.1) new.
Proof.
  intros Hclock Hlevel0 Hok Hargs Hfuel.
  destruct (core_total E Hclock Hlevel0 fuel) as (HU & _).
  destruct (HU group args w Hok Hargs) as [w' Hrun].
  { pose proof (absent_bound E (sd w)). unfold core_fuel in Hfuel. lia. }
  destruct (core_gated E w fuel) as (HUg & _).
  destruct (HUg group args w w') as (new & Hnew & Hgated & Hids); [|done|].
  { exists []. split; [done|]. split; [constructor|]. auto. }
  exists w', new. split; [done|]. split; [done|]. split; [done|].
  eapply Forall_impl; [done|]. intros [id s] [Hfresh Hdep]. simpl in *.
  auto using check_dependent_completed.
Qed.

Lemma creation_is_gated_witness :
  ∃ w' new,
    achievement_update_objective (sample_env [kill_1002; after_kill]) 10 AG_BATTLE [1002]
      (player_with [mk_achievement 7 [2; 0; 0; 0; 0; 0; 0; 0; 0; 0] 0 0 10] 1 0 0)
    = Done w'
    ∧ new.*1 = [8]
    ∧ Forall (fun entry =>
                dependents_completed (sample_env [kill_1002; after_kill]) entry.2 entry.1)
             new.
Proof.
  destruct (creation_is_gated (sample_env [kill_1002; after_kill]) 10 AG_BATTLE [1002]
              (player_with [mk_achievement 7 [2; 0; 0; 0; 0; 0; 0; 0; 0; 0] 0 0 10] 1 0 0))
    as (w' & new & Hrun & Hnew & _ & Hgated).
  - apply sample_clock_positive.
  - by eexists.
  - unfold player_with, log_ok, partitioned. simpl. split; [lia|]. split.
    + intros [|j] a Ha; simpl in Ha; [|by rewrite lookup_nil in Ha].
      injection Ha as <-. simpl. split; [done|lia].
    + apply NoDup_singleton.
  - unfold MAX_ACHIEVEMENT_OBJECTIVES. simpl. lia.
  - vm_compute. lia.
  - exists w', new. split; [exact Hrun|]. split.
    + vm_compute in Hrun. injection Hrun as <-. simpl in Hnew.
      rewrite app_nil_r in Hnew. by rewrite <- Hnew.
    + eapply Forall_impl; [exact Hgated|]. intros entry (_ & _ & H). exact H.
Defined.

(** ** C7: completed entries are immutable *)

Lemma log_ok_completed_pos s a :
  log_ok s → a ∈ achievements s → completed a ≠ 0 → 0 < completed a.
Proof.
  intros (_ & Hpart & _) Hin Hc. apply list_elem_of_lookup in Hin as [j Hj].
  destruct (Hpart j a Hj) as [Hlo Hhi].
  destruct (decide (j < incompleteCount s)%nat); [|apply Hhi; lia].
  specialize (Hlo ltac:(done)). lia.
Qed.

Lemma log_ok_lookup s a :
  log_ok s → a ∈ achievements s → log_lookup s (achievement_id a) = Some a.
Proof. intros (_ & _ & Hnd) Hin. by apply find_has_id_unique. Qed.

(** C7.  For an entry with a nonzero completion time, the update of its
    catalog entry returns false and leaves the world as it is, whatever the
    group and the event values; and after a whole event, which may touch
    other entries, the entry is still in the log with every field as
    before. *)
Theorem completed_entry_immutable E id a w :
  clock_positive E → is_Some (achievement_level_db E !! 0) →
  log_ok (sd w) → log_lookup (sd w) id = Some a → completed a ≠ 0 →
  (∀ fuel ad group update_count,
     db_achievement_id ad = id →
     achievement_update_objectives E (S fuel) ad group update_count w = Done (false, w))
  ∧ (∀ fuel group args,
       (length args ≤ MAX_ACHIEVEMENT_OBJECTIVES)%nat → (core_fuel E ≤ fuel)%nat →
       ∃ w', achievement_update_objective E fuel group args w = Done w'
             ∧ log_lookup (sd w') id = Some a).
Proof.
  intros Hclock Hlevel0 Hok Hfind Hdone.
  pose proof Hfind as Hin. apply find_has_id in Hin as [Hin Hid].
  pose proof (log_ok_completed_pos _ _ Hok Hin Hdone) as Hpos. split.
  - intros fuel ad group update_count Had.
    rewrite achievement_update_objectives_S. unfold achievement_update_objectives_body.
    case_decide; [done|]. case_decide; [done|].
    rewrite ARR_FIND_find, Had. unfold log_lookup in Hfind. rewrite Hfind.
    destruct (Z.gtb_spec (completed a) 0); [done|lia].
  - intros fuel group args Hargs Hfuel.
    destruct (core_total E Hclock Hlevel0 fuel) as (HU & _).
    destruct (HU group args w Hok Hargs) as [w' Hrun].
    { pose proof (absent_bound E (sd w)). unfold core_fuel in Hfuel. lia. }
    exists w'. split; [done|].
    destruct (core_log_ok E Hclock fuel) as (HUok & _).
    destruct (core_keeps_completed E a fuel Hpos) as (HUk & _).
    rewrite <- Hid. apply log_ok_lookup; eauto.
Qed.

Lemma completed_entry_immutable_witness :
  achievement_update_objectives (sample_env [kill_1002]) 1 kill_1002 AG_BATTLE
    (event_counts [1002])
    (player_with [mk_achievement 7 [3; 0; 0; 0; 0; 0; 0; 0; 0; 0] 1000 0 10] 0 10 0)
  = Done (false,
          player_with [mk_achievement 7 [3; 0; 0; 0; 0; 0; 0; 0; 0; 0] 1000 0 10] 0 10 0).
Proof.
  destruct (completed_entry_immutable (sample_env [kill_1002]) 7
              (mk_achievement 7 [3; 0; 0; 0; 0; 0; 0; 0; 0; 0] 1000 0 10)
              (player_with [mk_achievement 7 [3; 0; 0; 0; 0; 0; 0; 0; 0; 0] 1000 0 10]
                 0 10 0)) as [Hentry _].
  - apply sample_clock_positive.
  - by eexists.
  - unfold player_with, log_ok, partitioned. simpl. split; [lia|]. split.
    + intros [|j] a Ha; simpl in Ha; [|by rewrite lookup_nil in Ha].
      injection Ha as <-. simpl. split; [lia|done].
    + apply NoDup_singleton.
  - reflexivity.
  - simpl. lia.
  - apply Hentry. reflexivity.
Defined.

(** ** The cached total score *)

Lemma fold_left_gain l z :
  fold_left (fun acc a => if completed a >? 0 then acc + score a else acc) l z
  = z + foldr Z.add 0 (gain <$> l).
Proof.
  revert z. induction l as [|a l IH]; intros z; csimpl; [lia|].
  rewrite IH. unfold gain. destruct (completed a >? 0); lia.
Qed.

Lemma recount_score_gains l : recount_score l = foldr Z.add 0 (gain <$> l).
Proof. unfold recount_score. by rewrite fold_left_gain. Qed.

Lemma foldr_add_app l1 l2 :
  foldr Z.add 0 (l1 ++ l2) = foldr Z.add 0 l1 + foldr Z.add 0 l2.
Proof. induction l1 as [|x l1 IH]; simpl; lia. Qed.

(** On a log whose times are not negative the recount is the sum of the
    scores of the entries with a nonzero completion time. *)
Lemma recount_completed_score l :
  Forall (fun a => 0 ≤ completed a) l → recount_score l = completed_score l.
Proof.
  rewrite recount_score_gains. unfold completed_score.
  induction 1 as [|a l Ha Hl IH]; [done|].
  rewrite filter_cons. csimpl. rewrite IH. unfold gain.
  destruct (Z.gtb_spec (completed a) 0); destruct (decide (completed a ≠ 0));
    csimpl; lia.
Qed.

Lemma log_ok_times s : log_ok s → Forall (fun a => 0 ≤ completed a) (achievements s).
Proof.
  intros (_ & Hpart & _). apply Forall_lookup. intros j a Ha.
  destruct (Hpart j a Ha) as [Hlo Hhi].
  destruct (decide (j < incompleteCount s)%nat); [rewrite Hlo; [done|done]|].
  specialize (Hhi ltac:(lia)). lia.
Qed.

Lemma achievement_add_score_consistent E id w :
  score_consistent (sd w) → score_consistent (sd (achievement_add E id w).2).
Proof.
  intros Hsc. destruct (achievement_add E id w) as [[i|] w'] eqn:Hadd;
    [|by apply achievement_add_None in Hadd as ->].
  apply achievement_add_Some in Hadd as (adb & _ & _ & -> & Hsd & _).
  unfold score_consistent in *. simpl. rewrite Hsd. simpl.
  rewrite Hsc, !recount_score_gains.
  rewrite <- (take_drop (incompleteCount (sd w)) (achievements (sd w))) at 1.
  rewrite !fmap_app, fmap_cons, !foldr_add_app.
  assert (∀ i c r p, gain (mk_achievement i c 0 r p) = 0) as Hfresh by done.
  cbn [foldr]. rewrite Hfresh. lia.
Qed.

(** Insertions, updates and events keep the cached total equal to the
    recount. *)
Lemma core_score_consistent E fuel :
  (∀ g args w w', score_consistent (sd w) →
     achievement_update_objective E fuel g args w = Done w' → score_consistent (sd w'))
  ∧ (∀ ad g c w b w', score_consistent (sd w) →
       achievement_update_objectives E fuel ad g c w = Done (b, w') →
       score_consistent (sd w'))
  ∧ (∀ id c w b w', score_consistent (sd w) →
       achievement_update_achievement E fuel id c w = Done (b, w') →
       score_consistent (sd w'))
  ∧ (∀ ad w z w', score_consistent (sd w) →
       achievement_check_groups E fuel ad w = Done (z, w') → score_consistent (sd w')).
Proof.
  apply (core_invariant E (fun w => score_consistent (sd w))).
  - done.
  - intros w id i w' Hsc _ Hadd.
    pose proof (achievement_add_score_consistent E id w Hsc) as H. by rewrite Hadd in H.
  - intros w i a c Hsc _ _. unfold score_consistent in *. simpl.
    rewrite Hsc, !recount_score_gains. f_equal. symmetry. by apply fmap_alter_same.
  - intros w id adb i a w1 info w2 _ _ _ _ _ _ _ Hlevel.
    apply level_update_Done in Hlevel as (lv & _ & ->). done.
  - done.
Qed.

(** Without removals the cached total stays the sum of the completed
    scores. *)
Lemma score_consistent_without_removal E ops fuel w w' :
  clock_positive E → log_ok (sd w) → score_consistent (sd w) →
  Forall (fun op => ∀ id, op ≠ op_remove id) ops →
  run_operations E fuel ops w = Done w' →
  total_score (sd w') = completed_score (achievements (sd w')).
Proof.
  intros Hclock Hok Hsc Hops Hrun.
  cut (log_ok (sd w') ∧ score_consistent (sd w')).
  { intros [Hok' Hsc']. rewrite Hsc'. by apply recount_completed_score, log_ok_times. }
  revert w Hok Hsc Hrun. induction Hops as [|op ops Hop Hops IH]; intros w Hok Hsc Hrun;
    simpl in Hrun; [by injection Hrun as <-|].
  inv_bind Hrun. apply (IH a); [by eapply run_operation_log_ok| |done].
  destruct (core_score_consistent E fuel) as (HU & _ & HA & _).
  destruct op as [id|id|id complete|group args]; simpl in Hm.
  - injection Hm as <-. by apply achievement_add_score_consistent.
  - by destruct (Hop id).
  - inv_bind Hm. destruct a0 as [b w1]. injection Hm as <-. eauto.
  - eauto.
Qed.

(** ** The loops over the targets *)

Lemma at_slot_insert (l : list Z) k v k' :
  at_slot (<[k:=v]> l) k'
  = if decide (k = k' ∧ (k < length l)%nat) then v else at_slot l k'.
Proof.
  unfold at_slot. case_decide as Hk.
  - destruct Hk as [<- Hlt]. by rewrite list_lookup_insert_eq.
  - destruct (decide (k = k')) as [<-|Hne].
    + rewrite list_insert_ge; [done|lia].
    + by rewrite list_lookup_insert_ne.
Qed.

Section slot_fold.
Context (hit : achievement_target → Z → bool) (new : nat → achievement_target → Z → Z).

Lemma slot_fold_cons kt targets st :
  slot_fold hit new (kt :: targets) st
  = slot_fold hit new targets
      (if hit kt.2 (at_slot st.1 kt.1)
       then (<[kt.1 := new kt.1 kt.2 (at_slot st.1 kt.1)]> st.1, true) else st).
Proof. done. Qed.

Lemma slot_fold_spec targets st :
  NoDup targets.*1 → Forall (fun kt => (kt.1 < length st.1)%nat) targets →
  let r := slot_fold hit new targets st in
  length r.1 = length st.1
  ∧ (∀ k t, (k, t) ∈ targets →
            at_slot r.1 k = if hit t (at_slot st.1 k) then new k t (at_slot st.1 k)
                            else at_slot st.1 k)
  ∧ (∀ k, k ∉ targets.*1 → at_slot r.1 k = at_slot st.1 k)
  ∧ r.2 = st.2 || existsb (fun kt => hit kt.2 (at_slot st.1 kt.1)) targets.
Proof.
  revert st. induction targets as [|[k0 t0] targets IH]; intros st Hnd Hlt.
  { simpl. repeat split; [intros ? ? []%elem_of_nil | by rewrite orb_false_r]. }
  rewrite fmap_cons in Hnd. apply NoDup_cons in Hnd as [Hk0 Hnd].
  apply Forall_cons in Hlt as [Hlt0 Hlt]. simpl in Hk0, Hlt0.
  cbv zeta. rewrite slot_fold_cons. cbn [fst snd].
  set (st1 := if hit t0 (at_slot st.1 k0) then _ else _).
  assert (length st1.1 = length st.1) as Hlen1.
  { subst st1. destruct (hit _ _); simpl; [by rewrite length_insert | done]. }
  assert (∀ k, k ≠ k0 → at_slot st1.1 k = at_slot st.1 k) as Hother.
  { intros k Hk. subst st1. destruct (hit _ _); simpl; [|done].
    rewrite at_slot_insert. case_decide as Hkk; [by destruct Hkk | done]. }
  assert (at_slot st1.1 k0 = if hit t0 (at_slot st.1 k0)
                             then new k0 t0 (at_slot st.1 k0)
                             else at_slot st.1 k0) as Hk0'.
  { subst st1. destruct (hit _ _); simpl; [|done].
    rewrite at_slot_insert. case_decide as Hkk; [done|]. by destruct Hkk. }
  assert (st1.2 = st.2 || hit t0 (at_slot st.1 k0)) as Hflag1.
  { subst st1. destruct (hit _ _); simpl; [by rewrite orb_true_r | by rewrite orb_false_r]. }
  destruct (IH st1) as (Hlen & Hin & Hout & Hflag); [done| |].
  { eapply Forall_impl; [done|]. intros kt ?. by rewrite Hlen1. }
  assert (∀ k t, (k, t) ∈ targets → k ≠ k0) as Hne.
  { intros k t Hkt ->. apply Hk0. apply list_elem_of_fmap. by exists (k0, t). }
  split; [by rewrite Hlen|]. split; [|split].
  - intros k t Hkt. apply elem_of_cons in Hkt as [[= -> ->]|Hkt].
    + by rewrite Hout.
    + rewrite (Hin k t Hkt), Hother by eauto. done.
  - intros k Hk. rewrite fmap_cons in Hk. apply not_elem_of_cons in Hk as [Hk Hk'].
    rewrite Hout by done. by apply Hother.
  - rewrite Hflag, Hflag1, <- orb_assoc. f_equal. simpl. f_equal.
    apply eq_iff_eq_true. rewrite !existsb_exists.
    split; intros ([k t] & Hkt & Hhit); exists (k, t); (split; [done|]);
      apply list_elem_of_In in Hkt; simpl in *;
      [rewrite <- Hother by eauto | rewrite Hother by eauto]; done.
Qed.

(** The flag is a by-product: the counters do not depend on it. *)
Lemma slot_fold_counters targets cur flag flag' :
  (slot_fold hit new targets (cur, flag)).1 = (slot_fold hit new targets (cur, flag')).1.
Proof.
  revert cur flag flag'. induction targets as [|kt targets IH]; intros cur flag flag';
    [done|].
  rewrite !slot_fold_cons. cbn [fst snd].
  destruct (hit _ _); [done | apply IH].
Qed.

End slot_fold.

Lemma count_kills_slot_fold targets mob cur :
  count_kills targets mob cur
  = slot_fold (fun t c => (target_mob t =? mob) && (c <? target_count t))
      (fun _ _ c => c + 1) targets (cur, false).
Proof. reflexivity. Qed.

Lemma accumulate_slot_fold targets update_count cur :
  accumulate targets update_count cur
  = (slot_fold (fun t c => c <? target_count t)
       (fun k _ c => c + at_slot update_count k) targets (cur, false)).1.
Proof.
  generalize false. revert cur.
  induction targets as [|kt targets IH]; intros cur flag; [done|].
  rewrite slot_fold_cons. unfold accumulate in *. cbn [fold_left fst snd].
  destruct (_ <? _).
  - by rewrite (IH _ true).
  - apply IH.
Qed.

Lemma fill_targets_slot_fold targets c :
  fill_targets targets c
  = (slot_fold (fun _ _ => true) (fun _ t _ => target_count t) targets (c, false)).1.
Proof.
  generalize false. revert c.
  induction targets as [|kt targets IH]; intros c flag; [done|].
  rewrite slot_fold_cons. unfold fill_targets in *. cbn [fold_left fst snd].
  by rewrite (IH _ true).
Qed.

Lemma all_targets_met_spec targets cur :
  all_targets_met targets cur = true ↔
  ∀ k t, (k, t) ∈ targets → target_count t ≤ at_slot cur k.
Proof.
  unfold all_targets_met. rewrite forallb_forall. split.
  - intros H k t Hkt. apply list_elem_of_In, H in Hkt. simpl in Hkt. lia.
  - intros H [k t] Hkt. apply list_elem_of_In, H in Hkt. simpl. lia.
Qed.

(** The slots of a completed entry hold the required counts. *)
Lemma fill_targets_spec targets c k t :
  NoDup targets.*1 → Forall (fun kt => (kt.1 < length c)%nat) targets →
  (k, t) ∈ targets → at_slot (fill_targets targets c) k = target_count t.
Proof.
  intros Hnd Hlt Hkt. rewrite fill_targets_slot_fold.
  destruct (slot_fold_spec (fun _ _ => true) (fun _ t _ => target_count t)
              targets (c, false) Hnd Hlt) as (_ & Hin & _).
  by rewrite (Hin k t Hkt).
Qed.

Lemma at_slot_nonzero cur k :
  at_slot cur k ≠ 0 → existsb (fun c => negb (c =? 0)) cur = true.
Proof.
  unfold at_slot. intros H. destruct (cur !! k) as [v|] eqn:Hv; [|done].
  apply existsb_exists. exists v. split.
  - apply list_elem_of_In, list_elem_of_lookup. eauto.
  - simpl in H. apply negb_true_iff, Z.eqb_neq. done.
Qed.

Lemma at_slot_zeros k : at_slot zeros k = 0.
Proof.
  unfold at_slot, zeros. destruct (replicate _ _ !! k) as [v|] eqn:Hv; [|done].
  by apply lookup_replicate in Hv as [-> _].
Qed.

(** ** What an update does to the entry of its achievement *)

Section effect.
Context (E : env).
Context (Hclock : clock_positive E) (Hlevel0 : is_Some (achievement_level_db E !! 0)).

(** In a well-formed log the search of the incomplete block finds the
    incomplete entry of the id. *)
Lemma ARR_FIND_incomplete s i a :
  log_ok s → achievements s !! i = Some a → completed a = 0 →
  ARR_FIND 0 (incompleteCount s) (has_id (achievement_id a)) (achievements s) = i
  ∧ (i < incompleteCount s)%nat.
Proof.
  intros (Hle & Hpart & Hnd) Ha Hc.
  assert (i < incompleteCount s)%nat as Hi.
  { destruct (Hpart i a Ha) as [_ Hhi].
    destruct (decide (i < incompleteCount s)%nat); [done|].
    specialize (Hhi ltac:(lia)). lia. }
  split; [|done].
  destruct (ARR_FIND_hit (has_id (achievement_id a)) (achievements s) 0
              (incompleteCount s) i a) as (b & Hb & Hid & _);
    [lia | done | apply Z.eqb_refl |].
  rewrite ids_distinct in Hnd. apply (Hnd _ _ _ _ Hb Ha). by apply Z.eqb_eq in Hid.
Qed.

Lemma update_achievement_progress f id w adb i a :
  log_ok (sd w) → db_find (achievement_db E) id = Some adb →
  achievements (sd w) !! i = Some a → achievement_id a = id → completed a = 0 →
  achievement_update_achievement E (S f) id false w = Done (true, notify_update a w).
Proof.
  intros Hok Hdb Ha Hid Hc.
  destruct (ARR_FIND_incomplete _ _ _ Hok Ha Hc) as [Hfind Hi]. rewrite Hid in Hfind.
  rewrite achievement_update_achievement_S. unfold achievement_update_achievement_body.
  rewrite Hdb, Hfind. case_decide; [lia|]. rewrite Ha.
  destruct (Z.gtb_spec (completed a) 0); [lia|done].
Qed.

Lemma for_each_check_groups_keeps a0 f w w' :
  0 < completed a0 → a0 ∈ achievements (sd w) →
  for_each (fun ach w => '(_, w') ← achievement_check_groups E f ach w; Done w')
    (achievement_db E) w = Done w' →
  a0 ∈ achievements (sd w').
Proof.
  intros Hpos Hin. revert Hin.
  apply (for_each_inv (fun w => a0 ∈ achievements (sd w))).
  intros ad w1 w1' Hin1 Hrun. inv_bind Hrun. destruct a as [z w2].
  injection Hrun as <-.
  destruct (core_keeps_completed E a0 f Hpos) as (_ & _ & _ & HG). eauto.
Qed.

Lemma update_achievement_completes f id w adb i a :
  log_ok (sd w) → (2 * absent E (sd w) + 4 ≤ S f)%nat →
  db_find (achievement_db E) id = Some adb →
  achievements (sd w) !! i = Some a → achievement_id a = id → completed a = 0 →
  ∃ w', achievement_update_achievement E (S f) id true w = Done (true, w')
        ∧ log_ok (sd w')
        ∧ log_lookup (sd w') id
          = Some (set_completed (time E (clock w))
                    (set_count (fill_targets (db_targets adb) (count a)) a)).
Proof.
  intros Hok Hfuel Hdb Ha Hid Hc.
  destruct (ARR_FIND_incomplete _ _ _ Hok Ha Hc) as [Hfind Hi]. rewrite Hid in Hfind.
  destruct (core_total E Hclock Hlevel0 (S f)) as (_ & _ & HA & _).
  destruct (HA id true w Hok Hfuel) as [[b w'] Hrun]. exists w'.
  destruct (core_log_ok E Hclock (S f)) as (_ & _ & HAok & _).
  assert (log_ok (sd w')) as Hok' by eauto.
  pose proof Hrun as Hsteps.
  rewrite achievement_update_achievement_S in Hsteps.
  unfold achievement_update_achievement_body in Hsteps.
  rewrite Hdb, Hfind in Hsteps. case_decide; [lia|]. rewrite Ha in Hsteps.
  destruct (Z.gtb_spec (completed a) 0); [lia|].
  inv_bind Hsteps. inv_bind Hsteps. destruct a1 as [info w2]. inv_bind Hsteps.
  destruct (achievements (sd a1) !! _) as [a'|]; [|done]. injection Hsteps as <- <-.
  split; [done|]. split; [done|].
  set (done_entry := set_completed _ _).
  apply achievement_level_Done, level_update_Done in Hm0 as (lv & _ & ->).
  eapply mark_completed_Done in Hm as (_ & _ & Hlook & _); [|done..].
  assert (done_entry ∈ achievements (sd (notify_update a' a1))) as Hin.
  { simpl. eapply for_each_check_groups_keeps; [| |done].
    - apply Hclock.
    - simpl. apply list_elem_of_lookup. eexists. rewrite Hlook.
      case_decide; [done|done]. }
  apply log_ok_lookup in Hin; [|done]. rewrite <- Hin. f_equal. subst done_entry.
  simpl. done.
Qed.

Lemma apply_changes_effect fuel ad w index e cur complete :
  log_ok (sd w) → (2 * absent E (sd w) + 4 ≤ fuel)%nat →
  db_find (achievement_db E) (db_achievement_id ad) = Some ad →
  achievements (sd w) !! index = Some e →
  achievement_id e = db_achievement_id ad → completed e = 0 →
  ∃ w', achievement_update_achievement E fuel (db_achievement_id ad) complete
          (store_counts index cur w) = Done (true, w')
        ∧ log_ok (sd w')
        ∧ log_lookup (sd w') (db_achievement_id ad)
          = Some (entry_after E ad w e cur complete).
Proof.
  intros Hok Hfuel Hdb He Hid Hc. destruct fuel as [|f]; [lia|].
  pose proof (store_counts_log_ok index cur w Hok) as Hok1.
  assert (achievements (sd (store_counts index cur w)) !! index = Some (set_count cur e))
    as He1 by (simpl; by rewrite list_lookup_alter_eq, He).
  assert (absent E (sd (store_counts index cur w)) ≤ absent E (sd w))%nat as Habs.
  { apply absent_mono. intros id0. simpl. by rewrite fmap_alter_same. }
  destruct complete; unfold entry_after.
  - destruct (update_achievement_completes f (db_achievement_id ad)
                (store_counts index cur w) ad index (set_count cur e))
      as (w' & Hrun & Hok' & Hfind); [done|lia|done..|].
    exists w'. split; [done|]. split; [done|]. rewrite Hfind. done.
  - rewrite (update_achievement_progress f (db_achievement_id ad)
               (store_counts index cur w) ad index (set_count cur e)) by done.
    eexists. split; [done|]. split; [done|].
    rewrite <- Hid. apply (log_ok_lookup _ (set_count cur e)); [done|].
    apply list_elem_of_lookup. eauto.
Qed.

(** The update of one catalog entry whose rule reports a change. *)
Lemma update_objectives_effect f ad group update_count w complete cur :
  log_ok (sd w) → (2 * absent E (sd w) + 5 ≤ S f)%nat →
  group ≠ AG_NONE → group ≠ AG_MAX → db_group ad = group →
  db_find (achievement_db E) (db_achievement_id ad) = Some ad →
  open_for E ad (sd w) →
  objectives_switch E ad group update_count (count (current_entry ad (sd w))) (sd w)
    = Some (true, complete, cur) →
  (log_lookup (sd w) (db_achievement_id ad) = None →
   complete || existsb (fun c => negb (c =? 0)) cur = true) →
  ∃ w', achievement_update_objectives E (S f) ad group update_count w = Done (true, w')
        ∧ log_ok (sd w')
        ∧ log_lookup (sd w') (db_achievement_id ad)
          = Some (entry_after E ad w (current_entry ad (sd w)) cur complete).
Proof.
  intros Hok Hfuel Hnone Hmax Hgroup Hdb Hopen Hswitch Hcounter.
  rewrite achievement_update_objectives_S. unfold achievement_update_objectives_body.
  case_decide as Hg; [by destruct Hg|]. case_decide; [done|].
  rewrite ARR_FIND_find. unfold open_for, current_entry, log_lookup in *.
  destruct (List.find _ (achievements (sd w))) as [e|] eqn:Hfind.
  - rewrite Hopen. simpl. rewrite Hswitch.
    destruct (apply_changes_effect f ad w
                (ARR_FIND 0 (length (achievements (sd w)))
                   (has_id (db_achievement_id ad)) (achievements (sd w)))
                e cur complete) as (w' & Hrun & Hok' & Hfind');
      [done | lia | done | by rewrite ARR_FIND_find | | done |].
    { by apply find_has_id in Hfind as [_ ?]. }
    rewrite Hrun. simpl. eauto.
  - change (count (fresh_entry ad)) with (replicate MAX_ACHIEVEMENT_OBJECTIVES 0)
      in Hswitch.
    rewrite Hopen. cbn [negb]. rewrite Hswitch, (Hcounter eq_refl).
    destruct (achievement_add_fresh E _ w ad Hdb Hfind) as [w1 Hadd]. rewrite Hadd.
    pose proof (achievement_add_log_ok E (db_achievement_id ad) w Hok) as Hok1.
    rewrite Hadd in Hok1. simpl in Hok1.
    pose proof (absent_add E _ w _ w1 Hadd) as Habs.
    apply achievement_add_Some in Hadd as (adb & Hdb' & _ & _ & Hsd & _ & Hclk & _).
    assert (adb = ad) as -> by congruence.
    destruct (apply_changes_effect f ad w1 (incompleteCount (sd w)) (fresh_entry ad)
                cur complete) as (w' & Hrun & Hok' & Hfind'); [done|lia|done| |done..|].
    { rewrite Hsd. simpl. rewrite lookup_inserted by apply Hok.
      case_decide; [lia|]. case_decide; [done|lia]. }
    rewrite Hrun. simpl. exists w'. split; [done|]. split; [done|].
    unfold log_lookup in Hfind'. rewrite Hfind'. unfold entry_after. by rewrite Hclk.
Qed.

(** Every early return leaves the world as it is. *)
Lemma update_objectives_abort f ad group update_count w :
  objectives_switch E ad group update_count (count (current_entry ad (sd w))) (sd w)
    = None →
  achievement_update_objectives E (S f) ad group update_count w = Done (false, w).
Proof.
  intros Hswitch.
  rewrite achievement_update_objectives_S. unfold achievement_update_objectives_body.
  case_decide; [done|]. case_decide; [done|].
  rewrite ARR_FIND_find. unfold current_entry, log_lookup in Hswitch.
  destruct (List.find _ (achievements (sd w))) as [e|].
  - destruct (completed e >? 0); [done|]. by rewrite Hswitch.
  - destruct (negb _); [done|].
    change (count (fresh_entry ad)) with (replicate MAX_ACHIEVEMENT_OBJECTIVES 0)
      in Hswitch.
    by rewrite Hswitch.
Qed.

(** A new entry that would hold nothing is not created. *)
Lemma update_objectives_nothing f ad group update_count w changed cur :
  group ≠ AG_NONE → group ≠ AG_MAX → db_group ad = group →
  log_lookup (sd w) (db_achievement_id ad) = None →
  achievement_check_dependent E (sd w) (db_achievement_id ad) = true →
  objectives_switch E ad group update_count zeros (sd w) = Some (changed, false, cur) →
  existsb (fun c => negb (c =? 0)) cur = false →
  achievement_update_objectives E (S f) ad group update_count w = Done (true, w).
Proof.
  intros Hnone Hmax Hgroup Hnew Hdep Hswitch Hzero.
  rewrite achievement_update_objectives_S. unfold achievement_update_objectives_body.
  case_decide as Hg; [by destruct Hg|]. case_decide; [done|].
  rewrite ARR_FIND_find. unfold log_lookup in Hnew. rewrite Hnew, Hdep. cbn [negb].
  unfold zeros in Hswitch. rewrite Hswitch. cbn [orb]. by rewrite Hzero.
Qed.

End effect.

(** ** C5: the rule of the monster-keyed groups *)

Lemma objectives_switch_monster E ad group update_count cur0 s :
  group = AG_BATTLE ∨ group = AG_TAMING → db_targets ad ≠ [] →
  objectives_switch E ad group update_count cur0 s
  = let r := count_kills (db_targets ad) (at_slot update_count 0) cur0 in
    if r.2 then Some (true, all_targets_met (db_targets ad) r.1, r.1) else None.
Proof.
  intros [-> | ->] Hne; unfold objectives_switch;
    (destruct (db_targets ad) as [|kt rest] eqn:Ht; [done|]);
    by destruct (count_kills _ _ _).
Qed.

Lemma current_entry_open E ad s :
  open_for E ad s →
  completed (current_entry ad s) = 0
  ∧ achievement_id (current_entry ad s) = db_achievement_id ad.
Proof.
  unfold open_for, current_entry, log_lookup.
  destruct (List.find _ _) as [e|] eqn:Hfind; [|done].
  intros ->. by apply find_has_id in Hfind as [_ ->].
Qed.

Lemma entry_after_spec E ad w e cur complete :
  clock_positive E → completed e = 0 → targets_ok (db_targets ad) →
  length cur = MAX_ACHIEVEMENT_OBJECTIVES →
  let e' := entry_after E ad w e cur complete in
  (completed e' ≠ 0 ↔ complete = true)
  ∧ (completed e' = 0 → count e' = cur)
  ∧ (completed e' ≠ 0 →
     ∀ k t, (k, t) ∈ db_targets ad → at_slot (count e') k = target_count t).
Proof.
  intros Hclock Hc [Hnd Hlt] Hlen. unfold entry_after.
  destruct complete; simpl.
  - pose proof (Hclock (clock w)). split; [split; [done|lia]|]. split; [lia|].
    intros _ k t Hkt. apply fill_targets_spec; [done| |done].
    by rewrite Hlen.
  - rewrite Hc. split; [split; [done|done]|]. split; [done|done].
Qed.

(** C5.  For a battle or taming event on an achievement with targets: each
    slot whose monster is the event's and whose counter is below the required
    count goes up by one, the other counters stay; if no slot counts, the
    update returns false and the world is as before; otherwise the entry
    (created if need be) holds the new counters and is completed exactly when
    every slot has reached its required count.  Three kills of monster 1002
    for a single slot requiring 3 create the entry with count 1, then 2, and
    complete it with count 3. *)
Theorem monster_rule E ad group update_count fuel w :
  clock_positive E → is_Some (achievement_level_db E !! 0) →
  log_ok (sd w) → (core_fuel E ≤ fuel)%nat →
  group = AG_BATTLE ∨ group = AG_TAMING → db_group ad = group →
  db_find (achievement_db E) (db_achievement_id ad) = Some ad →
  db_targets ad ≠ [] → targets_ok (db_targets ad) →
  open_for E ad (sd w) →
  length (count (current_entry ad (sd w))) = MAX_ACHIEVEMENT_OBJECTIVES →
  (∃ cur,
     (∀ k t, (k, t) ∈ db_targets ad →
        at_slot cur k
        = if decide (counts_for (at_slot update_count 0) t
                       (at_slot (count (current_entry ad (sd w))) k))
          then at_slot (count (current_entry ad (sd w))) k + 1
          else at_slot (count (current_entry ad (sd w))) k)
     ∧ (∀ k, k ∉ (db_targets ad).*1 →
          at_slot cur k = at_slot (count (current_entry ad (sd w))) k)
     ∧ ((∀ k t, (k, t) ∈ db_targets ad →
           ¬ counts_for (at_slot update_count 0) t
               (at_slot (count (current_entry ad (sd w))) k)) →
        achievement_update_objectives E fuel ad group update_count w = Done (false, w))
     ∧ ((∃ k t, (k, t) ∈ db_targets ad
                ∧ counts_for (at_slot update_count 0) t
                    (at_slot (count (current_entry ad (sd w))) k)) →
        ∃ w' e',
          achievement_update_objectives E fuel ad group update_count w = Done (true, w')
          ∧ log_lookup (sd w') (db_achievement_id ad) = Some e'
          ∧ (completed e' ≠ 0 ↔
             ∀ k t, (k, t) ∈ db_targets ad → target_count t ≤ at_slot cur k)
          ∧ (completed e' = 0 → count e' = cur)
          ∧ (completed e' ≠ 0 →
             ∀ k t, (k, t) ∈ db_targets ad → at_slot (count e') k = target_count t)))
  ∧ ∃ w1 w2 w3,
      achievement_update_objective (sample_env [kill_1002]) 10 AG_BATTLE [1002] new_player
        = Done w1
      ∧ achievement_update_objective (sample_env [kill_1002]) 10 AG_BATTLE [1002] w1
        = Done w2
      ∧ achievement_update_objective (sample_env [kill_1002]) 10 AG_BATTLE [1002] w2
        = Done w3
      ∧ achievements (sd w1) = [mk_achievement 7 [1; 0; 0; 0; 0; 0; 0; 0; 0; 0] 0 0 10]
      ∧ incompleteCount (sd w1) = 1%nat
      ∧ achievements (sd w2) = [mk_achievement 7 [2; 0; 0; 0; 0; 0; 0; 0; 0; 0] 0 0 10]
      ∧ incompleteCount (sd w2) = 1%nat
      ∧ achievements (sd w3) = [mk_achievement 7 [3; 0; 0; 0; 0; 0; 0; 0; 0; 0] 1000 0 10]
      ∧ incompleteCount (sd w3) = 0%nat.
Proof.
  intros Hclock Hlevel0 Hok Hfuel Hgroup Hadgroup Hdb Hne Htargets Hopen Hlen.
  split.
  2:{ do 3 eexists.
      split; [vm_compute; reflexivity|]. split; [vm_compute; reflexivity|].
      split; [vm_compute; reflexivity|]. split; [vm_compute; reflexivity|].
      split; [vm_compute; reflexivity|]. split; [vm_compute; reflexivity|].
      split; [vm_compute; reflexivity|]. split; vm_compute; reflexivity. }
  set (e := current_entry ad (sd w)) in *.
  set (mob := at_slot update_count 0).
  destruct (current_entry_open E ad (sd w) Hopen) as [Hc Hid]. fold e in Hc, Hid.
  pose proof (objectives_switch_monster E ad group update_count (count e) (sd w)
                Hgroup Hne) as Hswitch.
  cbv zeta in Hswitch. rewrite count_kills_slot_fold in Hswitch.
  destruct Htargets as [Hnd Hlt].
  destruct (slot_fold_spec (fun t c => (target_mob t =? mob) && (c <? target_count t))
              (fun _ _ c => c + 1) (db_targets ad) (count e, false))
    as (Hlencur & Hin & Hout & Hflag); [done|by simpl; rewrite Hlen|].
  fold mob in Hswitch.
  set (r := slot_fold _ _ _ _) in *. simpl in Hlencur, Hin, Hout, Hflag.
  assert (∀ t c, (target_mob t =? mob) && (c <? target_count t) = true ↔ counts_for mob t c)
    as Hhit.
  { intros t c. unfold counts_for. rewrite andb_true_iff. lia. }
  exists r.1. split; [|split; [done|split]].
  - intros k t Hkt. rewrite (Hin k t Hkt).
    destruct (_ && _) eqn:Hb; case_decide as Hd; try done.
    + apply Hhit in Hb. done.
    + apply Hhit in Hd. congruence.
  - intros Hnone.
    assert (r.2 = false) as Hr2.
    { rewrite Hflag. apply not_true_is_false. intros Hex.
      apply existsb_exists in Hex as ([k t] & Hkt & Hb).
      apply list_elem_of_In in Hkt. apply Hhit in Hb. by apply (Hnone k t). }
    rewrite Hr2 in Hswitch.
    destruct fuel as [|f]; [unfold core_fuel in Hfuel; lia|].
    by apply update_objectives_abort.
  - intros (k & t & Hkt & Hcounts).
    assert (r.2 = true) as Hr2.
    { rewrite Hflag. apply existsb_exists. exists (k, t).
      split; [by apply list_elem_of_In|]. by apply Hhit. }
    rewrite Hr2 in Hswitch.
    destruct fuel as [|f]; [unfold core_fuel in Hfuel; lia|].
    destruct (update_objectives_effect E Hclock Hlevel0 f ad group update_count w
                (all_targets_met (db_targets ad) r.1) r.1)
      as (w' & Hrun & Hok' & Hfind); [done| | | |done..| |].
    { pose proof (absent_bound E (sd w)). unfold core_fuel in Hfuel. lia. }
    { by destruct Hgroup as [-> | ->]. }
    { by destruct Hgroup as [-> | ->]. }
    { intros Hnew. apply orb_true_iff. right. apply (at_slot_nonzero _ k).
      rewrite (Hin k t Hkt). apply Hhit in Hcounts as Hb. rewrite Hb.
      subst e. unfold current_entry. rewrite Hnew. simpl. rewrite at_slot_zeros. lia. }
    exists w', (entry_after E ad w e r.1 (all_targets_met (db_targets ad) r.1)).
    split; [done|]. split; [done|].
    destruct (entry_after_spec E ad w e r.1 (all_targets_met (db_targets ad) r.1))
      as (Hdone & Hprogress & Hfilled); [done|done|done|by rewrite Hlencur|].
    split; [|split; [done|done]].
    rewrite Hdone. apply all_targets_met_spec.
Qed.

Lemma monster_rule_witness :
  ∃ w' e',
    achievement_update_objectives (sample_env [kill_1002]) 10 kill_1002 AG_BATTLE
      (event_counts [1002]) new_player = Done (true, w')
    ∧ log_lookup (sd w') 7 = Some e'.
Proof.
  destruct (monster_rule (sample_env [kill_1002]) kill_1002 AG_BATTLE
              (event_counts [1002]) 10 new_player) as [(cur & _ & _ & _ & Hfire) _].
  - apply sample_clock_positive.
  - by eexists.
  - apply new_player_log_ok.
  - vm_compute. lia.
  - by left.
  - reflexivity.
  - reflexivity.
  - discriminate.
  - split; [apply NoDup_singleton|]. repeat constructor.
  - reflexivity.
  - reflexivity.
  - destruct Hfire as (w' & e' & Hrun & Hfind & _).
    + exists 0%nat, (mk_target 1002 3). split; [apply list_elem_of_here|].
      split; [reflexivity|]. vm_compute. reflexivity.
    + exists w', e'. split; assumption.
Defined.

(** ** C8: the rule of the zeny-spend group *)

Lemma objectives_switch_zeny E ad code update_count cur0 s :
  db_targets ad ≠ [] → db_condition ad = Some code →
  objectives_switch E ad AG_SPEND_ZENY update_count cur0 s
  = if achievement_check_condition E code s
    then Some (true,
               all_targets_met (db_targets ad)
                 (accumulate (db_targets ad) update_count cur0),
               accumulate (db_targets ad) update_count cur0)
    else None.
Proof.
  intros Hne Hcond. unfold objectives_switch. rewrite Hcond.
  by destruct (db_targets ad) as [|kt rest] eqn:Ht.
Qed.

Lemma existsb_nonzero_false cur :
  (∀ k, at_slot cur k = 0) → existsb (fun c => negb (c =? 0)) cur = false.
Proof.
  intros Hzero. apply not_true_is_false. intros Hex.
  apply existsb_exists in Hex as (v & Hin & Hv).
  apply list_elem_of_In, list_elem_of_lookup in Hin as [k Hk].
  specialize (Hzero k). unfold at_slot in Hzero. rewrite Hk in Hzero. simpl in Hzero.
  subst v. done.
Qed.

(** C8.  For a zeny-spend event the event values are added to the slots still
    below their required counts.  If the guard evaluates to 0 the update
    returns false and the world, with the stored entry, is as before: the
    sums are dropped.  If the guard succeeds the sums are written to the
    entry, which is completed exactly when every slot has reached its
    required count (completion sets the slots to the required counts); only
    an update that would create an entry with nothing in it creates none. *)
Theorem zeny_rule E ad code update_count fuel w :
  clock_positive E → is_Some (achievement_level_db E !! 0) →
  log_ok (sd w) → (core_fuel E ≤ fuel)%nat →
  db_group ad = AG_SPEND_ZENY →
  db_find (achievement_db E) (db_achievement_id ad) = Some ad →
  db_targets ad ≠ [] → db_condition ad = Some code → targets_ok (db_targets ad) →
  open_for E ad (sd w) →
  length (count (current_entry ad (sd w))) = MAX_ACHIEVEMENT_OBJECTIVES →
  let e := current_entry ad (sd w) in
  let cur := accumulate (db_targets ad) update_count (count e) in
  let met := ∀ k t, (k, t) ∈ db_targets ad → target_count t ≤ at_slot cur k in
  (∀ k t, (k, t) ∈ db_targets ad →
     at_slot cur k = if decide (at_slot (count e) k < target_count t)
                     then at_slot (count e) k + at_slot update_count k
                     else at_slot (count e) k)
  ∧ (∀ k, k ∉ (db_targets ad).*1 → at_slot cur k = at_slot (count e) k)
  ∧ (script_value E code (sd w) = 0 →
     achievement_update_objectives E fuel ad AG_SPEND_ZENY update_count w
       = Done (false, w))
  ∧ (script_value E code (sd w) ≠ 0 →
     is_Some (log_lookup (sd w) (db_achievement_id ad)) ∨ met ∨ (∃ k, at_slot cur k ≠ 0) →
     ∃ w' e',
       achievement_update_objectives E fuel ad AG_SPEND_ZENY update_count w
         = Done (true, w')
       ∧ log_lookup (sd w') (db_achievement_id ad) = Some e'
       ∧ (completed e' ≠ 0 ↔ met)
       ∧ (completed e' = 0 → count e' = cur)
       ∧ (completed e' ≠ 0 →
          ∀ k t, (k, t) ∈ db_targets ad → at_slot (count e') k = target_count t))
  ∧ (script_value E code (sd w) ≠ 0 →
     log_lookup (sd w) (db_achievement_id ad) = None → ¬ met → (∀ k, at_slot cur k = 0) →
     achievement_update_objectives E fuel ad AG_SPEND_ZENY update_count w
       = Done (true, w)).
Proof.
  intros Hclock Hlevel0 Hok Hfuel Hadgroup Hdb Hne Hcond Htargets Hopen Hlen e cur met.
  destruct (current_entry_open E ad (sd w) Hopen) as [Hc Hid]. fold e in Hc, Hid, Hlen.
  pose proof (objectives_switch_zeny E ad code update_count (count e) (sd w) Hne Hcond)
    as Hswitch. fold cur in Hswitch.
  pose proof Htargets as [Hnd Hlt].
  destruct (slot_fold_spec (fun t c => c <? target_count t)
              (fun k _ c => c + at_slot update_count k) (db_targets ad) (count e, false))
    as (Hlencur & Hin & Hout & _); [done|by simpl; rewrite Hlen|].
  rewrite <- accumulate_slot_fold in Hlencur, Hin, Hout.
  fold e cur in Hlencur, Hin, Hout. simpl in Hlencur, Hin, Hout.
  assert (all_targets_met (db_targets ad) cur = true ↔ met) as Hmet
    by apply all_targets_met_spec.
  destruct fuel as [|f]; [unfold core_fuel in Hfuel; lia|].
  unfold achievement_check_condition in Hswitch.
  split; [|split; [done|split; [|split]]].
  - intros k t Hkt. rewrite (Hin k t Hkt).
    destruct (Z.ltb_spec (at_slot (count e) k) (target_count t)); case_decide; lia || done.
  - intros Hguard. rewrite Hguard in Hswitch. by apply update_objectives_abort.
  - intros Hguard Hsome.
    destruct (Z.eqb_spec (script_value E code (sd w)) 0) as [|_]; [done|].
    destruct (update_objectives_effect E Hclock Hlevel0 f ad AG_SPEND_ZENY update_count w
                (all_targets_met (db_targets ad) cur) cur)
      as (w' & Hrun & Hok' & Hfind); [done| |done..| |].
    { pose proof (absent_bound E (sd w)). unfold core_fuel in Hfuel. lia. }
    { intros Hnew. apply orb_true_iff.
      destruct Hsome as [[x Hx]|[Hall|[k Hk]]].
      - congruence.
      - left. by apply Hmet.
      - right. by apply (at_slot_nonzero _ k). }
    exists w', (entry_after E ad w e cur (all_targets_met (db_targets ad) cur)).
    split; [done|]. split; [done|].
    destruct (entry_after_spec E ad w e cur (all_targets_met (db_targets ad) cur))
      as (Hdone & Hprogress & Hfilled); [done|done|done|by rewrite Hlencur|].
    split; [|split; [done|done]]. by rewrite Hdone.
  - intros Hguard Hnew Hnotmet Hzero.
    destruct (Z.eqb_spec (script_value E code (sd w)) 0) as [|_]; [done|].
    simpl in Hswitch.
    assert (count e = zeros) as Hfresh.
    { subst e. unfold current_entry. by rewrite Hnew. }
    rewrite Hfresh in Hswitch.
    assert (all_targets_met (db_targets ad) cur = false) as Hno.
    { apply not_true_is_false. intros H. by apply Hnotmet, Hmet. }
    rewrite Hno in Hswitch.
    eapply update_objectives_nothing; [done|done|done|done| |done|].
    + unfold open_for in Hopen. by rewrite Hnew in Hopen.
    + by apply existsb_nonzero_false.
Qed.

Lemma zeny_rule_witness :
  ∃ w' e',
    achievement_update_objectives (sample_env [spend_1000]) 10 spend_1000 AG_SPEND_ZENY
      (event_counts [400]) new_player = Done (true, w')
    ∧ log_lookup (sd w') 9 = Some e'.
Proof.
  destruct (zeny_rule (sample_env [spend_1000]) spend_1000 0%nat (event_counts [400]) 10
              new_player) as (_ & _ & _ & Hpass & _).
  - apply sample_clock_positive.
  - by eexists.
  - apply new_player_log_ok.
  - vm_compute. lia.
  - reflexivity.
  - reflexivity.
  - discriminate.
  - reflexivity.
  - split; [apply NoDup_singleton|]. repeat constructor.
  - reflexivity.
  - reflexivity.
  - destruct Hpass as (w' & e' & Hrun & Hfind & _).
    + simpl. lia.
    + right. right. exists 0%nat. vm_compute. discriminate.
    + exists w', e'. split; assumption.
Defined.

(** * Further properties of the code *)

(** ** Insertion and removal *)

Lemma find_app_l {A} (P : A → bool) l1 l2 x :
  List.find P l1 = Some x → List.find P (l1 ++ l2) = Some x.
Proof. induction l1 as [|a l1 IH]; simpl; [done|]. destruct (P a); auto. Qed.

Lemma find_app_r {A} (P : A → bool) l1 l2 :
  List.find P l1 = None → List.find P (l1 ++ l2) = List.find P l2.
Proof. induction l1 as [|a l1 IH]; simpl; [done|]. destruct (P a); [done|auto]. Qed.

(** An element that fails the test can be dropped from, or put into, the
    middle of a list without changing what [find] returns. *)
Lemma find_middle {A} (P : A → bool) l1 l2 x :
  P x = false → List.find P (l1 ++ x :: l2) = List.find P (l1 ++ l2).
Proof.
  intros Hx. destruct (List.find P l1) as [y|] eqn:Hl1.
  - by rewrite !(find_app_l _ _ _ _ Hl1).
  - rewrite !find_app_r by done. simpl. by rewrite Hx.
Qed.

Lemma ARR_FIND_first cmp (l : list achievement) i a :
  l !! i = Some a → cmp a = true →
  (∀ j b, (j < i)%nat → l !! j = Some b → cmp b = false) →
  ARR_FIND 0 (length l) cmp l = i.
Proof.
  intros Ha Hc Hbefore.
  destruct (ARR_FIND_spec cmp l 0 (length l)) as (Hr & Hnone & Hat); [lia|].
  pose proof (lookup_lt_Some _ _ _ Ha) as Hlen.
  set (r := ARR_FIND 0 (length l) cmp l) in *.
  destruct (decide (r = i)) as [|Hne]; [done|]. exfalso.
  destruct (decide (i < r)%nat) as [Hlt|Hge].
  - rewrite (Hnone i a) in Hc; [done|lia|done].
  - destruct Hat as (b & Hb & Hcb); [lia|].
    rewrite (Hbefore r b) in Hcb; [done|lia|done].
Qed.

Lemma has_id_false id a : achievement_id a ≠ id → has_id id a = false.
Proof. intros H. unfold has_id. by apply Z.eqb_neq. Qed.

Lemma find_take_None (l : list achievement) id n :
  List.find (has_id id) l = None → List.find (has_id id) (take n l) = None.
Proof.
  rewrite !find_has_id_None. intros Hn Hin. apply Hn.
  rewrite fmap_take in Hin. apply elem_of_take in Hin as (i & Hi & _).
  apply list_elem_of_lookup. eauto.
Qed.

(** X1.  [achievement_add] returns NULL exactly when the id is not in the
    catalog or the player already has an entry for it, and then it has changed
    nothing. *)
Theorem achievement_add_refuses E id w :
  ((achievement_add E id w).1 = None ↔
   db_find (achievement_db E) id = None ∨ is_Some (log_lookup (sd w) id))
  ∧ ((achievement_add E id w).1 = None → (achievement_add E id w).2 = w).
Proof.
  split.
  - destruct (achievement_add E id w) as [[i|] w'] eqn:Hadd; simpl.
    + apply achievement_add_Some in Hadd as (adb & Hdb & Hnew & _).
      split; [done|]. intros [?|[a Ha]]; congruence.
    + split; [intros _|done].
      destruct (db_find (achievement_db E) id) as [adb|] eqn:Hdb; [|by left].
      right. destruct (log_lookup (sd w) id) as [a|] eqn:Hl; [by eexists|].
      destruct (achievement_add_fresh E id w adb Hdb Hl) as [w1 H1]. congruence.
  - destruct (achievement_add E id w) as [[i|] w'] eqn:Hadd; simpl; [done|].
    intros _. by apply achievement_add_None in Hadd.
Qed.

(** X2.  After a successful [achievement_add] the returned slot and the
    lookup of the id give the new entry: zero counters, not completed, not
    rewarded, the score of the catalog entry.  The lookups of all other ids
    and the size of the completed block are as before, and the save flag is
    set. *)
Theorem achievement_add_lookup E id w i w' :
  achievement_add E id w = (Some i, w') →
  (incompleteCount (sd w) ≤ length (achievements (sd w)))%nat →
  ∃ adb, db_find (achievement_db E) id = Some adb
    ∧ achievements (sd w') !! i = Some (mk_achievement id zeros 0 0 (db_score adb))
    ∧ log_lookup (sd w') id = Some (mk_achievement id zeros 0 0 (db_score adb))
    ∧ (∀ id', id' ≠ id → log_lookup (sd w') id' = log_lookup (sd w) id')
    ∧ completed_count (sd w') = completed_count (sd w)
    ∧ save (sd w') = true.
Proof.
  intros Hadd Hle.
  apply achievement_add_Some in Hadd as (adb & Hdb & Hnew & -> & Hsd & _).
  exists adb. split; [done|]. rewrite Hsd. unfold log_lookup, completed_count in *. simpl.
  split; [|split; [|split; [|split; [|done]]]].
  - rewrite lookup_inserted by done. case_decide; [lia|]. by case_decide.
  - rewrite find_app_r by by apply find_take_None.
    simpl. unfold has_id at 1. simpl. by rewrite Z.eqb_refl.
  - intros id' Hne. rewrite find_middle by (apply has_id_false; simpl; congruence).
    by rewrite take_drop.
  - rewrite length_app, length_take. simpl. rewrite length_drop. lia.
Qed.

Lemma achievement_add_lookup_witness :
  ∃ w', achievement_add (sample_env [kill_1002]) 7 new_player = (Some 0%nat, w')
        ∧ log_lookup (sd w') 7 = Some (mk_achievement 7 zeros 0 0 10).
Proof.
  destruct (achievement_add (sample_env [kill_1002]) 7 new_player) as [i w'] eqn:Hadd.
  vm_compute in Hadd. injection Hadd as <- <-.
  destruct (achievement_add_lookup (sample_env [kill_1002]) 7 new_player 0%nat
              (achievement_add (sample_env [kill_1002]) 7 new_player).2)
    as (adb & Hdb & _ & Hfind & _).
  - reflexivity.
  - simpl. lia.
  - eexists. split; [reflexivity|]. vm_compute in Hdb. injection Hdb as <-.
    exact Hfind.
Defined.

Lemma find_delete {A} (P : A → bool) (l : list A) i x :
  l !! i = Some x → P x = false → List.find P (delete i l) = List.find P l.
Proof.
  intros Hi Hx. rewrite delete_take_drop.
  rewrite <- (take_drop_middle l i x Hi) at 3. by rewrite find_middle.
Qed.

Lemma achievement_remove_true E id w :
  (achievement_remove E id w).1 = true →
  ∃ i a, achievements (sd w) !! i = Some a ∧ achievement_id a = id
    ∧ i = ARR_FIND 0 (length (achievements (sd w))) (has_id id) (achievements (sd w))
    ∧ achievements (sd (achievement_remove E id w).2) = delete i (achievements (sd w))
    ∧ incompleteCount (sd (achievement_remove E id w).2)
      = (if completed a =? 0 then pred (incompleteCount (sd w))
         else incompleteCount (sd w)).
Proof.
  unfold achievement_remove. destruct (negb _); [done|].
  destruct (achievements (sd w) !! _) as [a|] eqn:Ha; [|done]. intros _.
  eexists _, a. split; [done|]. split; [|done].
  rewrite ARR_FIND_find in Ha. by apply find_has_id in Ha as [_ ?].
Qed.

(** X3.  [achievement_remove] returns false exactly when the id is not in the
    catalog or the player has no entry for it, and then it has changed
    nothing.  When it returns true the log is one entry shorter, the lookups
    of all other ids are as before, and, the ids of the log being distinct,
    the id has no entry any more. *)
Theorem achievement_remove_spec E id w :
  ((achievement_remove E id w).1 = false ↔
   db_find (achievement_db E) id = None ∨ log_lookup (sd w) id = None)
  ∧ ((achievement_remove E id w).1 = false → (achievement_remove E id w).2 = w)
  ∧ ((achievement_remove E id w).1 = true →
     length (achievements (sd (achievement_remove E id w).2))
       = pred (length (achievements (sd w)))
     ∧ (∀ id', id' ≠ id →
          log_lookup (sd (achievement_remove E id w).2) id' = log_lookup (sd w) id')
     ∧ (NoDup (achievement_id <$> achievements (sd w)) →
        log_lookup (sd (achievement_remove E id w).2) id = None)).
Proof.
  split; [|split].
  - unfold achievement_remove, db_exists, log_lookup. rewrite ARR_FIND_find.
    destruct (db_find (achievement_db E) id); simpl; [|by split; auto].
    destruct (List.find _ _); simpl; [|by split; auto].
    split; [done|]. by intros [?|?].
  - unfold achievement_remove. destruct (negb _); [done|].
    by destruct (achievements (sd w) !! _).
  - intros Htrue.
    destruct (achievement_remove_true E id w Htrue) as (i & a & Ha & Hid & _ & Hl & _).
    unfold log_lookup. rewrite Hl. split; [|split].
    + rewrite length_delete by eauto. lia.
    + intros id' Hne. apply (find_delete _ _ _ _ Ha), has_id_false. congruence.
    + intros Hnd. apply find_has_id_None. intros Hin.
      apply list_elem_of_fmap in Hin as (b & Hidb & Hb).
      apply list_elem_of_lookup in Hb as [j Hj]. rewrite list_lookup_delete in Hj.
      rewrite ids_distinct in Hnd.
      specialize (Hnd _ _ _ _ Hj Ha ltac:(congruence)). case_decide; lia.
Qed.

(** X4.  Removing an achievement right after it was inserted gives back the
    log, the boundary and the cached score and level of before the
    insertion. *)
Theorem remove_undoes_add E id w i w1 :
  achievement_add E id w = (Some i, w1) →
  (incompleteCount (sd w) ≤ length (achievements (sd w)))%nat →
  (achievement_remove E id w1).1 = true
  ∧ achievements (sd (achievement_remove E id w1).2) = achievements (sd w)
  ∧ incompleteCount (sd (achievement_remove E id w1).2) = incompleteCount (sd w)
  ∧ total_score (sd (achievement_remove E id w1).2) = total_score (sd w)
  ∧ level (sd (achievement_remove E id w1).2) = level (sd w)
  ∧ titles (sd (achievement_remove E id w1).2) = titles (sd w).
Proof.
  intros Hadd Hle.
  apply achievement_add_Some in Hadd as (adb & Hdb & Hnew & -> & Hsd & _).
  set (fresh := mk_achievement id (count zero_achievement) 0 0 (db_score adb)) in *.
  set (l := achievements (sd w)) in *. set (n := incompleteCount (sd w)) in *.
  assert (ARR_FIND 0 (length (take n l ++ fresh :: drop n l)) (has_id id)
            (take n l ++ fresh :: drop n l) = n) as Hfind.
  { apply (ARR_FIND_first _ _ _ fresh).
    - rewrite lookup_inserted by done. case_decide; [lia|]. by case_decide.
    - apply Z.eqb_refl.
    - intros j b Hj Hb. rewrite lookup_inserted in Hb by done.
      case_decide; [|lia]. apply has_id_false. intros Hid.
      unfold log_lookup in Hnew. apply find_has_id_None in Hnew. apply Hnew.
      apply list_elem_of_fmap. exists b. split; [done|].
      apply list_elem_of_lookup. eauto. }
  unfold achievement_remove, db_exists. rewrite Hdb, Hsd. simpl.
  rewrite Hfind. rewrite lookup_inserted by done.
  case_decide; [lia|]. case_decide; [|done]. simpl.
  split; [done|]. split; [|done].
  replace n with (length (take n l)) at 1 by (rewrite length_take; lia).
  by rewrite delete_middle, take_drop.
Qed.

Lemma remove_undoes_add_witness :
  achievements (sd (achievement_remove (sample_env [kill_1002]) 7
                      (achievement_add (sample_env [kill_1002]) 7 new_player).2).2)
  = [].
Proof.
  destruct (achievement_add (sample_env [kill_1002]) 7 new_player) as [i w1] eqn:Hadd.
  destruct i as [i|]; [|vm_compute in Hadd; discriminate].
  destruct (remove_undoes_add (sample_env [kill_1002]) 7 new_player i w1 Hadd)
    as (_ & Hlog & _); [simpl; lia|].
  exact Hlog.
Defined.

(** ** Prerequisites *)

Lemma achievement_done_mono s s' id :
  (∀ a, a ∈ achievements s → 0 < completed a → a ∈ achievements s') →
  achievement_done s id = true → achievement_done s' id = true.
Proof.
  intros Hkeep. rewrite !achievement_done_spec.
  intros (a & Hin & Hid & Hc). exists a. auto.
Qed.

Lemma check_dependent_mono E s s' id :
  (∀ a, a ∈ achievements s → 0 < completed a → a ∈ achievements s') →
  achievement_check_dependent E s id = true →
  achievement_check_dependent E s' id = true.
Proof.
  intros Hkeep. unfold achievement_check_dependent.
  destruct (db_find (achievement_db E) id) as [adb|]; [|done].
  rewrite !forallb_forall. intros H dep Hdep.
  eapply achievement_done_mono; eauto.
Qed.

(** X5.  Prerequisites that are complete stay complete: if
    [achievement_check_dependent] holds for an id before an event or a
    completion, it holds afterwards. *)
Theorem dependents_stay_complete E fuel id w :
  achievement_check_dependent E (sd w) id = true →
  (∀ group args w',
     achievement_update_objective E fuel group args w = Done w' →
     achievement_check_dependent E (sd w') id = true)
  ∧ (∀ id' complete b w',
       achievement_update_achievement E fuel id' complete w = Done (b, w') →
       achievement_check_dependent E (sd w') id = true).
Proof.
  intros Hdep. split.
  - intros group args w' Hrun. eapply check_dependent_mono; [|done].
    intros a Hin Hpos. destruct (core_keeps_completed E a fuel Hpos) as (HU & _). eauto.
  - intros id' complete b w' Hrun. eapply check_dependent_mono; [|done].
    intros a Hin Hpos.
    destruct (core_keeps_completed E a fuel Hpos) as (_ & _ & HA & _). eauto.
Qed.

Lemma dependents_stay_complete_witness :
  ∃ w', achievement_update_objective (sample_env [kill_1002; after_kill]) 10
          AG_BATTLE [1002]
          (player_with [mk_achievement 7 zeros 1000 0 10] 0 10 0) = Done w'
        ∧ achievement_check_dependent (sample_env [kill_1002; after_kill]) (sd w') 8
          = true.
Proof.
  destruct (achievement_update_objective (sample_env [kill_1002; after_kill]) 10
              AG_BATTLE [1002]
              (player_with [mk_achievement 7 zeros 1000 0 10] 0 10 0))
    as [w'| |] eqn:Hrun; [|vm_compute in Hrun; discriminate..].
  exists w'. split; [done|].
  destruct (dependents_stay_complete (sample_env [kill_1002; after_kill]) 10 8
              (player_with [mk_achievement 7 zeros 1000 0 10] 0 10 0)) as [Hevent _].
  - reflexivity.
  - exact (Hevent AG_BATTLE [1002] w' Hrun).
Defined.

(** ** The scan for unlocked achievements *)

Lemma unlockable_same_log E ad s s' :
  achievements s' = achievements s → unlockable E ad s' → unlockable E ad s.
Proof.
  intros Hl (Hg & Hd & Hc & Hnew & Hdep). unfold unlockable, log_lookup,
    achievement_check_dependent, achievement_done in *.
  rewrite Hl in Hnew, Hdep. done.
Qed.

(** Inserting an entry unlocks nothing. *)
Lemma unlockable_before_add E ad id w i w1 :
  achievement_add E id w = (Some i, w1) →
  unlockable E ad (sd w1) → unlockable E ad (sd w) ∧ db_achievement_id ad ≠ id.
Proof.
  intros Hadd (Hg & Hd & Hc & Hnew & Hdep).
  pose proof (fun id0 => achievement_add_ids E id w i w1 id0 Hadd) as Hids.
  apply log_lookup_None in Hnew. rewrite Hids in Hnew.
  split; [|intros Heq; tauto].
  split; [done|]. split; [done|]. split; [done|]. split.
  - apply log_lookup_None. tauto.
  - apply achievement_add_Some in Hadd as (adb & _ & _ & -> & Hsd & _).
    revert Hdep. unfold achievement_check_dependent.
    destruct (db_find _ _) as [adb'|]; [|done].
    rewrite !forallb_forall. intros H dep Hin. specialize (H dep Hin).
    apply achievement_done_spec in H as (a & Ha & Hid & Hpos).
    apply achievement_done_spec. exists a. split; [|done].
    rewrite Hsd in Ha. simpl in Ha.
    rewrite <- (take_drop (incompleteCount (sd w)) (achievements (sd w))).
    apply elem_of_app in Ha as [Ha|Ha]; apply elem_of_app; [by left|right].
    apply elem_of_cons in Ha as [->|Ha]; [simpl in Hpos; lia | done].
Qed.

Lemma update_achievement_false_same E fuel id complete w w' :
  achievement_update_achievement E fuel id complete w = Done (false, w') → w' = w.
Proof.
  destruct fuel as [|f]; [done|]. rewrite achievement_update_achievement_S.
  unfold achievement_update_achievement_body.
  destruct (db_find _ _); [|by intros [= <-]].
  case_decide; [by intros [= <-]|].
  destruct (achievements (sd w) !! _) as [a|]; [|done].
  destruct (completed a >? 0); [by intros [= <-]|].
  destruct complete; [|done].
  intros Hrun. inv_bind Hrun. inv_bind Hrun. destruct a1 as [info w2]. inv_bind Hrun.
  by destruct (achievements (sd a1) !! _).
Qed.

Lemma check_groups_locked E f ad w :
  ¬ unlockable E ad (sd w) →
  ∃ z, achievement_check_groups E (S f) ad w = Done (z, w).
Proof.
  intros Hlocked. rewrite achievement_check_groups_S.
  unfold achievement_check_groups_body.
  destruct (bool_decide _) eqn:Hg; simpl; [|eauto]. apply bool_decide_eq_true in Hg.
  destruct (bool_decide (db_dependent_ids ad = [])) eqn:Hd; simpl; [eauto|].
  apply bool_decide_eq_false in Hd.
  destruct (bool_decide (is_Some (db_condition ad))) eqn:Hc; simpl; [eauto|].
  apply bool_decide_eq_false in Hc.
  case_decide as Hmiss; [|eauto].
  destruct (achievement_check_dependent E (sd w) (db_achievement_id ad)) eqn:Hdep;
    [|eauto].
  destruct Hlocked. split; [done|]. split; [done|]. split.
  - destruct (db_condition ad); [|done]. destruct Hc. eauto.
  - split; [|done]. by apply ARR_FIND_miss.
Qed.

Lemma scan_closes E f :
  (∀ id w w', achievement_update_achievement E f id true w = Done (true, w') →
              ∀ ad, ad ∈ achievement_db E → ¬ unlockable E ad (sd w')) →
  ∀ todo seen w w',
    seen ++ todo = achievement_db E →
    (∀ ad, ad ∈ seen → ¬ unlockable E ad (sd w)) →
    for_each (fun ach w => '(_, w') ← achievement_check_groups E (S f) ach w; Done w')
      todo w = Done w' →
    ∀ ad, ad ∈ achievement_db E → ¬ unlockable E ad (sd w').
Proof.
  intros IH todo. induction todo as [|ad0 todo IHtodo]; intros seen w w' Hsplit Hseen Hrun.
  { simpl in Hrun. injection Hrun as <-. rewrite app_nil_r in Hsplit. by subst. }
  simpl in Hrun. inv_bind Hrun. inv_bind Hm. destruct a0 as [z w1]. injection Hm as <-.
  apply (IHtodo (seen ++ [ad0]) w1 w'); [by rewrite <- app_assoc| |done].
  intros ad Hin.
  assert (Decision (unlockable E ad0 (sd w))) as [Hopen|Hlocked]
    by (unfold unlockable; apply _).
  2:{ destruct (check_groups_locked E f ad0 w Hlocked) as [z' Hsame].
      rewrite Hsame in Hm0. injection Hm0 as _ <-.
      apply elem_of_app in Hin as [Hin|Hin]; [by apply Hseen|].
      apply list_elem_of_singleton in Hin as ->. done. }
  pose proof Hopen as (Hg & Hd & Hc & Hnew & Hdep).
  rewrite achievement_check_groups_S in Hm0.
  unfold achievement_check_groups_body in Hm0.
  rewrite (bool_decide_eq_true_2 _ Hg), (bool_decide_eq_false_2 _ Hd), Hc in Hm0.
  rewrite bool_decide_eq_false_2 in Hm0 by (by intros [? ?]). simpl in Hm0.
  pose proof Hnew as Hmiss. apply ARR_FIND_miss in Hmiss. rewrite Hmiss, Hdep in Hm0.
  case_decide; [|done].
  assert (∃ adb, db_find (achievement_db E) (db_achievement_id ad0) = Some adb)
    as [adb Hdb].
  { unfold achievement_check_dependent in Hdep. destruct (db_find _ _); [eauto|done]. }
  destruct (achievement_add_fresh E _ w adb Hdb Hnew) as [w1a Hadd].
  rewrite Hadd in Hm0. apply bind_Done in Hm0 as ([b w2] & Hupd & Hm0).
  injection Hm0 as _ <-.
  destruct b.
  - apply (IH _ _ _ Hupd). rewrite <- Hsplit.
    apply elem_of_app in Hin as [Hin|Hin]; apply elem_of_app; [by left|right].
    apply list_elem_of_singleton in Hin as ->. apply list_elem_of_here.
  - apply update_achievement_false_same in Hupd as ->.
    intros Hun. apply (unlockable_before_add E ad _ w _ w1a Hadd) in Hun as [Hun Hne].
    apply elem_of_app in Hin as [Hin|Hin]; [by apply (Hseen ad)|].
    by apply list_elem_of_singleton in Hin as ->.
Qed.

(** X6.  When a completion returns true, the scan it ran has left nothing to
    unlock: no achievement of the catalog is of a battle, taming or adventure
    group, has prerequisites, has no guard, has all prerequisites complete and
    still no entry. *)
Theorem completion_unlocks_all E fuel id w w' :
  achievement_update_achievement E fuel id true w = Done (true, w') →
  ∀ ad, ad ∈ achievement_db E → ¬ unlockable E ad (sd w').
Proof.
  revert id w w'. induction (lt_wf fuel) as [fuel _ IH]. intros id w w' Hrun.
  destruct fuel as [|f]; [done|]. rewrite achievement_update_achievement_S in Hrun.
  unfold achievement_update_achievement_body in Hrun.
  destruct (db_find _ _) as [adb|]; [|done].
  case_decide; [done|].
  destruct (achievements (sd w) !! _) as [a|]; [|done].
  destruct (completed a >? 0); [done|].
  inv_bind Hrun. inv_bind Hrun. destruct a1 as [info w2]. inv_bind Hrun.
  destruct (achievements (sd a1) !! _) as [a'|]; [|done]. injection Hrun as <-.
  intros ad Hin Hun. apply (unlockable_same_log E ad (sd a1)) in Hun; [|done].
  revert ad Hin Hun.
  destruct f as [|f'].
  { destruct (achievement_db E) as [|ad0 db] eqn:Hdb'; [intros ? []%elem_of_nil|].
    simpl in Hm1. done. }
  apply (scan_closes E f') with (todo := achievement_db E) (seen := []) (w := w2);
    [|done|by intros ? []%elem_of_nil|done].
  intros id0 w0 w0' Hrun0. apply (IH f' ltac:(lia) id0 w0 w0' Hrun0).
Qed.

Lemma completion_unlocks_all_witness :
  ∃ w', achievement_update_achievement (sample_env [kill_1002; after_kill]) 10 7 true
          (player_with [mk_achievement 7 zeros 0 0 10] 1 0 0) = Done (true, w')
        ∧ ∀ ad, ad ∈ [kill_1002; after_kill] →
                ¬ unlockable (sample_env [kill_1002; after_kill]) ad (sd w').
Proof.
  destruct (achievement_update_achievement (sample_env [kill_1002; after_kill]) 10 7 true
              (player_with [mk_achievement 7 zeros 0 0 10] 1 0 0)) as [[b w']| |] eqn:Hrun;
    [|vm_compute in Hrun; discriminate..].
  destruct b; [|vm_compute in Hrun; discriminate].
  exists w'. split; [done|].
  exact (completion_unlocks_all (sample_env [kill_1002; after_kill]) 10 7 _ w' Hrun).
Defined.

(** ** The outcome of [achievement_update_achievement] *)

(** X7.  On a well-formed log [achievement_update_achievement] returns true
    exactly when the id is in the catalog and the player has an entry for it
    that is not completed; when it returns false the world is as before. *)
Theorem update_achievement_outcome E fuel id complete w :
  clock_positive E → is_Some (achievement_level_db E !! 0) →
  log_ok (sd w) → (core_fuel E ≤ fuel)%nat →
  ∃ b w', achievement_update_achievement E fuel id complete w = Done (b, w')
    ∧ (b = true ↔ is_Some (db_find (achievement_db E) id)
                   ∧ ∃ a, log_lookup (sd w) id = Some a ∧ completed a = 0)
    ∧ (b = false → w' = w).
Proof.
  intros Hclock Hlevel0 Hok Hfuel.
  pose proof (absent_bound E (sd w)) as Habs. unfold core_fuel in Hfuel.
  destruct fuel as [|f]; [lia|].
  destruct (db_find (achievement_db E) id) as [adb|] eqn:Hdb.
  2:{ exists false, w. rewrite achievement_update_achievement_S.
      unfold achievement_update_achievement_body. rewrite Hdb.
      split; [done|]. split; [|done]. split; [done|]. by intros [[? [=]] _]. }
  assert (Decision (∃ a, log_lookup (sd w) id = Some a ∧ completed a = 0)) as [Hopen|Hno].
  { destruct (log_lookup (sd w) id) as [a|].
    - destruct (decide (completed a = 0)); [left; eauto|right].
      by intros (a' & [= <-] & ?).
    - right. by intros (a' & [=] & _). }
  - destruct Hopen as (a & Hfind & Hzero).
    pose proof Hfind as Hin. apply find_has_id in Hin as [Hin Hid].
    apply list_elem_of_lookup in Hin as [i Hi].
    destruct complete.
    + destruct (update_achievement_completes E Hclock Hlevel0 f id w adb i a)
        as (w' & Hrun & _); [done|lia|done..|].
      exists true, w'. split; [done|]. split; [|done]. split; [|done].
      intros _. split; [done|]. eauto.
    + exists true, (notify_update a w).
      split; [by apply (update_achievement_progress E f id w adb i a)|].
      split; [|done]. split; [|done]. intros _. split; [done|]. eauto.
  - exists false, w. rewrite achievement_update_achievement_S.
    unfold achievement_update_achievement_body. rewrite Hdb.
    destruct Hok as (Hle & Hpart & Hnd).
    destruct (ARR_FIND_spec (has_id id) (achievements (sd w)) 0 (incompleteCount (sd w)))
      as (Hrange & _ & Hhit); [lia|].
    case_decide as Hi.
    + split; [done|]. split; [|done]. split; [done|]. by intros [_ ?].
    + exfalso. destruct Hhit as (a & Ha & Hida); [lia|]. apply Hno. exists a.
      destruct (Hpart _ _ Ha) as [Hzero _]. split; [|apply Hzero; lia].
      unfold has_id in Hida. apply Z.eqb_eq in Hida. subst id.
      apply find_has_id_unique; [done|]. by eapply list_elem_of_lookup_2.
Qed.

Lemma update_achievement_outcome_witness :
  ∃ b w', achievement_update_achievement (sample_env [kill_1002]) 8 7 true
            (player_with [mk_achievement 7 zeros 1000 0 10] 0 10 0) = Done (b, w')
    ∧ (b = true ↔ is_Some (db_find [kill_1002] 7)
                   ∧ ∃ a, log_lookup
                            (sd (player_with [mk_achievement 7 zeros 1000 0 10] 0 10 0)) 7
                          = Some a ∧ completed a = 0)
    ∧ (b = false → w' = player_with [mk_achievement 7 zeros 1000 0 10] 0 10 0).
Proof.
  apply (update_achievement_outcome (sample_env [kill_1002]) 8 7 true
           (player_with [mk_achievement 7 zeros 1000 0 10] 0 10 0)).
  - apply sample_clock_positive.
  - by eexists.
  - unfold player_with, log_ok, partitioned. simpl. split; [lia|]. split.
    + intros [|j] a Ha; simpl in Ha; [|by rewrite lookup_nil in Ha].
      injection Ha as <-. simpl. split; [lia|done].
    + apply NoDup_singleton.
  - unfold core_fuel. simpl. lia.
Defined.

(** ** Queries after a completion *)

Lemma check_progress_entry s id a type :
  log_lookup s id = Some a → type ≠ ACHIEVEINFO_LEVEL → type ≠ ACHIEVEINFO_SCORE →
  achievement_check_progress s id type
  = if (ACHIEVEINFO_COUNT1 <=? type) && (type <=? ACHIEVEINFO_COUNT10)
    then at_slot (count a) (Z.to_nat (type - 1))
    else if type =? ACHIEVEINFO_COMPLETE then (if completed a >? 0 then 1 else 0)
    else if type =? ACHIEVEINFO_COMPLETEDATE then int_of_time (completed a)
    else if type =? ACHIEVEINFO_GOTREWARD then (if rewarded a >? 0 then 1 else 0)
    else -2.
Proof.
  intros Hfind Hl Hs. unfold achievement_check_progress.
  destruct (Z.eqb_spec type ACHIEVEINFO_LEVEL); [done|].
  destruct (Z.eqb_spec type ACHIEVEINFO_SCORE); [done|].
  rewrite ARR_FIND_find. unfold log_lookup in Hfind. by rewrite Hfind.
Qed.

Lemma int_of_time_small t : - 2 ^ 31 ≤ t < 2 ^ 31 → int_of_time t = t.
Proof. intros Ht. unfold int_of_time. rewrite Z.mod_small; lia. Qed.

Lemma update_achievement_closed E f id complete w a :
  log_ok (sd w) → log_lookup (sd w) id = Some a → completed a ≠ 0 →
  achievement_update_achievement E (S f) id complete w = Done (false, w).
Proof.
  intros Hok Hfind Hdone. rewrite achievement_update_achievement_S.
  unfold achievement_update_achievement_body.
  destruct (db_find (achievement_db E) id) as [adb|]; [|done].
  pose proof Hok as (Hle & Hpart & Hnd).
  destruct (ARR_FIND_spec (has_id id) (achievements (sd w)) 0 (incompleteCount (sd w)))
    as (Hrange & _ & Hhit); [lia|].
  case_decide as Hi; [done|]. exfalso.
  destruct Hhit as (b & Hb & Hidb); [lia|].
  destruct (Hpart _ _ Hb) as [Hzero _].
  unfold has_id in Hidb. apply Z.eqb_eq in Hidb. subst id.
  assert (log_lookup (sd w) (achievement_id b) = Some b) as Hfind'.
  { apply find_has_id_unique; [done|]. by eapply list_elem_of_lookup_2. }
  rewrite Hfind' in Hfind. injection Hfind as <-. apply Hdone, Hzero. lia.
Qed.

(** X8.  Completing an achievement shows in the queries: afterwards
    [achievement_check_progress] reports the entry as complete, dated with the
    clock reading taken as converted to [int], which is the reading itself
    while it is below 2^31, and every objective slot at its required count;
    and asking for the same completion again returns false and changes
    nothing. *)
Theorem completion_then_queries E fuel id w adb a :
  clock_positive E → is_Some (achievement_level_db E !! 0) →
  log_ok (sd w) → (core_fuel E ≤ fuel)%nat →
  db_find (achievement_db E) id = Some adb →
  log_lookup (sd w) id = Some a → completed a = 0 →
  targets_ok (db_targets adb) → length (count a) = MAX_ACHIEVEMENT_OBJECTIVES →
  ∃ w', achievement_update_achievement E fuel id true w = Done (true, w')
    ∧ achievement_check_progress (sd w') id ACHIEVEINFO_COMPLETE = 1
    ∧ achievement_check_progress (sd w') id ACHIEVEINFO_COMPLETEDATE
      = int_of_time (time E (clock w))
    ∧ (time E (clock w) < 2 ^ 31 →
       achievement_check_progress (sd w') id ACHIEVEINFO_COMPLETEDATE = time E (clock w))
    ∧ (∀ k t, (k, t) ∈ db_targets adb →
         achievement_check_progress (sd w') id (Z.of_nat k + 1) = target_count t)
    ∧ ∀ fuel' complete,
        achievement_update_achievement E (S fuel') id complete w' = Done (false, w').
Proof.
  intros Hclock Hlevel0 Hok Hfuel Hdb Hfind Hzero [Hnd Hslots] Hlen.
  pose proof (absent_bound E (sd w)) as Habs. unfold core_fuel in Hfuel.
  destruct fuel as [|f]; [lia|].
  pose proof Hfind as Hin. apply find_has_id in Hin as [Hin Hid].
  apply list_elem_of_lookup in Hin as [i Hi].
  destruct (update_achievement_completes E Hclock Hlevel0 f id w adb i a)
    as (w' & Hrun & Hok' & Hfind'); [done|lia|done..|].
  exists w'. split; [done|].
  pose proof (Hclock (clock w)) as Hpos.
  split; [|split; [|split; [|split]]].
  - rewrite (check_progress_entry _ _ _ _ Hfind') by done. simpl.
    by destruct (Z.gtb_spec (time E (clock w)) 0); [|lia].
  - by rewrite (check_progress_entry _ _ _ _ Hfind').
  - intros Hint. rewrite (check_progress_entry _ _ _ _ Hfind') by done. simpl.
    apply int_of_time_small. lia.
  - intros k t Hkt.
    assert (k < MAX_ACHIEVEMENT_OBJECTIVES)%nat as Hk.
    { rewrite Forall_forall in Hslots. apply (Hslots (k, t) Hkt). }
    unfold MAX_ACHIEVEMENT_OBJECTIVES in Hk.
    rewrite (check_progress_entry _ _ _ _ Hfind')
      by (unfold ACHIEVEINFO_LEVEL, ACHIEVEINFO_SCORE; lia).
    unfold ACHIEVEINFO_COUNT1, ACHIEVEINFO_COUNT10.
    destruct (Z.leb_spec 1 (Z.of_nat k + 1)); [|lia].
    destruct (Z.leb_spec (Z.of_nat k + 1) 10); [|lia]. simpl.
    replace (Z.to_nat (Z.of_nat k + 1 - 1)) with k by lia.
    apply fill_targets_spec; [done| |done].
    rewrite Hlen. done.
  - intros fuel' complete.
    apply (update_achievement_closed E fuel' id complete w' _ Hok' Hfind').
    simpl. lia.
Qed.

Lemma completion_then_queries_witness :
  ∃ w', achievement_update_achievement (sample_env [kill_1002]) 8 7 true
          (player_with [mk_achievement 7 zeros 0 0 10] 1 0 0) = Done (true, w')
    ∧ achievement_check_progress (sd w') 7 ACHIEVEINFO_COMPLETE = 1
    ∧ achievement_check_progress (sd w') 7 ACHIEVEINFO_COMPLETEDATE = 1000
    ∧ ∀ fuel' complete,
        achievement_update_achievement (sample_env [kill_1002]) (S fuel') 7 complete w'
        = Done (false, w').
Proof.
  destruct (completion_then_queries (sample_env [kill_1002]) 8 7
              (player_with [mk_achievement 7 zeros 0 0 10] 1 0 0) kill_1002
              (mk_achievement 7 zeros 0 0 10))
    as (w' & Hrun & Hcomplete & _ & Hdate & _ & Hagain).
  - apply sample_clock_positive.
  - by eexists.
  - unfold player_with, log_ok, partitioned. simpl. split; [lia|]. split.
    + intros [|j] a Ha; simpl in Ha; [|by rewrite lookup_nil in Ha].
      injection Ha as <-. simpl. split; [done|lia].
    + apply NoDup_singleton.
  - unfold core_fuel. simpl. lia.
  - reflexivity.
  - reflexivity.
  - reflexivity.
  - split; [apply NoDup_singleton|]. apply Forall_singleton.
    unfold MAX_ACHIEVEMENT_OBJECTIVES. simpl. lia.
  - reflexivity.
  - exists w'. split; [exact Hrun|]. split; [exact Hcomplete|].
    split; [|exact Hagain]. apply Hdate. reflexivity.
Defined.

(** ** Granting a reward *)

Lemma find_insert_false {A} (P : A → bool) l i a a' :
  l !! i = Some a → P a = false → P a' = false →
  List.find P (<[i:=a']> l) = List.find P l.
Proof.
  revert i. induction l as [|x l IH]; intros [|i] Hi Ha Ha'; simpl in *; try done.
  - injection Hi as ->. by rewrite Ha, Ha'.
  - destruct (P x); [done|]. by apply IH.
Qed.

Lemma find_insert_first {A} (P : A → bool) (l : list A) i a' :
  (∀ j b, (j < i)%nat → l !! j = Some b → P b = false) → (i < length l)%nat →
  P a' = true → List.find P (<[i:=a']> l) = Some a'.
Proof.
  revert i. induction l as [|x l IH]; intros [|i] Hbefore Hi Ha'; simpl in *; try lia.
  - by rewrite Ha'.
  - rewrite (Hbefore 0%nat x) by (done || lia). apply IH; [|lia|done].
    intros j b Hj Hb. apply (Hbefore (S j) b); [lia|done].
Qed.

Lemma get_reward_grant E id t w adb a :
  db_find (achievement_db E) id = Some adb → t ≠ 0 →
  log_lookup (sd w) id = Some a →
  let w' := achievement_get_reward E id t w in
  let i := ARR_FIND 0 (length (achievements (sd w))) (has_id id) (achievements (sd w)) in
  achievements (sd w') = <[i := set_rewarded t a]> (achievements (sd w))
  ∧ achievements (sd w) !! i = Some a
  ∧ incompleteCount (sd w') = incompleteCount (sd w)
  ∧ total_score (sd w') = total_score (sd w) ∧ level (sd w') = level (sd w)
  ∧ save (sd w') = true
  ∧ titles (sd w') = titles (sd w) ++ reward_title adb
  ∧ scripts_run w' = script (db_rewards adb) :: scripts_run w
  ∧ clock w' = clock w.
Proof.
  intros Hdb Ht Hfind. unfold achievement_get_reward. rewrite Hdb.
  destruct (Z.eqb_spec t 0); [done|]. unfold log_lookup in Hfind.
  rewrite ARR_FIND_find, Hfind. unfold reward_title, scripts_run.
  destruct (title_id (db_rewards adb) =? 0); simpl.
  - by rewrite app_nil_r.
  - done.
Qed.

Lemma get_reward_lookup E id t w adb a :
  db_find (achievement_db E) id = Some adb → t ≠ 0 →
  log_lookup (sd w) id = Some a →
  log_lookup (sd (achievement_get_reward E id t w)) id = Some (set_rewarded t a)
  ∧ ∀ id', id' ≠ id →
      log_lookup (sd (achievement_get_reward E id t w)) id' = log_lookup (sd w) id'.
Proof.
  intros Hdb Ht Hfind.
  destruct (get_reward_grant E id t w adb a Hdb Ht Hfind) as (Hl & Hi & _).
  pose proof Hfind as Hin. apply find_has_id in Hin as [_ Hid].
  unfold log_lookup. rewrite Hl. split.
  - apply find_insert_first.
    + intros j b Hj Hb.
      destruct (ARR_FIND_spec (has_id id) (achievements (sd w)) 0
                  (length (achievements (sd w)))) as (_ & Hbefore & _); [lia|].
      apply (Hbefore j b); [lia|done].
    + by eapply lookup_lt_Some.
    + unfold has_id. simpl. by apply Z.eqb_eq.
  - intros id' Hne. eapply find_insert_false; [done|..].
    all: unfold has_id; simpl; apply Z.eqb_neq; congruence.
Qed.

(** X9.  [achievement_get_reward] acts only on an approval for a catalog
    achievement with a nonzero reward time and an entry in the log.  In every
    other case the player is left as is and no reward script is run; the
    client is answered, with a denial, exactly when the id is known and the
    reward time is 0. *)
Theorem get_reward_refused E id t w :
  ¬ grant_applies E (sd w) id t →
  let w' := achievement_get_reward E id t w in
  sd w' = sd w ∧ scripts_run w' = scripts_run w
  ∧ (w' = w ∨ w' = denied id w)
  ∧ (w' = denied id w ↔ is_Some (db_find (achievement_db E) id) ∧ t = 0).
Proof.
  intros Hno. unfold achievement_get_reward, grant_applies, log_lookup in *.
  assert (∀ w0, denied id w0 ≠ w0) as Hdiff.
  { intros w0 Heq. apply (f_equal (fun w => length (out w))) in Heq. simpl in Heq. lia. }
  destruct (db_find (achievement_db E) id) as [adb|].
  2:{ simpl. split; [done|]. split; [done|]. split; [by left|]. split.
      - intros Heq. symmetry in Heq. by apply Hdiff in Heq.
      - by intros [[? [=]] _]. }
  destruct (Z.eqb_spec t 0) as [->|Ht].
  { simpl. split; [done|]. split; [done|]. split; [by right|]. done. }
  rewrite ARR_FIND_find.
  destruct (List.find _ _) as [a|]; [exfalso; apply Hno; eauto|].
  simpl. split; [done|]. split; [done|]. split; [by left|]. split.
  - intros Heq. symmetry in Heq. by apply Hdiff in Heq.
  - by intros [_ ?].
Qed.

Lemma get_reward_refused_witness :
  achievement_get_reward (sample_env [kill_1002]) 7 0 new_player = denied 7 new_player
  ↔ is_Some (db_find [kill_1002] 7) ∧ 0 = 0.
Proof.
  destruct (get_reward_refused (sample_env [kill_1002]) 7 0 new_player)
    as (_ & _ & _ & Hdenied).
  - intros (_ & Ht & _). by apply Ht.
  - exact Hdenied.
Defined.

Lemma get_reward_log_ok E id t w :
  log_ok (sd w) → log_ok (sd (achievement_get_reward E id t w)).
Proof.
  intros Hok.
  destruct (db_find (achievement_db E) id) as [adb|] eqn:Hdb.
  2:{ unfold achievement_get_reward. by rewrite Hdb. }
  destruct (decide (t = 0)) as [->|Ht].
  { unfold achievement_get_reward. by rewrite Hdb. }
  destruct (log_lookup (sd w) id) as [a|] eqn:Hfind.
  2:{ unfold achievement_get_reward. rewrite Hdb. destruct (Z.eqb_spec t 0); [done|].
      unfold log_lookup in Hfind. by rewrite ARR_FIND_find, Hfind. }
  destruct (get_reward_grant E id t w adb a Hdb Ht Hfind) as (Hl & Hi & Hinc & _).
  destruct Hok as (Hle & Hpart & Hnd). unfold log_ok, partitioned.
  rewrite Hl, Hinc, length_insert. split; [done|]. split.
  - intros j b Hj.
    destruct (decide (j = ARR_FIND 0 (length (achievements (sd w))) (has_id id)
                             (achievements (sd w)))) as [->|Hne].
    + rewrite list_lookup_insert_eq in Hj by (by eapply lookup_lt_Some).
      injection Hj as <-. simpl. by apply (Hpart _ _ Hi).
    + rewrite list_lookup_insert_ne in Hj by done. by apply (Hpart _ _ Hj).
  - rewrite list_fmap_insert.
    rewrite list_insert_id; [done|]. by rewrite list_lookup_fmap, Hi.
Qed.

(** X10.  An approval that applies stamps the entry with the reward time,
    whatever its completion and reward times were, and touches no other
    entry; it runs the reward script once, appends the title if the reward has
    one, marks the player for saving, and keeps the log well formed. *)
Theorem get_reward_granted E id t w adb a :
  db_find (achievement_db E) id = Some adb → t ≠ 0 →
  log_lookup (sd w) id = Some a →
  let w' := achievement_get_reward E id t w in
  log_lookup (sd w') id = Some (set_rewarded t a)
  ∧ (∀ id', id' ≠ id → log_lookup (sd w') id' = log_lookup (sd w) id')
  ∧ scripts_run w' = script (db_rewards adb) :: scripts_run w
  ∧ titles (sd w') = titles (sd w) ++ reward_title adb
  ∧ save (sd w') = true
  ∧ total_score (sd w') = total_score (sd w) ∧ level (sd w') = level (sd w)
  ∧ (log_ok (sd w) → log_ok (sd w')).
Proof.
  intros Hdb Ht Hfind w'.
  destruct (get_reward_lookup E id t w adb a Hdb Ht Hfind) as [Hsame Hother].
  destruct (get_reward_grant E id t w adb a Hdb Ht Hfind)
    as (Hl & Hi & Hinc & Hscore & Hlevel & Hsave & Htitles & Hscripts & _).
  split; [done|]. split; [done|]. split; [done|]. split; [done|]. split; [done|].
  split; [done|]. split; [done|]. apply get_reward_log_ok.
Qed.

Lemma get_reward_granted_witness :
  log_lookup
    (sd (achievement_get_reward (sample_env [kill_1002]) 7 2000
           (player_with [mk_achievement 7 zeros 0 0 10] 1 0 0))) 7
  = Some (mk_achievement 7 zeros 0 2000 10).
Proof.
  destruct (get_reward_granted (sample_env [kill_1002]) 7 2000
              (player_with [mk_achievement 7 zeros 0 0 10] 1 0 0) kill_1002
              (mk_achievement 7 zeros 0 0 10)) as [Hentry _].
  - reflexivity.
  - lia.
  - reflexivity.
  - exact Hentry.
Defined.

(** X11.  Nothing in [achievement_get_reward] looks at the reward time already
    stored: a second approval for the same entry runs the reward script again
    and appends the title again. *)
Theorem get_reward_repeats E id t1 t2 w adb a :
  db_find (achievement_db E) id = Some adb → t1 ≠ 0 → t2 ≠ 0 →
  log_lookup (sd w) id = Some a →
  let w2 := achievement_get_reward E id t2 (achievement_get_reward E id t1 w) in
  log_lookup (sd w2) id = Some (set_rewarded t2 a)
  ∧ scripts_run w2 = script (db_rewards adb) :: script (db_rewards adb) :: scripts_run w
  ∧ titles (sd w2) = titles (sd w) ++ reward_title adb ++ reward_title adb.
Proof.
  intros Hdb Ht1 Ht2 Hfind w2.
  destruct (get_reward_lookup E id t1 w adb a Hdb Ht1 Hfind) as [Hfind1 _].
  destruct (get_reward_grant E id t1 w adb a Hdb Ht1 Hfind)
    as (_ & _ & _ & _ & _ & _ & Htitles1 & Hscripts1 & _).
  destruct (get_reward_lookup E id t2 _ adb _ Hdb Ht2 Hfind1) as [Hfind2 _].
  destruct (get_reward_grant E id t2 _ adb _ Hdb Ht2 Hfind1)
    as (_ & _ & _ & _ & _ & _ & Htitles2 & Hscripts2 & _).
  split; [done|]. split.
  - unfold w2. by rewrite Hscripts2, Hscripts1.
  - unfold w2. by rewrite Htitles2, Htitles1, <- app_assoc.
Qed.

Lemma get_reward_repeats_witness :
  scripts_run
    (achievement_get_reward (sample_env [kill_1002]) 7 3000
       (achievement_get_reward (sample_env [kill_1002]) 7 2000
          (player_with [mk_achievement 7 zeros 1000 0 10] 0 10 0)))
  = [None; None].
Proof.
  destruct (get_reward_repeats (sample_env [kill_1002]) 7 2000 3000
              (player_with [mk_achievement 7 zeros 1000 0 10] 0 10 0) kill_1002
              (mk_achievement 7 zeros 1000 0 10)) as (_ & Hscripts & _).
  - reflexivity.
  - lia.
  - lia.
  - reflexivity.
  - exact Hscripts.
Defined.

(** X12.  Once an approval with a positive reward time has been applied, a
    further claim by the client for the same achievement is denied and no
    request goes to the inter-server authority. *)
Theorem claim_after_grant_denied E id t w :
  grant_applies E (sd w) id t → 0 < t →
  achievement_check_reward E id (achievement_get_reward E id t w)
  = denied id (achievement_get_reward E id t w).
Proof.
  intros ([adb Hdb] & Ht & [a Hfind]) Hpos.
  destruct (get_reward_lookup E id t w adb a Hdb Ht Hfind) as [Hfind' _].
  unfold achievement_check_reward. rewrite Hdb, ARR_FIND_find.
  unfold log_lookup in Hfind'. rewrite Hfind'. simpl.
  by destruct (Z.gtb_spec t 0); [|lia].
Qed.

Lemma claim_after_grant_denied_witness :
  achievement_check_reward (sample_env [kill_1002]) 7
    (achievement_get_reward (sample_env [kill_1002]) 7 2000
       (player_with [mk_achievement 7 zeros 1000 0 10] 0 10 0))
  = denied 7
      (achievement_get_reward (sample_env [kill_1002]) 7 2000
         (player_with [mk_achievement 7 zeros 1000 0 10] 0 10 0)).
Proof.
  apply (claim_after_grant_denied (sample_env [kill_1002]) 7 2000
           (player_with [mk_achievement 7 zeros 1000 0 10] 0 10 0)).
  - split; [by eexists|]. split; [lia|by eexists].
  - lia.
Defined.

(** ** Titles *)

Lemma omap_insert_same {A B} (f : A → option B) (l : list A) i a a' :
  l !! i = Some a → f a' = f a → omap f (<[i:=a']> l) = omap f l.
Proof.
  revert i. induction l as [|x l IH]; intros [|i] Hi Hf; try done.
  - injection Hi as ->. csimpl. by rewrite Hf.
  - csimpl. by rewrite (IH i Hi Hf).
Qed.

(** X13.  [achievement_get_titles] rebuilds the title list from the log alone:
    a title is on the list exactly when some completed entry of a catalog
    achievement carries it, so 0 is never on it; the titles held before do not
    matter, nothing but the title list changes, and rebuilding twice is
    rebuilding once. *)
Theorem get_titles_spec E w :
  let w' := achievement_get_titles E w in
  (∀ t, t ∈ titles (sd w') ↔ ∃ a, a ∈ achievements (sd w) ∧ earned_title E a t)
  ∧ w' = with_sd (set_titles (titles (sd w'))) w
  ∧ (∀ old, achievement_get_titles E (with_sd (set_titles old) w) = w')
  ∧ achievement_get_titles E w' = w'.
Proof.
  unfold achievement_get_titles. simpl. split; [|done].
  intros t. rewrite list_elem_of_omap. unfold earned_title. split.
  - intros (a & Hin & Hsome). exists a. split; [done|].
    destruct (db_find _ _) as [adb|]; [|done]. exists adb.
    destruct (Z.eqb_spec (title_id (db_rewards adb)) 0); [done|].
    destruct (Z.gtb_spec (completed a) 0); [|done].
    simpl in Hsome. injection Hsome as <-. done.
  - intros (a & Hin & adb & Hdb & Ht & Hnz & Hpos). exists a. split; [done|].
    rewrite Hdb. subst t.
    destruct (Z.eqb_spec (title_id (db_rewards adb)) 0); [done|].
    by destruct (Z.gtb_spec (completed a) 0); [|lia].
Qed.

(** X14.  The rebuilt title list does not depend on rewards: whether or not
    an approval was applied before, [achievement_get_titles] yields the same
    titles, so a title appended for an entry that is not completed is gone
    after the next rebuild. *)
Theorem get_titles_after_reward E id t w :
  titles (sd (achievement_get_titles E (achievement_get_reward E id t w)))
  = titles (sd (achievement_get_titles E w)).
Proof.
  destruct (db_find (achievement_db E) id) as [adb|] eqn:Hdb.
  2:{ unfold achievement_get_reward. by rewrite Hdb. }
  destruct (decide (t = 0)) as [->|Ht].
  { unfold achievement_get_reward. by rewrite Hdb. }
  destruct (log_lookup (sd w) id) as [a|] eqn:Hfind.
  2:{ unfold achievement_get_reward. rewrite Hdb. destruct (Z.eqb_spec t 0); [done|].
      unfold log_lookup in Hfind. by rewrite ARR_FIND_find, Hfind. }
  destruct (get_reward_grant E id t w adb a Hdb Ht Hfind) as (Hl & Hi & _).
  unfold achievement_get_titles. simpl. rewrite Hl.
  by apply omap_insert_same with (a := a).
Qed.

(** ** Releasing the log *)

(** X15.  After [achievement_free] the log is empty and stays well formed if
    it was; every query about an entry answers -1, while the level and score
    queries still answer the cached values; freeing twice is freeing once. *)
Theorem achievement_free_spec w :
  let w' := achievement_free w in
  achievements (sd w') = []
  ∧ (log_ok (sd w) → incompleteCount (sd w') = 0%nat ∧ log_ok (sd w'))
  ∧ (∀ id type, type ≠ ACHIEVEINFO_LEVEL → type ≠ ACHIEVEINFO_SCORE →
       achievement_check_progress (sd w') id type = -1)
  ∧ (∀ id, achievement_check_progress (sd w') id ACHIEVEINFO_LEVEL = level (sd w)
           ∧ achievement_check_progress (sd w') id ACHIEVEINFO_SCORE = total_score (sd w))
  ∧ titles (sd w') = titles (sd w) ∧ out w' = out w
  ∧ achievement_free w' = w'.
Proof.
  unfold achievement_free.
  assert (∀ s id type, achievements s = [] →
            type ≠ ACHIEVEINFO_LEVEL → type ≠ ACHIEVEINFO_SCORE →
            achievement_check_progress s id type = -1) as Hquery.
  { intros s id type Hl H1 H2. unfold achievement_check_progress.
    destruct (Z.eqb_spec type ACHIEVEINFO_LEVEL); [done|].
    destruct (Z.eqb_spec type ACHIEVEINFO_SCORE); [done|]. by rewrite Hl. }
  destruct (achievements (sd w)) as [|a l] eqn:Hl; simpl.
  - rewrite Hl. split; [done|]. split.
    { intros Hok. split; [|done]. destruct Hok as (Hle & _). rewrite Hl in Hle.
      simpl in Hle. lia. }
    split; [by intros; apply Hquery|]. done.
  - split; [done|]. split.
    { intros _. split; [done|]. unfold log_ok, partitioned. simpl.
      split; [lia|]. split; [by intros j b; rewrite lookup_nil|apply NoDup_nil_2]. }
    split; [by intros; apply Hquery|]. done.
Qed.

(** ** The level recomputation *)

(** X16.  [achievement_level] dereferences a missing table row exactly when
    the level table has no level 0; in every other case it returns, however
    the table looks above level 0, and the level it stores lies between 0 and
    the number of rows of the table. *)
Theorem achievement_level_fault E fuel flag w :
  (level_fuel ≤ fuel)%nat →
  (achievement_level E fuel flag w = Fault ↔ achievement_level_db E !! 0 = None)
  ∧ achievement_level E fuel flag w ≠ OutOfFuel
  ∧ ∀ info w', achievement_level E fuel flag w = Done (info, w') →
               0 ≤ level (sd w') ≤ Z.of_nat (size (achievement_level_db E)).
Proof.
  intros Hfuel. rewrite (achievement_level_enough E fuel flag w Hfuel).
  destruct (achievement_level_db E !! 0) as [p0|] eqn:H0.
  - destruct (level_update_total E w) as (lv & left & right & Hwalk & Hupd);
      [by rewrite H0|].
    rewrite Hupd. split; [done|]. split; [done|].
    intros info w' [= <- <-]. simpl.
    apply level_of_sound in Hwalk as (Hlv & Hbelow & _). split; [done|].
    destruct (decide (lv = 0)) as [->|Hne]; [lia|].
    pose proof (dense_prefix_size (achievement_level_db E) (lv - 1)) as Hsize.
    cut (Z.to_nat (lv - 1) < size (achievement_level_db E))%nat; [lia|].
    apply Hsize; [lia|]. intros l Hl.
    destruct (Hbelow l) as (points & -> & _); [lia|done].
  - assert (level_update E w = Fault) as ->.
    { unfold level_update, level_of. simpl. by rewrite H0. }
    done.
Qed.

Lemma achievement_level_fault_witness :
  achievement_level (sample_env []) 3 true new_player = Fault
  ↔ two_levels !! 0 = None.
Proof.
  destruct (achievement_level_fault (sample_env []) 3 true new_player) as [Hfault _].
  - unfold level_fuel. lia.
  - exact Hfault.
Defined.

(** X17.  The level and the total score that [achievement_level] stores are
    functions of the log: calling it again, with either flag, returns the same
    pair and changes nothing. *)
Theorem achievement_level_idempotent E fuel fuel' flag flag' w info w' :
  (level_fuel ≤ fuel)%nat → (level_fuel ≤ fuel')%nat →
  achievement_level E fuel flag w = Done (info, w') →
  achievement_level E fuel' flag' w' = Done (info, w')
  ∧ achievements (sd w') = achievements (sd w)
  ∧ total_score (sd w') = recount_score (achievements (sd w)).
Proof.
  intros Hfuel Hfuel' Hrun.
  rewrite (achievement_level_enough E fuel flag w Hfuel) in Hrun.
  rewrite (achievement_level_enough E fuel' flag' w' Hfuel').
  apply level_update_Done in Hrun as (lv & Hwalk & ->).
  split; [|done]. unfold level_update. simpl. rewrite Hwalk. simpl.
  by destruct w as [[] ? ? ?].
Qed.

Lemma achievement_level_idempotent_witness :
  ∃ info w', achievement_level (sample_env []) 3 true
               (player_with [mk_achievement 7 zeros 1000 0 150] 0 0 0) = Done (info, w')
    ∧ achievement_level (sample_env []) 3 false w' = Done (info, w').
Proof.
  destruct (achievement_level (sample_env []) 3 true
              (player_with [mk_achievement 7 zeros 1000 0 150] 0 0 0))
    as [[info w']| |] eqn:Hrun; [|vm_compute in Hrun; discriminate..].
  exists info, w'. split; [done|].
  destruct (achievement_level_idempotent (sample_env []) 3 3 true false
              (player_with [mk_achievement 7 zeros 1000 0 150] 0 0 0) info w')
    as [Hagain _]; [unfold level_fuel; lia..|exact Hrun|exact Hagain].
Defined.

(** ** The remaining objective rules *)

Lemma objectives_switch_condition E ad group update_count cur0 s :
  condition_only group = true →
  objectives_switch E ad group update_count cur0 s
  = match db_condition ad with
    | None => None
    | Some code =>
        if achievement_check_condition E code s then Some (true, true, cur0) else None
    end.
Proof. by destruct group. Qed.

(** X18.  For the groups decided by the guard alone the event values play no
    part: if the achievement has no guard or the guard evaluates to 0 the
    update returns false and the world is as before; otherwise the
    achievement is completed on the spot, its entry created if need be, dated
    with the clock reading taken and with every objective slot at its
    required count. *)
Theorem condition_rule E ad update_count fuel w :
  clock_positive E → is_Some (achievement_level_db E !! 0) →
  log_ok (sd w) → (core_fuel E ≤ fuel)%nat →
  condition_only (db_group ad) = true →
  db_find (achievement_db E) (db_achievement_id ad) = Some ad →
  targets_ok (db_targets ad) → open_for E ad (sd w) →
  length (count (current_entry ad (sd w))) = MAX_ACHIEVEMENT_OBJECTIVES →
  (¬ guard_holds E ad (sd w) →
   achievement_update_objectives E fuel ad (db_group ad) update_count w = Done (false, w))
  ∧ (guard_holds E ad (sd w) →
     ∃ w' e',
       achievement_update_objectives E fuel ad (db_group ad) update_count w
         = Done (true, w')
       ∧ log_lookup (sd w') (db_achievement_id ad) = Some e'
       ∧ completed e' = time E (clock w)
       ∧ ∀ k t, (k, t) ∈ db_targets ad → at_slot (count e') k = target_count t).
Proof.
  intros Hclock Hlevel0 Hok Hfuel Hgroup Hdb Htargets Hopen Hlen.
  destruct (current_entry_open E ad (sd w) Hopen) as [Hc Hid].
  pose proof (objectives_switch_condition E ad (db_group ad) update_count
                (count (current_entry ad (sd w))) (sd w) Hgroup) as Hswitch.
  destruct fuel as [|f]; [unfold core_fuel in Hfuel; lia|].
  unfold achievement_check_condition in Hswitch. split.
  - intros Hno. apply update_objectives_abort. rewrite Hswitch.
    destruct (db_condition ad) as [code|] eqn:Hcond; [|done].
    destruct (Z.eqb_spec (script_value E code (sd w)) 0); [done|].
    exfalso. apply Hno. by exists code.
  - intros (code & Hcond & Hguard). rewrite Hcond in Hswitch.
    destruct (Z.eqb_spec (script_value E code (sd w)) 0) as [|_]; [done|].
    simpl in Hswitch.
    destruct (update_objectives_effect E Hclock Hlevel0 f ad (db_group ad) update_count w
                true (count (current_entry ad (sd w))))
      as (w' & Hrun & Hok' & Hfind); [done| | | |done..|].
    { pose proof (absent_bound E (sd w)). unfold core_fuel in Hfuel. lia. }
    { intros Heq. by rewrite Heq in Hgroup. }
    { intros Heq. by rewrite Heq in Hgroup. }
    exists w', (entry_after E ad w (current_entry ad (sd w))
                  (count (current_entry ad (sd w))) true).
    split; [done|]. split; [done|]. split; [done|].
    destruct (entry_after_spec E ad w (current_entry ad (sd w))
                (count (current_entry ad (sd w))) true Hclock Hc Htargets Hlen)
      as (_ & _ & Hslots).
    apply Hslots. simpl. pose proof (Hclock (clock w)). lia.
Qed.

Lemma condition_rule_witness :
  ∃ w' e',
    achievement_update_objectives (sample_env [marry_once]) 8 marry_once AG_MARRY
      (event_counts []) new_player = Done (true, w')
    ∧ log_lookup (sd w') 11 = Some e'
    ∧ completed e' = 1000
    ∧ ∀ k t, (k, t) ∈ [] → at_slot (count e') k = target_count t.
Proof.
  destruct (condition_rule (sample_env [marry_once]) marry_once (event_counts []) 8
              new_player) as [_ Hguard].
  - apply sample_clock_positive.
  - by eexists.
  - apply new_player_log_ok.
  - unfold core_fuel. simpl. lia.
  - reflexivity.
  - reflexivity.
  - split; [apply NoDup_nil_2|apply Forall_nil_2].
  - reflexivity.
  - reflexivity.
  - apply Hguard. exists 0%nat. split; [reflexivity|]. simpl. lia.
Defined.

Lemma update_objectives_without_rule E call ad group update_count w :
  without_rule group = true →
  ∃ b, achievement_update_objectives_body E call ad group update_count w = Done (b, w).
Proof.
  intros Hgroup. unfold achievement_update_objectives_body.
  case_decide; [eauto|]. case_decide; [eauto|].
  destruct (achievements (sd w) !! _) as [entry|].
  - destruct (completed entry >? 0); [eauto|].
    destruct group; try done; simpl; eauto.
  - destruct (negb _); [eauto|].
    destruct group; try done; simpl; eauto.
Qed.

Lemma scan_without_rule E call group c l w :
  without_rule group = true →
  for_each (fun ad w => '(_, w') ← achievement_update_objectives_body E call ad group c w;
                        Done w') l w = Done w.
Proof.
  intros Hgroup. induction l as [|ad l IH]; simpl; [done|].
  destruct (update_objectives_without_rule E call ad group c w Hgroup) as [b ->].
  simpl. apply IH.
Qed.

Lemma set_regs_set_regs r r' s : set_regs r' (set_regs r s) = set_regs r' s.
Proof. done. Qed.

(** X19.  An event of a group without a rule, which includes chat, adventure
    and goal-achieve events, changes nothing of the player but the argument
    registers: no entry is created or completed, nothing is sent, and the
    clock is not read. *)
Theorem event_without_rule E f group args w :
  without_rule group = true → (length args ≤ MAX_ACHIEVEMENT_OBJECTIVES)%nat →
  ∃ w', achievement_update_objective E (S (S f)) group args w = Done w'
        ∧ w' = with_sd (set_regs (regs (sd w'))) w.
Proof.
  intros Hgroup Hargs.
  rewrite achievement_update_objective_S, achievement_update_objectives_S.
  unfold achievement_update_objective_body.
  destruct (feature_achievement E); simpl.
  2:{ exists w. split; [done|]. by destruct w as [[] ? ? ?]. }
  case_decide; [|done].
  assert (∀ w1, (match group with
                 | AG_CHAT => Done w1
                 | _ => for_each
                          (fun ad w =>
                             '(_, w') ← achievement_update_objectives_body E
                                          (achievement_update_achievement E f) ad group
                                          (event_counts args) w;
                             Done w') (achievement_db E) w1
                 end) = Done w1) as Hscan.
  { intros w1. destruct group; try done; by apply scan_without_rule. }
  rewrite Hscan. simpl. eexists. split; [done|].
  unfold with_sd. simpl.
  by rewrite clear_arg_regs_only, set_arg_regs_only, set_regs_set_regs.
Qed.

Lemma event_without_rule_witness :
  ∃ w', achievement_update_objective (sample_env [kill_1002; after_kill]) 2
          AG_ADVENTURE [5]
          (player_with [mk_achievement 7 zeros 1000 0 10] 0 10 0) = Done w'
        ∧ w' = with_sd (set_regs (regs (sd w')))
                 (player_with [mk_achievement 7 zeros 1000 0 10] 0 10 0).
Proof.
  apply (event_without_rule (sample_env [kill_1002; after_kill]) 0 AG_ADVENTURE [5]
           (player_with [mk_achievement 7 zeros 1000 0 10] 0 10 0)).
  - reflexivity.
  - unfold MAX_ACHIEVEMENT_OBJECTIVES. simpl. lia.
Defined.

(** ** The argument registers of an event *)

Lemma fold_regs_outside (vf : Z → Z) args k s j :
  (j < k ∨ k + length args ≤ j)%nat →
  regs (fold_left (fun s iv => pc_setglobalreg iv.1 (vf iv.2) s)
          (imap (fun i v => ((k + i)%nat, v)) args) s) !! j
  = regs s !! j.
Proof.
  revert k s. induction args as [|x args IH]; intros k s Hj; [done|].
  rewrite imap_cons. cbn [fold_left].
  rewrite (imap_ext _ (fun i v => ((S k + i)%nat, v)))
    by (intros; simpl; f_equal; lia).
  rewrite IH by (simpl in Hj; lia).
  unfold pc_setglobalreg. simpl in *.
  destruct (vf x =? 0); [rewrite lookup_delete_ne|rewrite lookup_insert_ne]; done || lia.
Qed.

Lemma fold_regs_cleared args k s j :
  (k ≤ j < k + length args)%nat →
  regs (fold_left (fun s iv => pc_setglobalreg iv.1 ((fun _ : Z => 0) iv.2) s)
          (imap (fun i v => ((k + i)%nat, v)) args) s) !! j
  = None.
Proof.
  revert k s. induction args as [|x args IH]; intros k s Hj; [simpl in Hj; lia|].
  rewrite imap_cons. cbn [fold_left].
  rewrite (imap_ext _ (fun i v => ((S k + i)%nat, v)))
    by (intros; simpl; f_equal; lia).
  destruct (decide (j = k)) as [->|Hne].
  - etrans; [apply (fold_regs_outside (fun _ : Z => 0) args (S k)); lia|].
    unfold pc_setglobalreg. simpl.
    replace (k + 0)%nat with k by lia. apply lookup_delete_eq.
  - apply IH. simpl in Hj. lia.
Qed.

Lemma set_arg_regs_outside args s j :
  (length args ≤ j)%nat → regs (set_arg_regs args s) !! j = regs s !! j.
Proof. intros Hj. apply (fold_regs_outside (fun v => v) args 0 s j). lia. Qed.

Lemma clear_arg_regs_lookup args s j :
  regs (clear_arg_regs args s) !! j
  = if decide (j < length args)%nat then None else regs s !! j.
Proof.
  case_decide.
  - apply (fold_regs_cleared args 0 s j). lia.
  - apply (fold_regs_outside (fun _ : Z => 0) args 0 s j). lia.
Qed.

(** The functions below the event keep whatever survives insertion, storing
    counters, completion and notification; registers need not survive. *)
Section frame.
Context (E : env) (P : world → Prop).
Hypothesis P_add : ∀ w id i w',
  P w → achievement_check_dependent E (sd w) id = true →
  achievement_add E id w = (Some i, w') → P w'.
Hypothesis P_store : ∀ w i a c,
  P w → achievements (sd w) !! i = Some a → completed a ≤ 0 →
  P (store_counts i c w).
Hypothesis P_complete : ∀ w id adb i a w1 info w2,
  P w → db_find (achievement_db E) id = Some adb →
  achievements (sd w) !! i = Some a → achievement_id a = id →
  (i < incompleteCount (sd w))%nat → completed a ≤ 0 →
  mark_completed E adb i a w = Done w1 →
  level_update E w1 = Done (info, w2) → P w2.
Hypothesis P_notify : ∀ w a, P w → P (notify_update a w).

Lemma below_event_invariant fuel :
  (∀ ad g c w b w',
     P w → achievement_update_objectives E fuel ad g c w = Done (b, w') → P w')
  ∧ (∀ id c w b w',
       P w → achievement_update_achievement E fuel id c w = Done (b, w') → P w')
  ∧ (∀ ad w z w', P w → achievement_check_groups E fuel ad w = Done (z, w') → P w').
Proof.
  induction fuel as [|f (IHO & IHA & IHG)]; [done|].
  rewrite achievement_update_objectives_S, achievement_update_achievement_S,
    achievement_check_groups_S.
  split; [|split].
  - intros *. by apply (update_objectives_body_inv E P P_add P_store).
  - intros *. apply (update_achievement_body_inv E P P_complete P_notify); [|done].
    intros *. apply achievement_level_Done.
  - intros *. by apply (check_groups_body_inv E P P_add).
Qed.

End frame.

Lemma below_event_keeps_regs E r fuel ad g c w b w' :
  regs (sd w) = r → achievement_update_objectives E fuel ad g c w = Done (b, w') →
  regs (sd w') = r.
Proof.
  revert ad g c w b w'.
  apply (below_event_invariant E (fun w => regs (sd w) = r)).
  - intros w id i w' Hr _ Hadd.
    apply achievement_add_Some in Hadd as (adb & _ & _ & _ & Hsd & _).
    simpl in Hsd. by rewrite Hsd.
  - done.
  - intros w id adb i a w1 info w2 Hr _ Ha _ Hi _ Hmark Hlevel.
    apply level_update_Done in Hlevel as (lv & _ & ->). simpl.
    eapply mark_completed_Done in Hmark; [|done..].
    destruct Hmark as (_ & _ & _ & _ & _ & _ & _ & Hregs & _). congruence.
  - done.
Qed.

(** X20.  The registers ARG0, ARG1, ... that an event sets for the guard
    scripts are gone when the event returns, whatever the scan did in between,
    and no other register has changed. *)
Theorem event_clears_arg_regs E fuel group args w w' :
  feature_achievement E = true →
  achievement_update_objective E fuel group args w = Done w' →
  ∀ i, regs (sd w') !! i
       = if decide (i < length args)%nat then None else regs (sd w) !! i.
Proof.
  intros Hfeature Hrun i. destruct fuel as [|f]; [done|].
  rewrite achievement_update_objective_S in Hrun.
  unfold achievement_update_objective_body in Hrun. rewrite Hfeature in Hrun.
  simpl in Hrun. case_decide; [|done].
  apply bind_Done in Hrun as (w2 & Hscan & Hrun). injection Hrun as <-.
  assert (regs (sd w2) = regs (set_arg_regs args (sd w))) as Hregs.
  { assert (for_each
              (fun ad w => '(_, w') ← achievement_update_objectives E f ad group
                                        (event_counts args) w; Done w')
              (achievement_db E) (with_sd (set_arg_regs args) w) = Done w2 →
            regs (sd w2) = regs (set_arg_regs args (sd w))) as Hloop.
    { apply (for_each_inv (fun w0 => regs (sd w0) = regs (set_arg_regs args (sd w))));
        [|done].
      intros ad w0 w0' Hr Hstep.
      apply bind_Done in Hstep as ([b w1] & Hstep & Hret). injection Hret as <-.
      by eapply below_event_keeps_regs. }
    destruct group; try (by apply Hloop). by injection Hscan as <-. }
  simpl. rewrite clear_arg_regs_lookup. case_decide; [done|].
  rewrite Hregs. apply set_arg_regs_outside. lia.
Qed.

Lemma event_clears_arg_regs_witness :
  ∃ w', achievement_update_objective (sample_env [kill_1002]) 8 AG_BATTLE [1002]
          new_player = Done w'
        ∧ regs (sd w') !! 0%nat = None.
Proof.
  destruct (achievement_update_objective (sample_env [kill_1002]) 8 AG_BATTLE [1002]
              new_player) as [w'| |] eqn:Hrun; [|vm_compute in Hrun; discriminate..].
  exists w'. split; [done|].
  apply (event_clears_arg_regs (sample_env [kill_1002]) 8 AG_BATTLE [1002] new_player w'
           eq_refl Hrun 0%nat).
Defined.

(** ** What the core never does *)

Lemma only_updates_emit w0 w a n :
  only_updates_since w0 w → only_updates_since w0 (emit (clif_achievement_update a n) w).
Proof.
  intros (new & Hout & Hall). exists (clif_achievement_update a n :: new).
  simpl. rewrite Hout. split; [done|]. by constructor.
Qed.

Lemma only_updates_scripts w0 w :
  only_updates_since w0 w → scripts_run w = scripts_run w0.
Proof.
  intros (new & Hout & Hall). unfold scripts_run. rewrite Hout, omap_app.
  replace (omap _ new) with (@nil (option script_code)); [done|].
  clear Hout. induction Hall as [|e new He _ IH]; [done|].
  destruct e; (by destruct He) || (csimpl; exact IH).
Qed.

Lemma nothing_granted_core E w0 fuel :
  (∀ g args w w', nothing_granted_since w0 w →
     achievement_update_objective E fuel g args w = Done w' →
     nothing_granted_since w0 w')
  ∧ (∀ ad g c w b w', nothing_granted_since w0 w →
       achievement_update_objectives E fuel ad g c w = Done (b, w') →
       nothing_granted_since w0 w')
  ∧ (∀ id c w b w', nothing_granted_since w0 w →
       achievement_update_achievement E fuel id c w = Done (b, w') →
       nothing_granted_since w0 w')
  ∧ (∀ ad w z w', nothing_granted_since w0 w →
       achievement_check_groups E fuel ad w = Done (z, w') →
       nothing_granted_since w0 w').
Proof.
  apply (core_invariant E (nothing_granted_since w0)).
  - done.
  - intros w id i w' (Ht & Hout & Hold & Hnew) _ Hadd.
    apply achievement_add_Some in Hadd as (adb & _ & Hfresh & _ & Hsd & Hout' & _).
    simpl in Hsd, Hout'. unfold nothing_granted_since, rewards_as_in.
    rewrite Hsd. simpl.
    split; [done|]. split; [|split].
    + destruct Hout as (new & Hout & Hall). eexists (_ :: new).
      rewrite Hout', Hout. split; [done|]. by constructor.
    + intros a0 Hin0. destruct (Hold a0 Hin0) as (a & Hin & Hid & Hr).
      exists a. split; [|done].
      rewrite <- (take_drop i (achievements (sd w))) in Hin.
      apply elem_of_app in Hin as [Hin|Hin]; apply elem_of_app; [by left|right].
      apply elem_of_cons. by right.
    + intros a Hin. apply elem_of_app in Hin as [Hin|Hin].
      * apply Hnew. rewrite <- (take_drop i (achievements (sd w))).
        apply elem_of_app. by left.
      * apply elem_of_cons in Hin as [->|Hin].
        -- right. split; [done|]. simpl. intros Hin0.
           apply list_elem_of_fmap in Hin0 as (a0 & Hid0 & Hin0).
           destruct (Hold a0 Hin0) as (a & Hin & Hid & _).
           apply log_lookup_None in Hfresh. apply Hfresh.
           apply list_elem_of_fmap. exists a. split; [congruence|done].
        -- apply Hnew. rewrite <- (take_drop i (achievements (sd w))).
           apply elem_of_app. by right.
  - intros w i a c (Ht & Hout & Hold & Hnew) Ha _. split; [done|]. split; [done|].
    simpl. split.
    + intros a0 Hin0. destruct (Hold a0 Hin0) as (b & Hin & Hid & Hr).
      apply list_elem_of_lookup in Hin as [j Hj].
      destruct (decide (j = i)) as [->|Hne].
      * exists (set_count c b). split; [|done].
        apply list_elem_of_lookup. exists i. by rewrite list_lookup_alter_eq, Hj.
      * exists b. split; [|done].
        apply list_elem_of_lookup. exists j. by rewrite list_lookup_alter_ne.
    + intros b Hin. apply list_elem_of_lookup in Hin as [j Hj].
      destruct (decide (j = i)) as [->|Hne].
      * rewrite list_lookup_alter_eq, Ha in Hj. injection Hj as <-. simpl.
        apply (Hnew a). by eapply list_elem_of_lookup_2.
      * rewrite list_lookup_alter_ne in Hj by done.
        apply Hnew. by eapply list_elem_of_lookup_2.
  - intros w id adb i a w1 info w2 (Ht & Hout & Hold & Hnew) _ Ha _ Hi _ Hmark Hlevel.
    apply level_update_Done in Hlevel as (lv & _ & ->).
    eapply mark_completed_Done in Hmark; [|done..].
    destruct Hmark as (_ & _ & Hl & _ & _ & _ & Ht1 & _ & Hout1 & _).
    unfold nothing_granted_since, rewards_as_in. simpl. split; [congruence|].
    split; [|split].
    + destruct Hout as (new & Hout & Hall). exists new. simpl.
      split; [congruence|done].
    + intros a0 Hin0. destruct (Hold a0 Hin0) as (b & Hin & Hid & Hr).
      apply list_elem_of_lookup in Hin as [j Hj].
      destruct (decide (j = i)) as [->|Hne].
      * assert (b = a) as -> by congruence.
        eexists. split; [apply list_elem_of_lookup; eexists; rewrite Hl;
                         by rewrite decide_True by done|done].
      * destruct (decide (j = pred (incompleteCount (sd w)))) as [->|Hne'].
        -- exists b. split; [|done]. apply list_elem_of_lookup. exists i.
           rewrite Hl. rewrite decide_False by done. by rewrite decide_True by done.
        -- exists b. split; [|done]. apply list_elem_of_lookup. exists j.
           rewrite Hl. by rewrite !decide_False by done.
    + intros b Hin. apply list_elem_of_lookup in Hin as [j Hj]. rewrite Hl in Hj.
      case_decide.
      * injection Hj as <-. simpl. apply (Hnew a). by eapply list_elem_of_lookup_2.
      * case_decide; apply Hnew; by eapply list_elem_of_lookup_2.
  - intros w a (Ht & Hout & Hrew). split; [done|]. split; [|done].
    by apply only_updates_emit.
Qed.

(** X21.  Nothing is granted by an event or a completion: when the call
    returns the titles are those held before, every entry of before is still
    there with its reward time, every entry there now has the reward time its
    achievement had before or is new and has reward time 0, no reward script
    was run and no message other than achievement updates was sent.  On a log
    with distinct ids the lookup of an id gives the reward time it gave
    before. *)
Theorem core_grants_nothing E fuel w :
  (∀ group args w',
     achievement_update_objective E fuel group args w = Done w' →
     nothing_granted_since w w' ∧ scripts_run w' = scripts_run w
     ∧ (NoDup (achievement_id <$> achievements (sd w)) →
        ∀ id a', log_lookup (sd w') id = Some a' →
                 rewarded a' = default 0 (rewarded <$> log_lookup (sd w) id)))
  ∧ (∀ id complete b w',
       achievement_update_achievement E fuel id complete w = Done (b, w') →
       nothing_granted_since w w' ∧ scripts_run w' = scripts_run w
       ∧ (NoDup (achievement_id <$> achievements (sd w)) →
          ∀ id a', log_lookup (sd w') id = Some a' →
                   rewarded a' = default 0 (rewarded <$> log_lookup (sd w) id))).
Proof.
  assert (nothing_granted_since w w) as Hstart.
  { split; [done|]. split; [by exists []|]. split.
    - intros a0 Hin0. eauto.
    - intros a Hin. left. eauto. }
  assert (∀ w', nothing_granted_since w w' →
            NoDup (achievement_id <$> achievements (sd w)) →
            ∀ id a', log_lookup (sd w') id = Some a' →
                     rewarded a' = default 0 (rewarded <$> log_lookup (sd w) id))
    as Hlookup.
  { intros w' (_ & _ & _ & Hnew) Hnd id a' Hfind.
    apply find_has_id in Hfind as [Hin <-].
    destruct (Hnew a' Hin) as [(a0 & Hin0 & Hid & Hr)|[Hzero Hfresh]].
    - unfold log_lookup. rewrite <- Hid.
      by rewrite (find_has_id_unique _ _ Hnd Hin0).
    - apply log_lookup_None in Hfresh. by rewrite Hfresh. }
  destruct (nothing_granted_core E w fuel) as (HU & _ & HA & _).
  split.
  - intros group args w' Hrun. pose proof (HU _ _ _ _ Hstart Hrun) as Hkept.
    split; [done|]. split; [apply only_updates_scripts, Hkept|by apply Hlookup].
  - intros id complete b w' Hrun. pose proof (HA _ _ _ _ _ Hstart Hrun) as Hkept.
    split; [done|]. split; [apply only_updates_scripts, Hkept|by apply Hlookup].
Qed.

(** ** Reading the catalog *)

Lemma erase_unknown_from_kept known n pre rest :
  (length rest ≤ n)%nat →
  erase_unknown_from n known (length pre) (pre ++ rest) = pre ++ kept_ids known rest.
Proof.
  revert pre rest. induction n as [|n IH]; intros pre rest Hn.
  { destruct rest; [done|simpl in Hn; lia]. }
  destruct rest as [|d rest].
  { simpl. rewrite app_nil_r. by rewrite lookup_ge_None_2. }
  cbn [erase_unknown_from]. rewrite list_lookup_middle by done.
  simpl in Hn. cbn [kept_ids]. destruct (known d).
  - replace (S (length pre)) with (length (pre ++ [d])) by (rewrite length_app; simpl; lia).
    rewrite (cons_middle d pre rest), app_assoc, IH by lia. by rewrite <- app_assoc.
  - rewrite delete_middle. destruct rest as [|d' rest].
    + rewrite app_nil_r. destruct n; simpl; [done|]. by rewrite lookup_ge_None_2 by lia.
    + replace (S (length pre)) with (length (pre ++ [d']))
        by (rewrite length_app; simpl; lia).
      rewrite (cons_middle d' pre rest), app_assoc, IH by (simpl in Hn; lia).
      by rewrite <- app_assoc.
Qed.

Lemma erase_unknown_kept known ids : erase_unknown known ids = kept_ids known ids.
Proof. apply (erase_unknown_from_kept known (length ids) [] ids). done. Qed.

Lemma kept_ids_ind (known : Z → bool) (Q : list Z → Prop) :
  Q [] →
  (∀ d rest, known d = true → Q rest → Q (d :: rest)) →
  (∀ d, known d = false → Q [d]) →
  (∀ d d' rest, known d = false → Q rest → Q (d :: d' :: rest)) →
  ∀ ids, Q ids.
Proof.
  intros Hnil Hknown Hlast Hskip ids.
  cut (Q ids ∧ ∀ d, Q (d :: ids)); [by intros [? _]|].
  induction ids as [|d' rest [IH1 IH2]].
  - split; [done|]. intros d. destruct (known d) eqn:Hd; auto.
  - split; [done|]. intros d. destruct (known d) eqn:Hd; auto.
Qed.

Lemma kept_ids_sublist known ids : kept_ids known ids `sublist_of` ids.
Proof.
  induction ids using (kept_ids_ind known); cbn [kept_ids]; try rewrite H.
  - done.
  - by apply sublist_skip.
  - apply sublist_nil_l.
  - by apply sublist_cons, sublist_skip.
Qed.

Lemma kept_ids_known known ids :
  filter (fun d => known d = true) ids `sublist_of` kept_ids known ids.
Proof.
  induction ids using (kept_ids_ind known); cbn [kept_ids]; try rewrite H.
  - done.
  - rewrite filter_cons_True by done. by apply sublist_skip.
  - by rewrite filter_cons_False by congruence.
  - rewrite filter_cons_False by congruence. destruct (known d') eqn:Hd'.
    + rewrite filter_cons_True by done. by apply sublist_skip.
    + rewrite filter_cons_False by congruence. by apply sublist_cons.
Qed.

Lemma kept_ids_apart known ids :
  unknown_apart known ids → kept_ids known ids = filter (fun d => known d = true) ids.
Proof.
  induction ids using (kept_ids_ind known); intros Hapart; cbn [kept_ids];
    try rewrite H.
  - done.
  - rewrite filter_cons_True by done. f_equal. apply IHids.
    intros i x x' Hx Hx'. apply (Hapart (S i) x x'); done.
  - by rewrite filter_cons_False by congruence.
  - rewrite filter_cons_False by congruence.
    destruct (Hapart 0%nat d d' eq_refl eq_refl) as [Hd|Hd']; [congruence|].
    rewrite filter_cons_True by done. f_equal. apply IHids.
    intros i x x' Hx Hx'. apply (Hapart (S (S i)) x x'); done.
Qed.

(** X22.  The loop of [achievement_read_db] over a dependent list only ever
    takes ids out: what is left is a sublist of the original that still holds
    every known id, in order; more iterations would change nothing; and when
    no unknown id directly follows another one, exactly the known ids are
    left. *)
Theorem erase_unknown_spec known ids :
  erase_unknown known ids `sublist_of` ids
  ∧ filter (fun d => known d = true) ids `sublist_of` erase_unknown known ids
  ∧ (∀ n, (length ids ≤ n)%nat → erase_unknown_from n known 0 ids = erase_unknown known ids)
  ∧ (unknown_apart known ids → erase_unknown known ids = filter (fun d => known d = true) ids).
Proof.
  rewrite erase_unknown_kept. split; [apply kept_ids_sublist|].
  split; [apply kept_ids_known|]. split; [|apply kept_ids_apart].
  intros n Hn. apply (erase_unknown_from_kept known n [] ids Hn).
Qed.

(** X23.  The loop does not test the id that moves into the place of an
    erased one: after a run of known ids, an unknown id is erased and the id
    behind it is kept, known or not. *)
Theorem erase_unknown_skips known pre u d rest :
  Forall (fun x => known x = true) pre → known u = false →
  erase_unknown known (pre ++ u :: d :: rest) = pre ++ d :: erase_unknown known rest.
Proof.
  intros Hpre Hu. rewrite !erase_unknown_kept.
  induction Hpre as [|x pre Hx _ IH].
  - simpl. by rewrite Hu.
  - simpl. by rewrite Hx, IH.
Qed.

Lemma erase_unknown_skips_witness :
  erase_unknown (db_exists [kill_1002; dangling]) (db_dependent_ids dangling) = [99].
Proof.
  apply (erase_unknown_skips (db_exists [kill_1002; dangling]) [] 98 99 []).
  - constructor.
  - reflexivity.
Defined.

Lemma db_find_read_db loaded id :
  db_find (achievement_read_db loaded) id
  = (fun ach =>
       mk_adb (db_achievement_id ach) (db_group ach) (db_targets ach)
         (erase_unknown (db_exists loaded) (db_dependent_ids ach))
         (db_condition ach) (db_rewards ach) (db_score ach)) <$> db_find loaded id.
Proof.
  unfold achievement_read_db, db_find. generalize (db_exists loaded). intros known.
  induction loaded as [|ach l IH]; [done|]. csimpl.
  destruct (db_achievement_id ach =? id); [done|]. apply IH.
Qed.

(** X24.  [achievement_read_db] changes nothing of the catalog but the
    dependent lists: the same ids exist afterwards, an achievement keeps its
    group, targets, guard, rewards and score, and its dependent list is a
    sublist of the loaded one.  If in the loaded list no unknown id directly
    follows another one, every dependent id left is the id of an achievement
    of the catalog. *)
Theorem read_db_dependents loaded id :
  db_exists (achievement_read_db loaded) id = db_exists loaded id
  ∧ ∀ ach, db_find (achievement_read_db loaded) id = Some ach →
      ∃ ach0, db_find loaded id = Some ach0
        ∧ db_achievement_id ach = db_achievement_id ach0
        ∧ db_group ach = db_group ach0 ∧ db_targets ach = db_targets ach0
        ∧ db_condition ach = db_condition ach0 ∧ db_rewards ach = db_rewards ach0
        ∧ db_score ach = db_score ach0
        ∧ db_dependent_ids ach `sublist_of` db_dependent_ids ach0
        ∧ (unknown_apart (db_exists loaded) (db_dependent_ids ach0) →
           ∀ dep, dep ∈ db_dependent_ids ach →
                  db_exists (achievement_read_db loaded) dep = true).
Proof.
  assert (∀ id0, db_exists (achievement_read_db loaded) id0 = db_exists loaded id0)
    as Hexists.
  { intros id0. unfold db_exists. rewrite db_find_read_db.
    by destruct (db_find loaded id0). }
  split; [done|]. intros ach. rewrite db_find_read_db.
  destruct (db_find loaded id) as [ach0|]; [|done]. intros [= <-]. exists ach0.
  simpl. do 7 (split; [done|]). rewrite erase_unknown_kept.
  split; [apply kept_ids_sublist|].
  intros Hapart dep Hdep. rewrite kept_ids_apart in Hdep by done.
  apply list_elem_of_filter in Hdep as [Hknown _]. by rewrite Hexists.
Qed.

(** ** Dependent ids that are not in the catalog *)

Lemma unknown_dependent_check E s id adb dep :
  db_find (achievement_db E) id = Some adb → dep ∈ db_dependent_ids adb →
  db_find (achievement_db E) dep = None → log_within_catalog E s →
  achievement_check_dependent E s id = false.
Proof.
  intros Hdb Hdep Hunknown Hwithin. unfold achievement_check_dependent. rewrite Hdb.
  apply not_true_is_false. rewrite forallb_forall. intros Hall.
  specialize (Hall dep). rewrite <- list_elem_of_In in Hall.
  apply Hall, achievement_done_spec in Hdep as (a & Hin & <- & _).
  apply Hwithin in Hin as [? Hin]. congruence.
Qed.

Lemma ids_kept_core E (Q : Z → Prop) fuel :
  let P w := ∀ a, a ∈ achievements (sd w) → Q (achievement_id a) in
  (∀ w id, P w → achievement_check_dependent E (sd w) id = true → Q id) →
  (∀ g args w w', P w → achievement_update_objective E fuel g args w = Done w' → P w')
  ∧ (∀ ad g c w b w',
       P w → achievement_update_objectives E fuel ad g c w = Done (b, w') → P w')
  ∧ (∀ id c w b w',
       P w → achievement_update_achievement E fuel id c w = Done (b, w') → P w')
  ∧ (∀ ad w z w', P w → achievement_check_groups E fuel ad w = Done (z, w') → P w').
Proof.
  intros P Hnew. apply (core_invariant E P); unfold P.
  - done.
  - intros w id i w' HP Hdep Hadd.
    apply achievement_add_Some in Hadd as (adb & _ & _ & _ & Hsd & _).
    simpl in Hsd. rewrite Hsd. simpl. intros a Hin.
    apply elem_of_app in Hin as [Hin|Hin].
    + apply HP. rewrite <- (take_drop i (achievements (sd w))).
      apply elem_of_app. by left.
    + apply elem_of_cons in Hin as [->|Hin]; [by eapply Hnew|].
      apply HP. rewrite <- (take_drop i (achievements (sd w))).
      apply elem_of_app. by right.
  - intros w i a c HP Ha _. simpl. intros b Hin.
    apply list_elem_of_lookup in Hin as [j Hj].
    destruct (decide (j = i)) as [->|Hne].
    + rewrite list_lookup_alter_eq, Ha in Hj. injection Hj as <-. simpl.
      apply (HP a). by eapply list_elem_of_lookup_2.
    + rewrite list_lookup_alter_ne in Hj by done.
      apply HP. by eapply list_elem_of_lookup_2.
  - intros w id adb i a w1 info w2 HP _ Ha _ Hi _ Hmark Hlevel.
    apply level_update_Done in Hlevel as (lv & _ & ->).
    eapply mark_completed_Done in Hmark; [|done..].
    destruct Hmark as (_ & _ & Hl & _). simpl.
    intros b Hin. apply list_elem_of_lookup in Hin as [j Hj]. rewrite Hl in Hj.
    case_decide.
    + injection Hj as <-. simpl. apply (HP a). by eapply list_elem_of_lookup_2.
    + case_decide; apply HP; by eapply list_elem_of_lookup_2.
  - done.
Qed.

(** X25.  An achievement with a dependent id that is not in the catalog stays
    locked: on a log that holds only catalog achievements its dependency check
    fails, and no event ever creates an entry for it. *)
Theorem unknown_dependent_blocks E fuel id adb dep w :
  db_find (achievement_db E) id = Some adb → dep ∈ db_dependent_ids adb →
  db_find (achievement_db E) dep = None →
  log_within_catalog E (sd w) → log_lookup (sd w) id = None →
  achievement_check_dependent E (sd w) id = false
  ∧ ∀ group args w',
      achievement_update_objective E fuel group args w = Done w' →
      log_within_catalog E (sd w') ∧ log_lookup (sd w') id = None.
Proof.
  intros Hdb Hdep Hunknown Hwithin Hnone.
  split; [by eapply unknown_dependent_check|].
  intros group args w' Hrun.
  destruct (ids_kept_core E
              (fun x => is_Some (db_find (achievement_db E) x) ∧ x ≠ id) fuel)
    as (HU & _).
  { intros w0 id0 HP Hcheck. split.
    - unfold achievement_check_dependent in Hcheck.
      by destruct (db_find (achievement_db E) id0).
    - intros ->. erewrite unknown_dependent_check in Hcheck; [done..|].
      intros a Hin. by apply HP. }
  assert (∀ a, a ∈ achievements (sd w') →
               is_Some (db_find (achievement_db E) (achievement_id a))
               ∧ achievement_id a ≠ id) as Hkept.
  { eapply HU; [|done]. intros a Hin. split; [by apply Hwithin|].
    apply log_lookup_None in Hnone. intros Heq. apply Hnone.
    apply list_elem_of_fmap. eauto. }
  split; [intros a Hin; by apply Hkept|].
  apply log_lookup_None. intros Hin.
  apply list_elem_of_fmap in Hin as (a & Heq & Hin). by apply Hkept in Hin as [_ ?].
Qed.

Lemma unknown_dependent_blocks_witness :
  ∃ w', achievement_update_objective
          (sample_env (achievement_read_db [kill_1002; dangling])) 10 AG_BATTLE [1002]
          new_player = Done w'
        ∧ log_lookup (sd w') 12 = None.
Proof.
  destruct (achievement_update_objective
              (sample_env (achievement_read_db [kill_1002; dangling])) 10 AG_BATTLE [1002]
              new_player) as [w'| |] eqn:Hrun; [|vm_compute in Hrun; discriminate..].
  exists w'. split; [done|].
  destruct (unknown_dependent_blocks
              (sample_env (achievement_read_db [kill_1002; dangling])) 10 12
              (mk_adb 12 AG_BATTLE [(0%nat, mk_target 1002 1)] [99] None no_reward 10)
              99 new_player) as [_ Hlocked].
  - reflexivity.
  - apply list_elem_of_here.
  - reflexivity.
  - intros a Hin. by apply elem_of_nil in Hin.
  - reflexivity.
  - by destruct (Hlocked AG_BATTLE [1002] w' Hrun).
Defined.

(** ** The cached total and level *)

Lemma recount_delete l i a :
  l !! i = Some a → recount_score (delete i l) = recount_score l - gain a.
Proof.
  rewrite !recount_score_gains. revert i.
  induction l as [|x l IH]; intros [|i] Hi; try done.
  - injection Hi as ->. csimpl. lia.
  - csimpl. rewrite (IH i Hi). lia.
Qed.

(** X26.  Removing an entry lowers the recount of the log by exactly what the
    entry contributed, its score if it was completed and 0 otherwise; so the
    total that the next [achievement_level] stores is the old recount less
    that contribution. *)
Theorem remove_lowers_recount E id w a :
  db_exists (achievement_db E) id = true → log_lookup (sd w) id = Some a →
  recount_score (achievements (sd (achievement_remove E id w).2))
  = recount_score (achievements (sd w)) - gain a
  ∧ ∀ fuel flag info w',
      (level_fuel ≤ fuel)%nat →
      achievement_level E fuel flag (achievement_remove E id w).2 = Done (info, w') →
      total_score (sd w') = recount_score (achievements (sd w)) - gain a.
Proof.
  intros Hdb Hfind.
  assert (recount_score (achievements (sd (achievement_remove E id w).2))
          = recount_score (achievements (sd w)) - gain a) as Hrecount.
  { unfold achievement_remove. rewrite Hdb. simpl. unfold log_lookup in Hfind.
    rewrite ARR_FIND_find, Hfind. simpl.
    apply recount_delete. by rewrite ARR_FIND_find. }
  split; [done|]. intros fuel flag info w' Hfuel Hrun.
  rewrite (achievement_level_enough E fuel flag _ Hfuel) in Hrun.
  apply level_update_Done in Hrun as (lv & _ & ->). simpl. exact Hrecount.
Qed.

Lemma remove_lowers_recount_witness :
  recount_score
    (achievements
       (sd (achievement_remove (sample_env [kill_1002]) 7
              (player_with [mk_achievement 7 zeros 1000 0 10] 0 10 0)).2))
  = 10 - 10.
Proof.
  destruct (remove_lowers_recount (sample_env [kill_1002]) 7
              (player_with [mk_achievement 7 zeros 1000 0 10] 0 10 0)
              (mk_achievement 7 zeros 1000 0 10)) as [Hrecount _].
  - reflexivity.
  - reflexivity.
  - exact Hrecount.
Defined.

Lemma core_level_consistent E fuel :
  (∀ g args w w', level_consistent E (sd w) →
     achievement_update_objective E fuel g args w = Done w' →
     level_consistent E (sd w'))
  ∧ (∀ ad g c w b w', level_consistent E (sd w) →
       achievement_update_objectives E fuel ad g c w = Done (b, w') →
       level_consistent E (sd w'))
  ∧ (∀ id c w b w', level_consistent E (sd w) →
       achievement_update_achievement E fuel id c w = Done (b, w') →
       level_consistent E (sd w'))
  ∧ (∀ ad w z w', level_consistent E (sd w) →
       achievement_check_groups E fuel ad w = Done (z, w') →
       level_consistent E (sd w')).
Proof.
  apply (core_invariant E (fun w => level_consistent E (sd w))).
  - done.
  - intros w id i w' Hlc _ Hadd.
    apply achievement_add_Some in Hadd as (adb & _ & _ & _ & Hsd & _).
    simpl in Hsd. by rewrite Hsd.
  - done.
  - intros w id adb i a w1 info w2 _ _ _ _ _ _ _ Hlevel.
    apply level_update_Done in Hlevel as (lv & Hwalk & ->). by exists info.
  - done.
Qed.

(** X27.  The cached level always belongs to the cached total: insertions,
    removals, updates and events keep the level equal to the level the table
    gives for the total, and as long as nothing is removed both are those of
    the scores of the completed entries. *)
Theorem caches_consistent E ops fuel w w' :
  clock_positive E → log_ok (sd w) →
  level_consistent E (sd w) → run_operations E fuel ops w = Done w' →
  level_consistent E (sd w')
  ∧ (score_consistent (sd w) → Forall (fun op => ∀ id, op ≠ op_remove id) ops →
     total_score (sd w') = completed_score (achievements (sd w'))
     ∧ ∃ info, level_of (achievement_level_db E) (completed_score (achievements (sd w')))
               = Done (level (sd w'), info)).
Proof.
  intros Hclock Hok Hlc Hrun.
  assert (level_consistent E (sd w')) as Hlc'.
  { clear Hok. revert w Hlc Hrun. induction ops as [|op ops IH]; intros w Hlc Hrun;
      simpl in Hrun; [by injection Hrun as <-|].
    apply bind_Done in Hrun as (w1 & Hop & Hrun). apply (IH w1); [|done].
    destruct (core_level_consistent E fuel) as (HU & _ & HA & _).
    destruct op as [id|id|id complete|group args]; simpl in Hop.
    - injection Hop as <-.
      destruct (achievement_add E id w) as [[i|] w2] eqn:Hadd.
      + apply achievement_add_Some in Hadd as (adb & _ & _ & _ & Hsd & _).
        simpl in *. by rewrite Hsd.
      + by apply achievement_add_None in Hadd as ->.
    - injection Hop as <-. unfold achievement_remove.
      destruct (negb _); [done|]. by destruct (achievements (sd w) !! _).
    - apply bind_Done in Hop as ([b w2] & Hop & Hret). injection Hret as <-. eauto.
    - eauto. }
  split; [done|]. intros Hsc Hops.
  pose proof (score_consistent_without_removal E ops fuel w w' Hclock Hok Hsc Hops Hrun)
    as Htotal.
  split; [done|]. by rewrite <- Htotal.
Qed.

Lemma caches_consistent_witness :
  ∃ w', run_operations (sample_env [kill_1002]) 10 [op_add 7; op_update 7 true]
          new_player = Done w'
        ∧ level_consistent (sample_env [kill_1002]) (sd w').
Proof.
  destruct (run_operations (sample_env [kill_1002]) 10 [op_add 7; op_update 7 true]
              new_player) as [w'| |] eqn:Hrun; [|vm_compute in Hrun; discriminate..].
  exists w'. split; [done|].
  destruct (caches_consistent (sample_env [kill_1002]) [op_add 7; op_update 7 true] 10
              new_player w') as [Hlevel _].
  - apply sample_clock_positive.
  - apply new_player_log_ok.
  - exists (0, 100). reflexivity.
  - exact Hrun.
  - exact Hlevel.
Defined.

(** ** Unlocking by prerequisites *)

(** X28.  [achievement_check_groups] acts on an achievement exactly when it
    is unlockable.  Then it creates the entry and completes it at once: the
    entry is dated with the clock reading taken, every objective slot is at
    its required count, and no reward is marked.  In every other case it
    leaves the world as it is. *)
Theorem check_groups_rule E fuel ad w :
  clock_positive E → is_Some (achievement_level_db E !! 0) →
  log_ok (sd w) → (core_fuel E ≤ fuel)%nat →
  db_find (achievement_db E) (db_achievement_id ad) = Some ad →
  targets_ok (db_targets ad) →
  (¬ unlockable E ad (sd w) → ∃ z, achievement_check_groups E fuel ad w = Done (z, w))
  ∧ (unlockable E ad (sd w) →
     ∃ w' e', achievement_check_groups E fuel ad w = Done (1, w')
       ∧ log_lookup (sd w') (db_achievement_id ad) = Some e'
       ∧ completed e' = time E (clock w) ∧ rewarded e' = 0 ∧ score e' = db_score ad
       ∧ ∀ k t, (k, t) ∈ db_targets ad → at_slot (count e') k = target_count t).
Proof.
  intros Hclock Hlevel0 Hok Hfuel Hdb [Hnd Hslots].
  pose proof (absent_bound E (sd w)) as Habs. unfold core_fuel in Hfuel.
  destruct fuel as [|[|f]]; [lia..|]. split; [apply check_groups_locked|].
  intros (Hg & Hd & Hc & Hnew & Hdep).
  rewrite achievement_check_groups_S. unfold achievement_check_groups_body.
  rewrite (bool_decide_eq_true_2 _ Hg), (bool_decide_eq_false_2 _ Hd), Hc.
  rewrite bool_decide_eq_false_2 by (by intros [? ?]). simpl.
  pose proof Hnew as Hmiss. apply ARR_FIND_miss in Hmiss. rewrite Hmiss, Hdep.
  case_decide; [|done].
  destruct (achievement_add_fresh E _ w ad Hdb Hnew) as [w1 Hadd]. rewrite Hadd.
  pose proof (achievement_add_log_ok E (db_achievement_id ad) w Hok) as Hok1.
  rewrite Hadd in Hok1. simpl in Hok1.
  pose proof (absent_add E _ w _ w1 Hadd) as Habs1.
  apply achievement_add_Some in Hadd as (adb & Hdb' & _ & _ & Hsd & _ & Hclk & _).
  assert (adb = ad) as -> by congruence.
  destruct (update_achievement_completes E Hclock Hlevel0 f (db_achievement_id ad) w1 ad
              (incompleteCount (sd w)) (fresh_entry ad))
    as (w' & Hrun & _ & Hfind); [done|lia|done| |done..|].
  { rewrite Hsd. simpl. rewrite lookup_inserted by apply Hok.
    case_decide; [lia|]. case_decide; [done|lia]. }
  rewrite Hrun. simpl. eexists w', _. split; [done|]. split; [exact Hfind|].
  simpl. split; [by rewrite Hclk|]. split; [done|]. split; [done|].
  intros k t Hkt. apply fill_targets_spec; [done| |done].
  unfold zeros. by rewrite length_replicate.
Qed.

Lemma check_groups_rule_witness :
  ∃ w' e', achievement_check_groups (sample_env [kill_1002; after_kill]) 10 after_kill
             (player_with [mk_achievement 7 zeros 1000 0 10] 0 10 0) = Done (1, w')
    ∧ log_lookup (sd w') 8 = Some e'
    ∧ completed e' = 1000 ∧ rewarded e' = 0 ∧ score e' = 20
    ∧ ∀ k t, (k, t) ∈ [] → at_slot (count e') k = target_count t.
Proof.
  destruct (check_groups_rule (sample_env [kill_1002; after_kill]) 10 after_kill
              (player_with [mk_achievement 7 zeros 1000 0 10] 0 10 0)) as [_ Hunlock].
  - apply sample_clock_positive.
  - by eexists.
  - unfold player_with, log_ok, partitioned. simpl. split; [lia|]. split.
    + intros [|j] a Ha; simpl in Ha; [|by rewrite lookup_nil in Ha].
      injection Ha as <-. simpl. split; [lia|done].
    + apply NoDup_singleton.
  - unfold core_fuel. simpl. lia.
  - reflexivity.
  - split; [apply NoDup_nil_2|apply Forall_nil_2].
  - apply Hunlock. unfold unlockable. simpl.
    split; [by right; right|]. split; [done|]. split; [done|]. split; reflexivity.
Defined.

(** ** Fuel *)

Lemma settles_refl {A} (r : result A) : settles_as r r.
Proof. by right. Qed.

Lemma settles_bind {A B} (m m' : result A) (k k' : A → result B) :
  settles_as m m' → (∀ a, settles_as (k a) (k' a)) → settles_as (m ≫= k) (m' ≫= k').
Proof.
  intros [->| ->] Hk; [by left|]. destruct m as [a| |]; simpl; [apply Hk|by right..].
Qed.

Lemma settles_for_each {A} (f f' : A → world → result world) l w :
  (∀ a w, settles_as (f a w) (f' a w)) → settles_as (for_each f l w) (for_each f' l w).
Proof.
  intros Hf. revert w. induction l as [|a l IH]; intros w; simpl; [apply settles_refl|].
  apply settles_bind; [apply Hf|apply IH].
Qed.

Section more_fuel.
Context (E : env).
Context (U U' : e_achievement_group → list Z → world → result world).
Context (O O' : s_achievement_db → e_achievement_group → list Z → world
                → result (bool * world)).
Context (A A' : Z → bool → world → result (bool * world)).
Context (L L' : bool → world → result ((Z * Z) * world)).
Context (G G' : s_achievement_db → world → result (Z * world)).
Hypothesis HU : ∀ g args w, settles_as (U g args w) (U' g args w).
Hypothesis HO : ∀ ad g c w, settles_as (O ad g c w) (O' ad g c w).
Hypothesis HA : ∀ id c w, settles_as (A id c w) (A' id c w).
Hypothesis HL : ∀ flag w, settles_as (L flag w) (L' flag w).
Hypothesis HG : ∀ ad w, settles_as (G ad w) (G' ad w).

Lemma level_body_settles flag w :
  settles_as (achievement_level_body E U flag w) (achievement_level_body E U' flag w).
Proof.
  unfold achievement_level_body. apply settles_bind; [apply settles_refl|].
  intros [lv info]. destruct (flag && _); [|apply settles_refl].
  apply settles_bind; [apply HU|]. intros; apply settles_refl.
Qed.

Lemma update_objective_body_settles g args w :
  settles_as (achievement_update_objective_body E O g args w)
             (achievement_update_objective_body E O' g args w).
Proof.
  unfold achievement_update_objective_body.
  destruct (negb _); [apply settles_refl|]. case_decide; [|apply settles_refl].
  apply settles_bind; [|intros; apply settles_refl].
  assert (∀ w1, settles_as
            (for_each (fun ad w => '(_, w') ← O ad g (event_counts args) w; Done w')
               (achievement_db E) w1)
            (for_each (fun ad w => '(_, w') ← O' ad g (event_counts args) w; Done w')
               (achievement_db E) w1)) as Hscan.
  { intros w1. apply settles_for_each. intros ad w0.
    apply settles_bind; [apply HO|]. intros; apply settles_refl. }
  destruct g; apply Hscan || apply settles_refl.
Qed.

Lemma update_objectives_body_settles ad g c w :
  settles_as (achievement_update_objectives_body E A ad g c w)
             (achievement_update_objectives_body E A' ad g c w).
Proof.
  unfold achievement_update_objectives_body.
  case_decide; [apply settles_refl|]. case_decide; [apply settles_refl|].
  destruct (match achievements (sd w) !! _ with Some _ => _ | None => _ end)
    as [[entry cur]|]; [|apply settles_refl].
  destruct (objectives_switch _ _ _ _ _ _) as [[[changed complete] cur']|];
    [|apply settles_refl].
  assert (∀ index w0, settles_as
            ('(_, w2) ← A (db_achievement_id ad) complete (store_counts index cur' w0);
             Done (true, w2))
            ('(_, w2) ← A' (db_achievement_id ad) complete (store_counts index cur' w0);
             Done (true, w2))) as Happly.
  { intros index w0. apply settles_bind; [apply HA|]. intros; apply settles_refl. }
  destruct entry as [index|].
  - destruct changed; [apply Happly|apply settles_refl].
  - destruct (complete || _); [|apply settles_refl].
    destruct (achievement_add E (db_achievement_id ad) w) as [[index|] w1];
      [|apply settles_refl].
    destruct changed; [apply Happly|apply settles_refl].
Qed.

Lemma update_achievement_body_settles id complete w :
  settles_as (achievement_update_achievement_body E L G id complete w)
             (achievement_update_achievement_body E L' G' id complete w).
Proof.
  unfold achievement_update_achievement_body.
  destruct (db_find _ _) as [adb|]; [|apply settles_refl].
  case_decide; [apply settles_refl|].
  destruct (achievements (sd w) !! _) as [a|]; [|apply settles_refl].
  destruct (completed a >? 0); [apply settles_refl|].
  destruct complete; [|apply settles_refl].
  apply settles_bind; [apply settles_refl|]. intros w1.
  apply settles_bind; [apply HL|]. intros [info w2].
  apply settles_bind; [|intros; apply settles_refl].
  apply settles_for_each. intros ach w0.
  apply settles_bind; [apply HG|]. intros; apply settles_refl.
Qed.

Lemma check_groups_body_settles ad w :
  settles_as (achievement_check_groups_body E A ad w)
             (achievement_check_groups_body E A' ad w).
Proof.
  unfold achievement_check_groups_body.
  destruct (negb _); [apply settles_refl|].
  destruct (_ || _); [apply settles_refl|].
  case_decide; [|apply settles_refl].
  destruct (achievement_check_dependent _ _ _); [|apply settles_refl].
  destruct (achievement_add _ _ _) as [o w1].
  apply settles_bind; [apply HA|]. intros; apply settles_refl.
Qed.

End more_fuel.

Lemma one_more_fuel E f :
  (∀ g args w, settles_as (achievement_update_objective E f g args w)
                          (achievement_update_objective E (S f) g args w))
  ∧ (∀ ad g c w, settles_as (achievement_update_objectives E f ad g c w)
                            (achievement_update_objectives E (S f) ad g c w))
  ∧ (∀ id c w, settles_as (achievement_update_achievement E f id c w)
                          (achievement_update_achievement E (S f) id c w))
  ∧ (∀ flag w, settles_as (achievement_level E f flag w)
                          (achievement_level E (S f) flag w))
  ∧ (∀ ad w, settles_as (achievement_check_groups E f ad w)
                        (achievement_check_groups E (S f) ad w)).
Proof.
  induction f as [|f (IHU & IHO & IHA & IHL & IHG)].
  { repeat split; intros; by left. }
  rewrite !achievement_update_objective_S, !achievement_update_objectives_S,
    !achievement_update_achievement_S, !achievement_level_S, !achievement_check_groups_S.
  split; [|split; [|split; [|split]]].
  - intros *. by apply update_objective_body_settles.
  - intros *. by apply update_objectives_body_settles.
  - intros *. by apply update_achievement_body_settles.
  - intros *. by apply level_body_settles.
  - intros *. by apply check_groups_body_settles.
Qed.

Lemma more_fuel E f f' :
  (f ≤ f')%nat →
  (∀ g args w r, achievement_update_objective E f g args w = r → r ≠ OutOfFuel →
                 achievement_update_objective E f' g args w = r)
  ∧ (∀ id c w r, achievement_update_achievement E f id c w = r → r ≠ OutOfFuel →
                 achievement_update_achievement E f' id c w = r).
Proof.
  induction 1 as [|f' Hle [IHU IHA]]; [done|].
  destruct (one_more_fuel E f') as (HU & _ & HA & _). split.
  - intros g args w r Hrun Hr. specialize (IHU g args w r Hrun Hr).
    destruct (HU g args w) as [Hout|Heq]; congruence.
  - intros id c w r Hrun Hr. specialize (IHA id c w r Hrun Hr).
    destruct (HA id c w) as [Hout|Heq]; congruence.
Qed.

(** X29.  The mutual recursion between events, completions, the level
    recomputation and the prerequisite scan ends: on a well-formed log an
    event and a completion have an outcome that no longer depends on the
    number of nested calls allowed, once that number is twice the size of the
    catalog plus six. *)
Theorem core_outcome_settled E w :
  clock_positive E → is_Some (achievement_level_db E !! 0) → log_ok (sd w) →
  (∀ group args, (length args ≤ MAX_ACHIEVEMENT_OBJECTIVES)%nat →
     ∃ w', ∀ fuel, (core_fuel E ≤ fuel)%nat →
                   achievement_update_objective E fuel group args w = Done w')
  ∧ (∀ id complete,
       ∃ r, ∀ fuel, (core_fuel E ≤ fuel)%nat →
                    achievement_update_achievement E fuel id complete w = Done r).
Proof.
  intros Hclock Hlevel0 Hok.
  pose proof (absent_bound E (sd w)) as Habs.
  destruct (core_total E Hclock Hlevel0 (core_fuel E)) as (HU & _ & HA & _).
  split.
  - intros group args Hargs.
    destruct (HU group args w Hok Hargs) as [w' Hrun]; [unfold core_fuel; lia|].
    exists w'. intros fuel Hfuel.
    by apply (more_fuel E (core_fuel E) fuel Hfuel).
  - intros id complete.
    destruct (HA id complete w Hok) as [r Hrun]; [unfold core_fuel; lia|].
    exists r. intros fuel Hfuel.
    by apply (more_fuel E (core_fuel E) fuel Hfuel).
Qed.

Lemma core_outcome_settled_witness :
  ∃ w', ∀ fuel, (core_fuel (sample_env [kill_1002; after_kill]) ≤ fuel)%nat →
                achievement_update_objective (sample_env [kill_1002; after_kill]) fuel
                  AG_BATTLE [1002] new_player = Done w'.
Proof.
  destruct (core_outcome_settled (sample_env [kill_1002; after_kill]) new_player)
    as [Hevent _].
  - apply sample_clock_positive.
  - by eexists.
  - apply new_player_log_ok.
  - apply (Hevent AG_BATTLE [1002]). unfold MAX_ACHIEVEMENT_OBJECTIVES. simpl. lia.
Defined.
